(** * TriageID: the serial-device session manager

    A shallow embedding of [webapp/frontend/contexts/serial-context.tsx]
    (the [SerialProvider] component and [useSerialContext]) and of the read
    loop of the older [useSerial] hook, with the properties the design
    document states about them.  The last part adds the callers of the
    provider (the effect of [DashboardReadModeReset], the tag handlers of
    the edit page and of the scan view, the generator of identifiers) and
    the cleanup of the hooks, with further properties of the code.

    Conventions.
    - A JavaScript string is the list of its UTF-16 code units; a
      [Uint8Array] is the list of its bytes.  Both are lists of [N].
    - [null] and [undefined] are [None].
    - A call returns or throws, and an awaited promise is fulfilled or
      rejected ([Completion]).  The operations that await come twice: run
      in one step, with the settlement of each promise as an explicit
      argument, and cut at their [await]s, as the steps of a schedule in
      which calls and settlements interleave.  The first are the schedules
      of the second in which nothing comes between a call and its
      settlements (lemmas [run_is_a_schedule], [mount_is_a_schedule]).
    - The regular expressions of the source are written out as the
      matchers they denote; each one is characterised by a lemma. *)

From Stdlib Require Import List NArith ZArith Ascii String Bool Lia.
Import ListNotations.

Local Open Scope N_scope.
Local Open Scope list_scope.

(** ** JavaScript strings *)

Definition jsstring := list N.
Definition Uint8Array := list N.

(** The code units of an ASCII literal. *)
Definition lit (s : string) : jsstring :=
  map N_of_ascii (list_ascii_of_string s).
Arguments lit s%_string.

Definition LF : N := 10.
Definition CR : N := 13.
Definition DQUOTE : N := 34.

(** [LineTerminator] of ECMAScript: the characters the pattern [.] refuses. *)
Definition isLineTerminator (c : N) : bool :=
  (c =? 10) || (c =? 13) || (c =? 0x2028) || (c =? 0x2029).

(** [WhiteSpace] and [LineTerminator] together: what [String.prototype.trim]
    strips and what the pattern [\s] accepts. *)
Definition isWhiteSpace (c : N) : bool :=
  (c =? 9) || (c =? 10) || (c =? 11) || (c =? 12) || (c =? 13) || (c =? 32)
  || (c =? 0xA0) || (c =? 0x1680) || ((0x2000 <=? c) && (c <=? 0x200A))
  || (c =? 0x2028) || (c =? 0x2029) || (c =? 0x202F) || (c =? 0x205F)
  || (c =? 0x3000) || (c =? 0xFEFF).

Fixpoint trimStart (s : jsstring) : jsstring :=
  match s with
  | [] => []
  | c :: r => if isWhiteSpace c then trimStart r else s
  end.

Definition trimEnd (s : jsstring) : jsstring := rev (trimStart (rev s)).

(** [s.trim()] *)
Definition trim (s : jsstring) : jsstring := trimEnd (trimStart s).

(** [text.endsWith(suffix)] for a one-character suffix. *)
Definition endsWith1 (s : jsstring) (c : N) : bool :=
  match rev s with
  | d :: _ => d =? c
  | [] => false
  end.

Fixpoint strip_prefix (p s : jsstring) : option jsstring :=
  match p, s with
  | [], _ => Some s
  | a :: p', b :: s' => if a =? b then strip_prefix p' s' else None
  | _ :: _, [] => None
  end.

(** ** [TextDecoder] and [TextEncoder]

    [new TextDecoder().decode(value)] is the UTF-8 decoder of the Encoding
    standard, run on one chunk from its initial state, with replacement of
    malformed sequences and removal of a leading byte order mark. *)

Record Utf8State := {
  code_point : N;
  bytes_seen : N;
  bytes_needed : N;
  lower_boundary : N;
  upper_boundary : N
}.

Definition utf8_init : Utf8State :=
  {| code_point := 0; bytes_seen := 0; bytes_needed := 0;
     lower_boundary := 0x80; upper_boundary := 0xBF |}.

(** A byte read while no continuation byte is expected. *)
Definition utf8_lead (b : N) : list N * Utf8State :=
  if b <=? 0x7F then ([b], utf8_init)
  else if (0xC2 <=? b) && (b <=? 0xDF) then
    ([], {| code_point := N.land b 0x1F; bytes_seen := 0; bytes_needed := 1;
            lower_boundary := 0x80; upper_boundary := 0xBF |})
  else if (0xE0 <=? b) && (b <=? 0xEF) then
    ([], {| code_point := N.land b 0xF; bytes_seen := 0; bytes_needed := 2;
            lower_boundary := if b =? 0xE0 then 0xA0 else 0x80;
            upper_boundary := if b =? 0xED then 0x9F else 0xBF |})
  else if (0xF0 <=? b) && (b <=? 0xF4) then
    ([], {| code_point := N.land b 0x7; bytes_seen := 0; bytes_needed := 3;
            lower_boundary := if b =? 0xF0 then 0x90 else 0x80;
            upper_boundary := if b =? 0xF4 then 0x8F else 0xBF |})
  else ([0xFFFD], utf8_init).

Definition utf8_step (st : Utf8State) (b : N) : list N * Utf8State :=
  if bytes_needed st =? 0 then utf8_lead b
  else if (b <? lower_boundary st) || (upper_boundary st <? b) then
    (* malformed: emit the replacement character and read [b] again *)
    let (out, st') := utf8_lead b in (0xFFFD :: out, st')
  else
    let cp := N.lor (N.shiftl (code_point st) 6) (N.land b 0x3F) in
    if bytes_seen st + 1 =? bytes_needed st then ([cp], utf8_init)
    else ([], {| code_point := cp; bytes_seen := bytes_seen st + 1;
                 bytes_needed := bytes_needed st;
                 lower_boundary := 0x80; upper_boundary := 0xBF |}).

Fixpoint utf8_run (st : Utf8State) (bytes : list N) : list N :=
  match bytes with
  | [] => if bytes_needed st =? 0 then [] else [0xFFFD]
  | b :: r => let (out, st') := utf8_step st b in out ++ utf8_run st' r
  end.

Definition strip_bom (cps : list N) : list N :=
  match cps with
  | c :: r => if c =? 0xFEFF then r else cps
  | [] => []
  end.

Definition utf16_units (c : N) : list N :=
  if c <? 0x10000 then [c]
  else [0xD800 + N.shiftr (c - 0x10000) 10; 0xDC00 + N.land (c - 0x10000) 0x3FF].

Definition TextDecoder_decode (value : Uint8Array) : jsstring :=
  flat_map utf16_units (strip_bom (utf8_run utf8_init value)).

(** [new TextEncoder().encode(s)]: the string is first read as scalar values
    (a surrogate without its partner becomes U+FFFD), then written in UTF-8. *)
Fixpoint scalar_values (s : jsstring) : list N :=
  match s with
  | [] => []
  | c :: r =>
      if (0xD800 <=? c) && (c <=? 0xDBFF) then
        match r with
        | d :: r' =>
            if (0xDC00 <=? d) && (d <=? 0xDFFF)
            then (0x10000 + N.shiftl (c - 0xD800) 10 + (d - 0xDC00)) :: scalar_values r'
            else 0xFFFD :: scalar_values r
        | [] => [0xFFFD]
        end
      else if (0xDC00 <=? c) && (c <=? 0xDFFF) then 0xFFFD :: scalar_values r
      else c :: scalar_values r
  end.

Definition utf8_bytes (c : N) : list N :=
  if c <=? 0x7F then [c]
  else if c <=? 0x7FF then [0xC0 + N.shiftr c 6; 0x80 + N.land c 0x3F]
  else if c <=? 0xFFFF then
    [0xE0 + N.shiftr c 12; 0x80 + N.land (N.shiftr c 6) 0x3F; 0x80 + N.land c 0x3F]
  else
    [0xF0 + N.shiftr c 18; 0x80 + N.land (N.shiftr c 12) 0x3F;
     0x80 + N.land (N.shiftr c 6) 0x3F; 0x80 + N.land c 0x3F].

Definition TextEncoder_encode (s : jsstring) : Uint8Array :=
  flat_map utf8_bytes (scalar_values s).

(** ** The patterns of the source *)

(** The capture group and what ends it: the longest run of characters
    other than the double quote, then a double quote. *)
Fixpoint until_quote (s : jsstring) : option (jsstring * jsstring) :=
  match s with
  | [] => None
  | c :: r =>
      if c =? DQUOTE then Some ([], r)
      else match until_quote r with
           | Some (v, rest) => Some (c :: v, rest)
           | None => None
           end
  end.

(** [USER_ID_REGEX] tried at the first character of [s]; the result is the
    capture group. *)
Definition USER_ID_at (s : jsstring) : option jsstring :=
  match strip_prefix (lit "User ID:") s with
  | None => None
  | Some r =>
      match trimStart r with
      | c :: r' => if c =? DQUOTE then option_map fst (until_quote r') else None
      | [] => None
      end
  end.

(** [const USER_ID_REGEX]: the literal [User ID:], any run of white space,
    a double quote, the captured run of characters other than the double
    quote, and a closing double quote, searched from the left.  The value is
    the capture group of [t.match(USER_ID_REGEX)]; [None] is the [null] of a
    failed match. *)
Fixpoint USER_ID_REGEX (s : jsstring) : option jsstring :=
  match USER_ID_at s with
  | Some v => Some v
  | None =>
      match s with
      | [] => None
      | _ :: r => USER_ID_REGEX r
      end
  end.

(** [const OK_READ_REGEX = /^OK\|READ\|(.+)$/] *)
Definition OK_READ_REGEX (s : jsstring) : option jsstring :=
  match strip_prefix (lit "OK|READ|") s with
  | Some (c :: r) =>
      if forallb (fun x => negb (isLineTerminator x)) (c :: r)
      then Some (c :: r) else None
  | _ => None
  end.

(** [readBuffer.split(/\r?\n/)] *)
Definition cons_head (c : N) (l : list jsstring) : list jsstring :=
  match l with
  | h :: t => (c :: h) :: t
  | [] => [[c]]
  end.

Definition starts_with_LF (s : jsstring) : bool :=
  match s with
  | c :: _ => c =? LF
  | [] => false
  end.

Fixpoint split_lines (s : jsstring) : list jsstring :=
  match s with
  | [] => [[]]
  | c :: r =>
      if c =? LF then [] :: split_lines r
      else if (c =? CR) && starts_with_LF r then split_lines r
      else cons_head c (split_lines r)
  end.

(** ** The line framer and the tag extractor of the read loop *)

Definition nonempty (s : jsstring) : bool :=
  match s with
  | [] => false
  | _ :: _ => true
  end.

(** One chunk through the framer:
    [readBuffer += decode(value); lines = readBuffer.split(...);
     readBuffer = lines.pop() || empty].  The result is the array [lines]
    after the [pop], and the new [readBuffer]. *)
Definition feed (readBuffer : jsstring) (value : Uint8Array)
  : list jsstring * jsstring :=
  let lines := split_lines (readBuffer ++ TextDecoder_decode value) in
  (removelast lines, last lines []).

(** [const t = line.trim(); if (!t) continue]: the lines that reach the
    extractor. *)
Definition complete_lines (lines : list jsstring) : list jsstring :=
  filter nonempty (map trim lines).

(** The variable [id] of the provider's read loop, once both patterns have
    been tried on the trimmed line [t]. *)
Definition extract_id (t : jsstring) : option jsstring :=
  match USER_ID_REGEX t with
  | Some m1 => Some (trim m1)
  | None =>
      match OK_READ_REGEX t with
      | Some m1 => Some (trim m1)
      | None => None
      end
  end.

(** [if (id != null && id !== empty)]: the tag the consumer is called with,
    if it is called. *)
Definition extract (t : jsstring) : option jsstring :=
  match extract_id t with
  | Some (c :: r) => Some (c :: r)
  | _ => None
  end.

(** A consumer callback is known by a name; calling it is recorded. *)
Definition Consumer := nat.
Definition TagCall : Type := Consumer * jsstring.

(** [onTagReadRef.current?.(id)] under the guard of [extract]. *)
Definition dispatch (onTagRead : option Consumer) (t : jsstring) : list TagCall :=
  match extract t, onTagRead with
  | Some id, Some cb => [(cb, id)]
  | _, _ => []
  end.

(** The read loop of the older [useSerial] hook knows the menu-mode pattern
    only and calls its consumer (always present there) without a guard. *)
Module UseSerial.

Definition extract (t : jsstring) : option jsstring :=
  match USER_ID_REGEX t with
  | Some m1 => Some (trim m1)
  | None => None
  end.

Definition dispatch (onTagRead : Consumer) (t : jsstring) : list TagCall :=
  match extract t with
  | Some id => [(onTagRead, id)]
  | None => []
  end.

End UseSerial.

(** Whole streams through the framer, chunk after chunk. *)
Fixpoint feed_all (readBuffer : jsstring) (chunks : list Uint8Array)
  : list jsstring * jsstring :=
  match chunks with
  | [] => ([], readBuffer)
  | value :: rest =>
      let (lines, readBuffer') := feed readBuffer value in
      let (more, final) := feed_all readBuffer' rest in
      (complete_lines lines ++ more, final)
  end.

Definition is_ascii (b : N) : Prop := b < 128.

(** ** Values, errors and the platform *)

Record JsError := {
  instanceof_Error : bool;
  message : jsstring
}.

(** How a call returns, or how an awaited promise settles. *)
Inductive Completion (A : Type) : Type :=
| Normal (a : A)
| Throw (e : JsError).
Arguments Normal {A} a.
Arguments Throw {A} e.

(** [e instanceof Error ? e.message : fallback] *)
Definition error_text (e : JsError) (fallback : jsstring) : jsstring :=
  if instanceof_Error e then message e else fallback.

(** A JavaScript number is a binary64 value.  The only numbers the session
    manager compares are USB identifiers, which are integers, so a number is
    kept as the integer it equals, or as an opaque non-integral value
    (fractions, infinities, NaN), which equals no integer. *)
Inductive JsNumber :=
| JsInt (z : Z)
| JsNonInt (bits : N).

#[warnings="-register-all"] Inductive JSValue :=
| JNull
| JBool (b : bool)
| JNumber (x : JsNumber)
| JString (s : jsstring)
| JArray (items : list JSValue)
| JObject (members : list (jsstring * JSValue)).

Fixpoint jsstring_eqb (a b : jsstring) : bool :=
  match a, b with
  | [], [] => true
  | x :: a', y :: b' => (x =? y) && jsstring_eqb a' b'
  | _, _ => false
  end.

Fixpoint assoc {V : Type} (k : jsstring) (l : list (jsstring * V)) : option V :=
  match l with
  | [] => None
  | (k', v) :: r => if jsstring_eqb k k' then Some v else assoc k r
  end.

(** [parsed?.key]: [undefined] on [null], on primitives and on a missing
    member. *)
Definition get_property (v : JSValue) (key : jsstring) : option JSValue :=
  match v with
  | JObject members => assoc key members
  | _ => None
  end.

(** [typeof x === number], with the number. *)
Definition as_number (x : option JSValue) : option JsNumber :=
  match x with
  | Some (JNumber n) => Some n
  | _ => None
  end.

Record SerialPortFilter := {
  usbVendorId : JsNumber;
  usbProductId : JsNumber
}.

(** The object literal [{ usbVendorId: ..., usbProductId: ... }]. *)
Definition filter_object (f : SerialPortFilter) : JSValue :=
  JObject [(lit "usbVendorId", JNumber (usbVendorId f));
           (lit "usbProductId", JNumber (usbProductId f))].

(** What [port.getInfo()] returns; a missing member is [None]. *)
Record PortInfo := {
  info_usbVendorId : option N;
  info_usbProductId : option N
}.

(** A [SerialPort] object: its identity and its immutable information. *)
Record SerialPort := {
  handle : nat;
  getInfo : PortInfo
}.

(** [info?.usbVendorId === n] for a number [n] of a filter. *)
Definition strict_eq (i : option N) (n : JsNumber) : bool :=
  match i, n with
  | Some a, JsInt z => Z.eqb (Z.of_N a) z
  | _, _ => false
  end.

(** The functions of the host that the store goes through and that are not
    part of the repository.  [JSON.parse] and [decodeURIComponent] may throw.
    [encodeURIComponent] throws on a lone surrogate only, which the output of
    [JSON.stringify] never holds, so on the one place of use it is total. *)
Class Platform := {
  JSON_parse : jsstring -> Completion JSValue;
  JSON_stringify : JSValue -> jsstring;
  encodeURIComponent : jsstring -> jsstring;
  decodeURIComponent : jsstring -> Completion jsstring
}.

Definition BAUD : N := 115200.
Definition SERIAL_FILTER_COOKIE : jsstring := lit "triageid_serial_filter".
Definition COOKIE_MAX_AGE_DAYS : Z := 365.

(** ** The cookies of the document *)

(** The cookies the document sees, as name and value, in the order in which
    the getter of [document.cookie] lists them.  All of them live on the
    path the store uses. *)
Definition CookieJar := list (jsstring * jsstring).

Definition cookie_pair (c : jsstring * jsstring) : jsstring :=
  fst c ++ lit "=" ++ snd c.

(** The getter of [document.cookie]. *)
Fixpoint document_cookie (jar : CookieJar) : jsstring :=
  match jar with
  | [] => []
  | c :: rest =>
      match rest with
      | [] => cookie_pair c
      | _ :: _ => cookie_pair c ++ lit "; " ++ document_cookie rest
      end
  end.

Definition jar_remove (name : jsstring) (jar : CookieJar) : CookieJar :=
  filter (fun c => negb (jsstring_eqb name (fst c))) jar.

Fixpoint jar_put (name value : jsstring) (jar : CookieJar) : CookieJar :=
  match jar with
  | [] => [(name, value)]
  | (n, v) :: rest =>
      if jsstring_eqb name n then (n, value) :: rest
      else (n, v) :: jar_put name value rest
  end.

(** The setter of [document.cookie], given the name, the value and the
    [max-age] attribute of the assigned string: a cookie whose age is used
    up is removed, any other replaces the cookie of its name. *)
Definition document_cookie_set (name value : jsstring) (maxAge : Z)
  (jar : CookieJar) : CookieJar :=
  if (maxAge <=? 0)%Z then jar_remove name jar else jar_put name value jar.

(** What a browser accepts as a cookie: no semicolon in name or value, no
    equals sign in the name, no white space in front of the name. *)
Definition cookie_ok (c : jsstring * jsstring) : bool :=
  forallb (fun x => negb (x =? 59) && negb (x =? 61)) (fst c)
  && match fst c with
     | x :: _ => negb (isWhiteSpace x)
     | [] => true
     end
  && forallb (fun x => negb (x =? 59)) (snd c).

Definition jar_ok (jar : CookieJar) : bool := forallb cookie_ok jar.

(** The pattern built in [getSerialFilterFromCookie]: the start of the
    string or a semicolon and a space, any run of white space, the cookie
    name, an equals sign, and the captured run without semicolon. *)
Fixpoint until_semicolon (s : jsstring) : jsstring :=
  match s with
  | [] => []
  | c :: r => if c =? 59 then [] else c :: until_semicolon r
  end.

Definition cookie_value_at (s : jsstring) : option jsstring :=
  match strip_prefix (SERIAL_FILTER_COOKIE ++ lit "=") (trimStart s) with
  | Some r => Some (until_semicolon r)
  | None => None
  end.

Definition cookie_match_here (at_start : bool) (s : jsstring) : option jsstring :=
  match (if at_start then cookie_value_at s else None) with
  | Some v => Some v
  | None =>
      match strip_prefix (lit "; ") s with
      | Some r => cookie_value_at r
      | None => None
      end
  end.

(** [document.cookie.match(...)], reduced to its capture group. *)
Fixpoint cookie_match (at_start : bool) (s : jsstring) : option jsstring :=
  match cookie_match_here at_start s with
  | Some v => Some v
  | None =>
      match s with
      | [] => None
      | _ :: r => cookie_match false r
      end
  end.

(** What follows a cookie in [document.cookie]: nothing, or a semicolon, a
    space and the other cookies. *)
Definition cookie_tail (rest : option jsstring) : jsstring :=
  match rest with
  | None => []
  | Some r => lit "; " ++ r
  end.

(** What the search finds from the inside of a cookie on: the value of the
    next cookie if that one has the name, else what it finds from there. *)
Definition cookie_match_tail (rest : option jsstring) : option jsstring :=
  match rest with
  | None => None
  | Some r =>
      match cookie_value_at r with
      | Some v => Some v
      | None => cookie_match false r
      end
  end.

(** ** The state of the provider and of its surroundings *)

Definition Reader := nat.
Definition Writer := nat.

(** A read loop suspended on [await reader.read()], with its local
    [readBuffer]. *)
Record ReadLoop := {
  reader : Reader;
  readBuffer : jsstring
}.

(** The calls the session manager makes on the serial API of the host. *)
Inductive HostCall :=
| CallRequestPort (filters : option SerialPortFilter)
| CallGetPorts
| CallOpen (port : nat) (baudRate : N)
| CallCancel (r : Reader)
| CallReleaseLock (r : Reader)
| CallWrite (writer : Writer) (data : Uint8Array)
| CallCloseWriter (writer : Writer)
| CallClosePort (port : nat).

Record World := mkWorld {
  (* useState *)
  isSupported : bool;
  isConnected : bool;
  isReconnecting : bool;
  error : option jsstring;
  (* useRef *)
  onTagReadRef : option Consumer;
  portRef : option SerialPort;
  readerRef : option Reader;
  writerRef : option Writer;
  abortRef : bool;
  (* the host *)
  navigator_serial : bool;
  document : option CookieJar;
  opened : list (nat * N);
  loops : list ReadLoop;
  written : list (Writer * Uint8Array);
  calls : list TagCall;
  next_reader : Reader;
  host_calls : list HostCall
}.

(** Assignments to one field. *)
Definition set_isSupported (x : bool) (w : World) : World :=
  mkWorld x (isConnected w) (isReconnecting w) (error w) (onTagReadRef w)
    (portRef w) (readerRef w) (writerRef w) (abortRef w) (navigator_serial
    w) (document w) (opened w) (loops w) (written w) (calls w) (next_reader
    w) (host_calls w).
Definition set_isConnected (x : bool) (w : World) : World :=
  mkWorld (isSupported w) x (isReconnecting w) (error w) (onTagReadRef w)
    (portRef w) (readerRef w) (writerRef w) (abortRef w) (navigator_serial
    w) (document w) (opened w) (loops w) (written w) (calls w) (next_reader
    w) (host_calls w).
Definition set_isReconnecting (x : bool) (w : World) : World :=
  mkWorld (isSupported w) (isConnected w) x (error w) (onTagReadRef w)
    (portRef w) (readerRef w) (writerRef w) (abortRef w) (navigator_serial
    w) (document w) (opened w) (loops w) (written w) (calls w) (next_reader
    w) (host_calls w).
Definition set_error (x : option jsstring) (w : World) : World :=
  mkWorld (isSupported w) (isConnected w) (isReconnecting w) x (onTagReadRef
    w) (portRef w) (readerRef w) (writerRef w) (abortRef w)
    (navigator_serial w) (document w) (opened w) (loops w) (written w)
    (calls w) (next_reader w) (host_calls w).
Definition set_onTagReadRef (x : option Consumer) (w : World) : World :=
  mkWorld (isSupported w) (isConnected w) (isReconnecting w) (error w) x
    (portRef w) (readerRef w) (writerRef w) (abortRef w) (navigator_serial
    w) (document w) (opened w) (loops w) (written w) (calls w) (next_reader
    w) (host_calls w).
Definition set_portRef (x : option SerialPort) (w : World) : World :=
  mkWorld (isSupported w) (isConnected w) (isReconnecting w) (error w)
    (onTagReadRef w) x (readerRef w) (writerRef w) (abortRef w)
    (navigator_serial w) (document w) (opened w) (loops w) (written w)
    (calls w) (next_reader w) (host_calls w).
Definition set_readerRef (x : option Reader) (w : World) : World :=
  mkWorld (isSupported w) (isConnected w) (isReconnecting w) (error w)
    (onTagReadRef w) (portRef w) x (writerRef w) (abortRef w)
    (navigator_serial w) (document w) (opened w) (loops w) (written w)
    (calls w) (next_reader w) (host_calls w).
Definition set_writerRef (x : option Writer) (w : World) : World :=
  mkWorld (isSupported w) (isConnected w) (isReconnecting w) (error w)
    (onTagReadRef w) (portRef w) (readerRef w) x (abortRef w)
    (navigator_serial w) (document w) (opened w) (loops w) (written w)
    (calls w) (next_reader w) (host_calls w).
Definition set_abortRef (x : bool) (w : World) : World :=
  mkWorld (isSupported w) (isConnected w) (isReconnecting w) (error w)
    (onTagReadRef w) (portRef w) (readerRef w) (writerRef w) x
    (navigator_serial w) (document w) (opened w) (loops w) (written w)
    (calls w) (next_reader w) (host_calls w).
Definition set_navigator_serial (x : bool) (w : World) : World :=
  mkWorld (isSupported w) (isConnected w) (isReconnecting w) (error w)
    (onTagReadRef w) (portRef w) (readerRef w) (writerRef w) (abortRef w) x
    (document w) (opened w) (loops w) (written w) (calls w) (next_reader w)
    (host_calls w).
Definition set_document (x : option CookieJar) (w : World) : World :=
  mkWorld (isSupported w) (isConnected w) (isReconnecting w) (error w)
    (onTagReadRef w) (portRef w) (readerRef w) (writerRef w) (abortRef w)
    (navigator_serial w) x (opened w) (loops w) (written w) (calls w)
    (next_reader w) (host_calls w).
Definition set_opened (x : list (nat * N)) (w : World) : World :=
  mkWorld (isSupported w) (isConnected w) (isReconnecting w) (error w)
    (onTagReadRef w) (portRef w) (readerRef w) (writerRef w) (abortRef w)
    (navigator_serial w) (document w) x (loops w) (written w) (calls w)
    (next_reader w) (host_calls w).
Definition set_loops (x : list ReadLoop) (w : World) : World :=
  mkWorld (isSupported w) (isConnected w) (isReconnecting w) (error w)
    (onTagReadRef w) (portRef w) (readerRef w) (writerRef w) (abortRef w)
    (navigator_serial w) (document w) (opened w) x (written w) (calls w)
    (next_reader w) (host_calls w).
Definition set_written (x : list (Writer * Uint8Array)) (w : World) : World :=
  mkWorld (isSupported w) (isConnected w) (isReconnecting w) (error w)
    (onTagReadRef w) (portRef w) (readerRef w) (writerRef w) (abortRef w)
    (navigator_serial w) (document w) (opened w) (loops w) x (calls w)
    (next_reader w) (host_calls w).
Definition set_calls (x : list TagCall) (w : World) : World :=
  mkWorld (isSupported w) (isConnected w) (isReconnecting w) (error w)
    (onTagReadRef w) (portRef w) (readerRef w) (writerRef w) (abortRef w)
    (navigator_serial w) (document w) (opened w) (loops w) (written w) x
    (next_reader w) (host_calls w).
Definition set_next_reader (x : Reader) (w : World) : World :=
  mkWorld (isSupported w) (isConnected w) (isReconnecting w) (error w)
    (onTagReadRef w) (portRef w) (readerRef w) (writerRef w) (abortRef w)
    (navigator_serial w) (document w) (opened w) (loops w) (written w)
    (calls w) x (host_calls w).
Definition set_host_calls (x : list HostCall) (w : World) : World :=
  mkWorld (isSupported w) (isConnected w) (isReconnecting w) (error w)
    (onTagReadRef w) (portRef w) (readerRef w) (writerRef w) (abortRef w)
    (navigator_serial w) (document w) (opened w) (loops w) (written w)
    (calls w) (next_reader w) x.

(** The state before anything has run: the initial values of [useState] and
    [useRef], a host with or without Web Serial, and a document. *)
Definition initial_world (serial : bool) (doc : option CookieJar) : World :=
  mkWorld false false false None None None None None false
          serial doc [] [] [] [] 0%nat [].

(** ** A monad for state and exceptions *)

Definition M (A : Type) : Type := World -> World * Completion A.

Definition ret {A : Type} (a : A) : M A := fun w => (w, Normal a).

Definition throw {A : Type} (e : JsError) : M A := fun w => (w, Throw e).

Definition bind {A B : Type} (m : M A) (k : A -> M B) : M B :=
  fun w =>
    match m w with
    | (w', Normal a) => k a w'
    | (w', Throw e) => (w', Throw e)
    end.

Definition get : M World := fun w => (w, Normal w).

Definition modify (f : World -> World) : M unit := fun w => (f w, Normal tt).

(** The value of a call of the host, or of an awaited promise. *)
Definition lift {A : Type} (c : Completion A) : M A := fun w => (w, c).

(** [try { body } catch (e) { handler }] *)
Definition try_catch {A : Type} (body : M A) (handler : JsError -> M A) : M A :=
  fun w =>
    match body w with
    | (w', Throw e) => handler e w'
    | r => r
    end.

(** [try { body } finally { fin }], and [promise.finally(fin)]. *)
Definition try_finally {A : Type} (body : M A) (fin : M unit) : M A :=
  fun w =>
    match body w with
    | (w', r) =>
        match fin w' with
        | (w'', Normal _) => (w'', r)
        | (w'', Throw e) => (w'', Throw e)
        end
    end.

Declare Scope monad_scope.
Delimit Scope monad_scope with monad.
Notation "x <- m ;; k" := (bind m (fun x => k))
  (at level 61, m at next level, right associativity) : monad_scope.
Notation "m ;; k" := (bind m (fun _ => k))
  (at level 61, right associativity) : monad_scope.
Local Open Scope monad_scope.

(** The state an operation leaves, and how it completes. *)
Definition state_after {A : Type} (m : M A) (w : World) : World := fst (m w).
Definition completion {A : Type} (m : M A) (w : World) : Completion A := snd (m w).

(** ** The host calls of the session manager

    Each call that the source awaits takes the settlement of its promise as
    an argument. *)

Definition is_open (h : nat) (ports : list (nat * N)) : bool :=
  existsb (fun p => Nat.eqb (fst p) h) ports.

Definition close_port (h : nat) (ports : list (nat * N)) : list (nat * N) :=
  filter (fun p => negb (Nat.eqb (fst p) h)) ports.

(** The rejection of [open()] on a port that is open already. *)
Definition InvalidStateError : JsError :=
  {| instanceof_Error := true; message := lit "The port is already open." |}.

(** Every call on the host is recorded. *)
Definition host_call (c : HostCall) : M unit :=
  modify (fun w => set_host_calls (host_calls w ++ [c]) w).

(** [await port.open({ baudRate })] *)
Definition port_open (port : SerialPort) (baudRate : N) (settled : Completion unit)
  : M unit :=
  host_call (CallOpen (handle port) baudRate) ;;
  w <- get ;;
  if is_open (handle port) (opened w) then throw InvalidStateError
  else
    match settled with
    | Normal _ => modify (set_opened ((handle port, baudRate) :: opened w))
    | Throw e => throw e
    end.

(** [await port.close()] *)
Definition port_close (port : SerialPort) (settled : Completion unit) : M unit :=
  host_call (CallClosePort (handle port)) ;;
  match settled with
  | Normal _ => modify (fun w => set_opened (close_port (handle port) (opened w)) w)
  | Throw e => throw e
  end.

(** [port.readable.getReader()] on a port that has just been opened. *)
Definition getReader : M Reader :=
  w <- get ;;
  modify (set_next_reader (S (next_reader w))) ;;
  ret (next_reader w).

(** [await writer.write(data)] *)
Definition writer_write (writer : Writer) (data : Uint8Array)
  (settled : Completion unit) : M unit :=
  host_call (CallWrite writer data) ;;
  match settled with
  | Normal _ => modify (fun w => set_written (written w ++ [(writer, data)]) w)
  | Throw e => throw e
  end.

Definition find_loop (r : Reader) (l : list ReadLoop) : option ReadLoop :=
  find (fun x => Nat.eqb (reader x) r) l.

Definition remove_loop (r : Reader) (l : list ReadLoop) : list ReadLoop :=
  filter (fun x => negb (Nat.eqb (reader x) r)) l.

Definition put_loop (x : ReadLoop) (l : list ReadLoop) : list ReadLoop :=
  x :: remove_loop (reader x) l.

(** What [reader.read()] resolves to: [{ value, done }]. *)
Inductive ReadResult :=
| Chunk (value : Uint8Array)
| Done.

(** [navigator.serial.requestPort(options)]; the filter narrows what the
    chooser offers, the user settles the promise. *)
Definition requestPort (filters : option SerialPortFilter)
  (picked : Completion SerialPort) : M SerialPort :=
  host_call (CallRequestPort filters) ;; lift picked.

(** [await reader.cancel()], [reader.releaseLock()], [await writer.close()] *)
Definition reader_cancel (r : Reader) (settled : Completion unit) : M unit :=
  host_call (CallCancel r) ;; lift settled.

Definition releaseLock (r : Reader) : M unit := host_call (CallReleaseLock r).

Definition writer_close (writer : Writer) (settled : Completion unit) : M unit :=
  host_call (CallCloseWriter writer) ;; lift settled.

(** The value the document holds under the name of the store. *)
Definition stored (w : World) : option jsstring :=
  match document w with
  | Some jar => assoc SERIAL_FILTER_COOKIE jar
  | None => None
  end.

(** The cookies of the document, if there is a document, are such as a
    browser accepts. *)
Definition document_ok (w : World) : Prop :=
  match document w with
  | Some jar => jar_ok jar = true
  | None => True
  end.

(** The references and the host agree: either a port is held, it is the one
    open port, its writer is held and the provider shows a connection, or no
    port is held, none is open, no writer is held and the provider shows no
    connection. *)
Definition coherent (w : World) : Prop :=
  match portRef w with
  | Some port =>
      isConnected w = true
      /\ writerRef w = Some (handle port)
      /\ opened w = [(handle port, BAUD)]
  | None => isConnected w = false /\ writerRef w = None /\ opened w = []
  end.

(** A writer is held only while the provider shows a connection. *)
Definition send_guarded (w : World) : Prop :=
  isConnected w = false -> writerRef w = None.

(** The ways in which the attempt of [connect] throws [e]: the chooser is
    dismissed, or the chosen port does not open. *)
Definition connect_fails (w : World) (picked : Completion SerialPort)
  (settled : Completion unit) (e : JsError) : Prop :=
  picked = Throw e
  \/ exists port,
       picked = Normal port
       /\ ((is_open (handle port) (opened w) = false /\ settled = Throw e)
           \/ (is_open (handle port) (opened w) = true /\ e = InvalidStateError)).

(** The string that [send] encodes: [text] if it ends with a line feed, else
    [text] and a line feed. *)
Definition send_text (text : jsstring) : jsstring :=
  if endsWith1 text LF then text else text ++ [LF].

Section Provider.

Context `{Platform}.

(** ** The persisted device filter store *)

Definition getSerialFilterFromCookie : M (option SerialPortFilter) :=
  w <- get ;;
  match document w with
  | None => ret None
  | Some jar =>
      match cookie_match true (document_cookie jar) with
      | None => ret None
      | Some m1 =>
          try_catch
            (decoded <- lift (decodeURIComponent m1) ;;
             parsed <- lift (JSON_parse decoded) ;;
             match as_number (get_property parsed (lit "usbVendorId")),
                   as_number (get_property parsed (lit "usbProductId")) with
             | Some v, Some p => ret (Some {| usbVendorId := v; usbProductId := p |})
             | _, _ => ret None
             end)
            (fun _ => ret None)
      end
  end.

Definition setSerialFilterCookie (filter : SerialPortFilter) : M unit :=
  w <- get ;;
  match document w with
  | None => ret tt
  | Some jar =>
      let value := encodeURIComponent (JSON_stringify (filter_object filter)) in
      let maxAge := (COOKIE_MAX_AGE_DAYS * 24 * 60 * 60)%Z in
      modify (set_document
                (Some (document_cookie_set SERIAL_FILTER_COOKIE value maxAge jar)))
  end.

Definition clearSerialFilterCookie : M unit :=
  w <- get ;;
  match document w with
  | None => ret tt
  | Some jar =>
      modify (set_document (Some (document_cookie_set SERIAL_FILTER_COOKIE [] 0 jar)))
  end.

(** What the [try] block of [getSerialFilterFromCookie] makes of the captured
    value: the filter it returns, or [None] where it falls through to
    [return null]. *)
Definition read_filter (value : jsstring) : option SerialPortFilter :=
  match decodeURIComponent value with
  | Throw _ => None
  | Normal decoded =>
      match JSON_parse decoded with
      | Throw _ => None
      | Normal parsed =>
          match as_number (get_property parsed (lit "usbVendorId")),
                as_number (get_property parsed (lit "usbProductId")) with
          | Some v, Some p => Some {| usbVendorId := v; usbProductId := p |}
          | _, _ => None
          end
      end
  end.

(** ** The session manager *)

Definition setOnTagRead (callback : option Consumer) : M unit :=
  modify (set_onTagReadRef callback).

(** The first effect: [setIsSupported(... serial in navigator)]. *)
Definition support_effect : M unit :=
  w <- get ;; modify (set_isSupported (navigator_serial w)).

(** The [finally] block of the read loop. *)
Definition readLoop_finally (r : Reader) : M unit :=
  releaseLock r ;;
  modify (fun w => set_loops (remove_loop r (loops w)) w) ;;
  modify (set_readerRef None).

(** The head of the loop: leave on the abort flag, else wait for a read. *)
Definition readLoop_next (r : Reader) (buffer : jsstring) : M unit :=
  w <- get ;;
  if abortRef w then readLoop_finally r
  else modify (set_loops (put_loop {| reader := r; readBuffer := buffer |} (loops w))).

(** The loop of reader [r] when its pending read settles. *)
Definition readLoop (r : Reader) (settled : Completion ReadResult) : M unit :=
  w <- get ;;
  match find_loop r (loops w) with
  | None => ret tt
  | Some l =>
      match settled with
      | Throw e =>
          (if abortRef w then ret tt
           else modify (set_error (Some (error_text e (lit "Serial read error"))))) ;;
          readLoop_finally r
      | Normal Done => readLoop_finally r
      | Normal (Chunk value) =>
          let (lines, buffer) := feed (readBuffer l) value in
          modify (set_calls
                    (calls w ++ flat_map (dispatch (onTagReadRef w)) (complete_lines lines))) ;;
          readLoop_next r buffer
      end
  end.

Definition openPortAndRead (port : SerialPort) : M unit :=
  modify (set_portRef (Some port)) ;;
  modify (set_writerRef (Some (handle port))) ;;
  r <- getReader ;;
  modify (set_readerRef (Some r)) ;;
  modify (set_isConnected true) ;;
  modify (set_error None) ;;
  match info_usbVendorId (getInfo port), info_usbProductId (getInfo port) with
  | Some v, Some p =>
      setSerialFilterCookie {| usbVendorId := JsInt (Z.of_N v);
                               usbProductId := JsInt (Z.of_N p) |}
  | _, _ => ret tt
  end ;;
  readLoop_next r [].

(** [connect()]; [picked] settles [requestPort(...)] and [settled] settles
    [port.open(...)]. *)
Definition connect (picked : Completion SerialPort) (settled : Completion unit)
  : M unit :=
  w <- get ;;
  if negb (navigator_serial w) then
    modify (set_error (Some (lit "Web Serial not supported. Use Chrome or Edge.")))
  else
    modify (set_error None) ;;
    modify (set_abortRef false) ;;
    savedFilter <- getSerialFilterFromCookie ;;
    try_catch
      (port <- requestPort savedFilter picked ;;
       port_open port BAUD settled ;;
       openPortAndRead port)
      (fun e =>
         clearSerialFilterCookie ;;
         modify (set_error (Some (error_text e (lit "Connection failed")))) ;;
         modify (set_isConnected false)).

(** [send(text)]; [settled] settles [writer.write(data)]. *)
Definition send (text : jsstring) (settled : Completion unit) : M unit :=
  w <- get ;;
  match writerRef w with
  | None => ret tt
  | Some writer =>
      let data := TextEncoder_encode (send_text text) in
      writer_write writer data settled
  end.

(** [disconnect()]; the three arguments settle [reader.cancel()],
    [writer.close()] and [port.close()]. *)
Definition disconnect (cancelled closed_writer closed_port : Completion unit)
  : M unit :=
  modify (set_abortRef true) ;;
  w1 <- get ;;
  match readerRef w1 with
  | Some r =>
      try_catch (reader_cancel r cancelled) (fun _ => ret tt) ;;
      modify (set_readerRef None)
  | None => ret tt
  end ;;
  w2 <- get ;;
  match writerRef w2 with
  | Some writer =>
      try_catch (writer_close writer closed_writer) (fun _ => ret tt) ;;
      modify (set_writerRef None)
  | None => ret tt
  end ;;
  w3 <- get ;;
  match portRef w3 with
  | Some port =>
      try_catch (port_close port closed_port) (fun _ => ret tt) ;;
      modify (set_portRef None)
  | None => ret tt
  end ;;
  modify (set_isConnected false) ;;
  modify (set_error None).

(** The loop over [ports] in the reconnect effect: the first port whose
    information equals the saved filter. *)
Fixpoint matching_port (savedFilter : SerialPortFilter) (ports : list SerialPort)
  : option SerialPort :=
  match ports with
  | [] => None
  | port :: rest =>
      if strict_eq (info_usbVendorId (getInfo port)) (usbVendorId savedFilter)
         && strict_eq (info_usbProductId (getInfo port)) (usbProductId savedFilter)
      then Some port
      else matching_port savedFilter rest
  end.

(** When the cleanup of the reconnect effect runs, if it does while the
    effect is under way. *)
Inductive Cleanup :=
| Mounted
| UnmountedBeforePorts
| UnmountedBeforeOpen.

(** The cleanup itself: [cancelled = true; setIsReconnecting(false)]. *)
Definition reconnect_cleanup : M unit := modify (set_isReconnecting false).

(** The reconnect effect; [listed] settles [getPorts()] and [settled] settles
    [port.open(...)]. *)
Definition reconnect (listed : Completion (list SerialPort))
  (settled : Completion unit) (cleanup : Cleanup) : M unit :=
  w <- get ;;
  if negb (navigator_serial w) then ret tt
  else
    savedFilter <- getSerialFilterFromCookie ;;
    match savedFilter with
    | None => ret tt
    | Some f =>
        modify (set_isReconnecting true) ;;
        host_call CallGetPorts ;;
        match cleanup with
        | UnmountedBeforePorts =>
            reconnect_cleanup ;;
            try_catch (ports <- lift listed ;; ret tt)
                      (fun _ => modify (set_isReconnecting false))
        | _ =>
            try_catch
              (ports <- lift listed ;;
               match matching_port f ports with
               | Some port =>
                   match cleanup with
                   | Mounted =>
                       try_finally
                         (try_catch
                            (port_open port BAUD settled ;;
                             modify (set_abortRef false) ;;
                             openPortAndRead port)
                            (fun _ => clearSerialFilterCookie))
                         (modify (set_isReconnecting false))
                   | _ =>
                       reconnect_cleanup ;;
                       try_finally
                         (try_catch (port_open port BAUD settled)
                                    (fun _ => clearSerialFilterCookie))
                         (ret tt)
                   end
               | None => modify (set_isReconnecting false)
               end)
              (fun _ => modify (set_isReconnecting false))
        end
    end.

(** ** The context value *)

Record SerialContextValue := {
  ctx_isSupported : bool;
  ctx_isConnected : bool;
  ctx_isReconnecting : bool;
  ctx_error : option jsstring;
  ctx_connect : Completion SerialPort -> Completion unit -> M unit;
  ctx_disconnect : Completion unit -> Completion unit -> Completion unit -> M unit;
  ctx_send : jsstring -> Completion unit -> M unit;
  ctx_setOnTagRead : option Consumer -> M unit
}.

(** The [value] the provider hands to its children. *)
Definition provider_value (w : World) : SerialContextValue :=
  {| ctx_isSupported := isSupported w;
     ctx_isConnected := isConnected w;
     ctx_isReconnecting := isReconnecting w;
     ctx_error := error w;
     ctx_connect := connect;
     ctx_disconnect := disconnect;
     ctx_send := send;
     ctx_setOnTagRead := setOnTagRead |}.

(** [useSerialContext()]; [ctx] is what [useContext(SerialContext)] returns,
    [None] outside of a provider. *)
Definition useSerialContext (ctx : option SerialContextValue)
  : Completion SerialContextValue :=
  match ctx with
  | None =>
      Normal {| ctx_isSupported := false;
                ctx_isConnected := false;
                ctx_isReconnecting := false;
                ctx_error := None;
                ctx_connect := fun _ _ => ret tt;
                ctx_disconnect := fun _ _ _ => ret tt;
                ctx_send := fun _ _ => ret tt;
                ctx_setOnTagRead := fun _ => ret tt |}
  | Some c => Normal c
  end.

(** ** Histories of the provider

    A history is a list of operations, each run in one step with the
    settlements of its promises: a schedule in which every call has
    settled before the next begins.  The schedules in which calls
    interleave come with the operations cut at their [await]s. *)

Inductive Op :=
| OpConnect (picked : Completion SerialPort) (settled : Completion unit)
| OpDisconnect (cancelled closed_writer closed_port : Completion unit)
| OpSend (text : jsstring) (settled : Completion unit)
| OpRead (r : Reader) (settled : Completion ReadResult)
| OpSetOnTagRead (callback : option Consumer).

Definition perform (op : Op) : M unit :=
  match op with
  | OpConnect picked settled => connect picked settled
  | OpDisconnect c1 c2 c3 => disconnect c1 c2 c3
  | OpSend text settled => send text settled
  | OpRead r settled => readLoop r settled
  | OpSetOnTagRead callback => setOnTagRead callback
  end.

Fixpoint run (ops : list Op) (w : World) : World :=
  match ops with
  | [] => w
  | op :: rest => run rest (state_after (perform op) w)
  end.

(** The two effects that run when the provider mounts. *)
Definition mount (listed : Completion (list SerialPort))
  (settled : Completion unit) : M unit :=
  support_effect ;; reconnect listed settled Mounted.

(** Along a history, [connect] is called while the provider shows no
    connection.  (A history has no call that begins while another is under
    way; see [disciplined] for the schedules that have.) *)
Fixpoint gated (ops : list Op) (w : World) : Prop :=
  match ops with
  | [] => True
  | op :: rest =>
      match op with
      | OpConnect _ _ => isConnected w = false
      | _ => True
      end
      /\ gated rest (state_after (perform op) w)
  end.

(** The host closes the port that [disconnect] asks it to close. *)
Fixpoint closing (ops : list Op) (w : World) : Prop :=
  match ops with
  | [] => True
  | op :: rest =>
      match op with
      | OpDisconnect _ _ closed_port => portRef w = None \/ closed_port = Normal tt
      | _ => True
      end
      /\ closing rest (state_after (perform op) w)
  end.

(** The identity a port reports, if it reports one. *)
Definition identity (port : SerialPort) : option SerialPortFilter :=
  match info_usbVendorId (getInfo port), info_usbProductId (getInfo port) with
  | Some v, Some p =>
      Some {| usbVendorId := JsInt (Z.of_N v); usbProductId := JsInt (Z.of_N p) |}
  | _, _ => None
  end.


(** The host reads back the filter that the store writes: the encoded value
    holds no semicolon, decodes to the JSON text, and that text parses to an
    object with the two numbers. *)
Definition round_trips (f : SerialPortFilter) : Prop :=
  let text := JSON_stringify (filter_object f) in
  forallb (fun x => negb (x =? 59)) (encodeURIComponent text) = true
  /\ decodeURIComponent (encodeURIComponent text) = Normal text
  /\ exists parsed,
       JSON_parse text = Normal parsed
       /\ as_number (get_property parsed (lit "usbVendorId")) = Some (usbVendorId f)
       /\ as_number (get_property parsed (lit "usbProductId")) = Some (usbProductId f).

(** The identity the store holds: what [getSerialFilterFromCookie] returns. *)
Definition persisted (w : World) : Completion (option SerialPortFilter) :=
  completion getSerialFilterFromCookie w.

(** The [savedFilter] of [connect] and of the reconnect effect. *)
Definition saved (w : World) : option SerialPortFilter :=
  match persisted w with
  | Normal r => r
  | Throw _ => None
  end.

(** The calls of the attempt of [connect]: the chooser, then [open] on the
    port it yields. *)
Definition attempt_calls (savedFilter : option SerialPortFilter)
  (picked : Completion SerialPort) : list HostCall :=
  CallRequestPort savedFilter
  :: match picked with
     | Normal port => [CallOpen (handle port) BAUD]
     | Throw _ => []
     end.

(** The calls of [disconnect]: on the reader, the writer and the port it
    holds, in this order. *)
Definition disconnect_calls (w : World) : list HostCall :=
  match readerRef w with Some r => [CallCancel r] | None => [] end
  ++ match writerRef w with Some writer => [CallCloseWriter writer] | None => [] end
  ++ match portRef w with Some port => [CallClosePort (handle port)] | None => [] end.

End Provider.

(** ** The two line shapes, as the design document words them *)

(** [t] holds [User ID:], white space, and [value] between double quotes. *)
Definition menu_line (t value : jsstring) : Prop :=
  exists before ws after,
    t = before ++ lit "User ID:" ++ ws ++ [DQUOTE] ++ value ++ [DQUOTE] ++ after
    /\ forallb isWhiteSpace ws = true
    /\ forallb (fun c => negb (c =? DQUOTE)) value = true.

(** [t] is [OK|READ|] and a [value] of at least one character, on one line. *)
Definition command_line (t value : jsstring) : Prop :=
  t = lit "OK|READ|" ++ value
  /\ value <> []
  /\ forallb (fun c => negb (isLineTerminator c)) value = true.

(** ** A small host

    An instance of [Platform] that can be run: its four functions work on
    the fragment the store writes (ASCII text, objects of integers), and
    throw outside of it.  It serves where a statement is evaluated on a
    concrete history. *)
Module ReferenceHost.

Definition URIError : JsError :=
  {| instanceof_Error := true; message := lit "URI malformed" |}.

Definition SyntaxError : JsError :=
  {| instanceof_Error := true; message := lit "Unexpected token in JSON" |}.

Definition is_digit (c : N) : bool := (48 <=? c) && (c <=? 57).

Fixpoint decimal_digits (fuel : nat) (n : N) (acc : jsstring) : jsstring :=
  match fuel with
  | O => acc
  | S fuel' =>
      let acc' := (48 + n mod 10) :: acc in
      if n <? 10 then acc' else decimal_digits fuel' (n / 10) acc'
  end.

Definition decimal (n : N) : jsstring :=
  decimal_digits (S (N.to_nat (N.log2 n))) n [].

Definition number_text (x : JsNumber) : jsstring :=
  match x with
  | JsInt (Z.neg p) => lit "-" ++ decimal (Npos p)
  | JsInt z => decimal (Z.to_N z)
  | JsNonInt _ => lit "null"
  end.

Definition member_text (m : jsstring * JSValue) : jsstring :=
  [DQUOTE] ++ fst m ++ [DQUOTE] ++ lit ":"
  ++ match snd m with
     | JNumber x => number_text x
     | _ => lit "null"
     end.

Fixpoint members_text (ms : list (jsstring * JSValue)) : jsstring :=
  match ms with
  | [] => []
  | m :: rest =>
      match rest with
      | [] => member_text m
      | _ :: _ => member_text m ++ lit "," ++ members_text rest
      end
  end.

Definition stringify (v : JSValue) : jsstring :=
  match v with
  | JObject ms => lit "{" ++ members_text ms ++ lit "}"
  | JNumber x => number_text x
  | _ => lit "null"
  end.

Fixpoint read_digits (s : jsstring) (acc : N) : N * jsstring :=
  match s with
  | c :: r => if is_digit c then read_digits r (10 * acc + (c - 48)) else (acc, s)
  | [] => (acc, [])
  end.

Definition read_number (s : jsstring) : option (JsNumber * jsstring) :=
  match s with
  | c :: r =>
      if is_digit c then
        let (n, rest) := read_digits s 0 in Some (JsInt (Z.of_N n), rest)
      else if c =? 45 then
        match r with
        | d :: _ =>
            if is_digit d then
              let (n, rest) := read_digits r 0 in Some (JsInt (- Z.of_N n), rest)
            else None
        | [] => None
        end
      else None
  | [] => None
  end.

Fixpoint read_members (fuel : nat) (s : jsstring)
  : option (list (jsstring * JSValue) * jsstring) :=
  match fuel with
  | O => None
  | S fuel' =>
      match s with
      | c :: r =>
          if c =? DQUOTE then
            match until_quote r with
            | Some (key, colon :: r1) =>
                if colon =? 58 then
                  match read_number r1 with
                  | Some (x, sep :: r2) =>
                      if sep =? 44 then
                        match read_members fuel' r2 with
                        | Some (ms, rest) => Some ((key, JNumber x) :: ms, rest)
                        | None => None
                        end
                      else if sep =? 125 then Some ([(key, JNumber x)], r2)
                      else None
                  | _ => None
                  end
                else None
            | _ => None
            end
          else None
      | [] => None
      end
  end.

Definition parse (s : jsstring) : Completion JSValue :=
  match s with
  | c :: r =>
      if c =? 123 then
        match read_members (List.length r) r with
        | Some (ms, []) => Normal (JObject ms)
        | _ => Throw SyntaxError
        end
      else Throw SyntaxError
  | [] => Throw SyntaxError
  end.

Definition unreserved (c : N) : bool :=
  ((65 <=? c) && (c <=? 90)) || ((97 <=? c) && (c <=? 122)) || is_digit c
  || (c =? 45) || (c =? 95) || (c =? 46) || (c =? 33) || (c =? 126)
  || (c =? 42) || (c =? 39) || (c =? 40) || (c =? 41).

Definition hex_digit (n : N) : N := if n <? 10 then 48 + n else 55 + n.

Definition percent (b : N) : jsstring :=
  [37; hex_digit (b / 16); hex_digit (b mod 16)].

Definition encode (s : jsstring) : jsstring :=
  flat_map (fun c => if unreserved c then [c] else flat_map percent (utf8_bytes c))
           (scalar_values s).

Definition hex_value (c : N) : option N :=
  if is_digit c then Some (c - 48)
  else if (65 <=? c) && (c <=? 70) then Some (c - 55)
  else if (97 <=? c) && (c <=? 102) then Some (c - 87)
  else None.

Fixpoint decode (s : jsstring) : Completion jsstring :=
  match s with
  | [] => Normal []
  | c :: r =>
      if c =? 37 then
        match r with
        | h1 :: h2 :: r' =>
            match hex_value h1, hex_value h2 with
            | Some a, Some b =>
                if 16 * a + b <? 128 then
                  match decode r' with
                  | Normal t => Normal ((16 * a + b) :: t)
                  | Throw e => Throw e
                  end
                else Throw URIError
            | _, _ => Throw URIError
            end
        | _ => Throw URIError
        end
      else
        match decode r with
        | Normal t => Normal (c :: t)
        | Throw e => Throw e
        end
  end.

(** Two readers of one make, a document with one cookie of its own, and
    the state in which the provider mounts on a host with Web Serial. *)
Definition reader_a : SerialPort :=
  {| handle := 1;
     getInfo := {| info_usbVendorId := Some 0x2341; info_usbProductId := Some 0x8036 |} |}.

Definition reader_b : SerialPort :=
  {| handle := 2;
     getInfo := {| info_usbVendorId := Some 0x2341; info_usbProductId := Some 0x8036 |} |}.

Definition theme_jar : CookieJar := [(lit "theme", lit "dark")].

Definition startup : World := initial_world true (Some theme_jar).

(** The cookie the store writes for these readers, and a cookie that does
    not decode. *)
Definition reader_filter : SerialPortFilter :=
  {| usbVendorId := JsInt 0x2341; usbProductId := JsInt 0x8036 |}.

Definition saved_jar : CookieJar :=
  theme_jar ++ [(SERIAL_FILTER_COOKIE, encode (stringify (filter_object reader_filter)))].

Definition broken_jar : CookieJar :=
  theme_jar ++ [(SERIAL_FILTER_COOKIE, lit "%7B%2")].

Definition NotFoundError : JsError :=
  {| instanceof_Error := true; message := lit "No port selected by the user." |}.

Definition NetworkError : JsError :=
  {| instanceof_Error := true; message := lit "Failed to open serial port." |}.

#[export] Instance host : Platform :=
  {| JSON_parse := parse;
     JSON_stringify := stringify;
     encodeURIComponent := encode;
     decodeURIComponent := decode |}.

End ReferenceHost.

(** ** The operations of the provider, await by await

    A call of an asynchronous function runs up to its first [await], and
    goes on when the awaited promise settles; between the two, other calls
    and other settlements take their turn.  The operations above run a call
    and its settlements in one step: they are the schedules in which nothing
    comes between (lemma [run_is_a_schedule]).  Here each function is cut at
    its [await]s. *)

(** Where a call is suspended. *)
Inductive Await :=
| AwaitGetPorts (savedFilter : SerialPortFilter)
| AwaitReopen (port : SerialPort) (refused : bool)
| AwaitRequestPort
| AwaitOpen (port : SerialPort) (refused : bool)
| AwaitCancel
| AwaitCloseWriter
| AwaitClosePort (port : SerialPort)
| AwaitWrite (writer : Writer) (data : Uint8Array).

(** The calls of [connect], of [disconnect] and of the reconnect effect,
    as against those of [send]. *)
Definition is_session (a : Await) : bool :=
  match a with
  | AwaitWrite _ _ => false
  | _ => true
  end.

(** [port] is being opened by a call that is under way. *)
Definition opening (port : SerialPort) (tasks : list Await) : bool :=
  existsb (fun a => match a with
                    | AwaitOpen p false | AwaitReopen p false =>
                        Nat.eqb (handle p) (handle port)
                    | _ => false
                    end) tasks.

(** [port.open({ baudRate })] is called: the host refuses a port that is not
    closed, and tells so when the promise settles. *)
Definition open_call (port : SerialPort) (tasks : list Await) : M bool :=
  host_call (CallOpen (handle port) BAUD) ;;
  w <- get ;;
  ret (is_open (handle port) (opened w) || opening port tasks).

(** The promise of [port.open(...)] settles. *)
Definition open_settled (port : SerialPort) (refused : bool)
  (settled : Completion unit) : M unit :=
  if refused then throw InvalidStateError
  else
    match settled with
    | Normal _ => modify (fun w => set_opened ((handle port, BAUD) :: opened w) w)
    | Throw e => throw e
    end.

(** [send(text)] up to [await writer.write(data)], and from there. *)
Definition send_call (text : jsstring) : M (option Await) :=
  w <- get ;;
  match writerRef w with
  | None => ret None
  | Some writer =>
      let data := TextEncoder_encode (send_text text) in
      host_call (CallWrite writer data) ;;
      ret (Some (AwaitWrite writer data))
  end.

Definition send_settled (writer : Writer) (data : Uint8Array)
  (settled : Completion unit) : M unit :=
  match settled with
  | Normal _ => modify (fun w => set_written (written w ++ [(writer, data)]) w)
  | Throw e => throw e
  end.

(** A caller that awaits [send] goes on when the write of [send] settles; a
    [send] that made no write has returned. *)
Definition send_resumed (write : option Await) (settled : Completion unit) : M unit :=
  match write with
  | Some (AwaitWrite writer data) => send_settled writer data settled
  | _ => ret tt
  end.

(** [disconnect()], cut at its three [await]s.  The rejection of an awaited
    promise is swallowed by the [try] around it. *)
Definition disconnect_end : M (option Await) :=
  modify (set_isConnected false) ;;
  modify (set_error None) ;;
  ret None.

Definition disconnect_from_port : M (option Await) :=
  w <- get ;;
  match portRef w with
  | Some port =>
      host_call (CallClosePort (handle port)) ;;
      ret (Some (AwaitClosePort port))
  | None => disconnect_end
  end.

Definition disconnect_from_writer : M (option Await) :=
  w <- get ;;
  match writerRef w with
  | Some writer =>
      host_call (CallCloseWriter writer) ;;
      ret (Some AwaitCloseWriter)
  | None => disconnect_from_port
  end.

Definition disconnect_call : M (option Await) :=
  modify (set_abortRef true) ;;
  w <- get ;;
  match readerRef w with
  | Some r =>
      host_call (CallCancel r) ;;
      ret (Some AwaitCancel)
  | None => disconnect_from_writer
  end.

Definition disconnect_cancelled : M (option Await) :=
  modify (set_readerRef None) ;; disconnect_from_writer.

Definition disconnect_writer_closed : M (option Await) :=
  modify (set_writerRef None) ;; disconnect_from_port.

Definition disconnect_port_closed (port : SerialPort) (settled : Completion unit)
  : M (option Await) :=
  match settled with
  | Normal _ => modify (fun w => set_opened (close_port (handle port) (opened w)) w)
  | Throw _ => ret tt
  end ;;
  modify (set_portRef None) ;;
  disconnect_end.

Section Schedules.

Context `{Platform}.

(** The [catch] block of [connect]. *)
Definition connect_catch (e : JsError) : M unit :=
  clearSerialFilterCookie ;;
  modify (set_error (Some (error_text e (lit "Connection failed")))) ;;
  modify (set_isConnected false).

(** [connect()] up to [await requestPort(...)], from there up to
    [await port.open(...)], and from there. *)
Definition connect_call : M (option Await) :=
  w <- get ;;
  if negb (navigator_serial w) then
    modify (set_error (Some (lit "Web Serial not supported. Use Chrome or Edge."))) ;;
    ret None
  else
    modify (set_error None) ;;
    modify (set_abortRef false) ;;
    savedFilter <- getSerialFilterFromCookie ;;
    host_call (CallRequestPort savedFilter) ;;
    ret (Some AwaitRequestPort).

Definition connect_chosen (tasks : list Await) (picked : Completion SerialPort)
  : M (option Await) :=
  match picked with
  | Normal port =>
      refused <- open_call port tasks ;;
      ret (Some (AwaitOpen port refused))
  | Throw e => connect_catch e ;; ret None
  end.

Definition connect_open_settled (port : SerialPort) (refused : bool)
  (settled : Completion unit) : M (option Await) :=
  try_catch (open_settled port refused settled ;; openPortAndRead port) connect_catch ;;
  ret None.

(** The reconnect effect of a provider that stays mounted, up to
    [getPorts()], from there up to [port.open(...)], and from there.  The
    reactions chained on the promise of [open] run as one step: what may
    come between them in the source sees the reconnecting flag go down
    later, and nothing else. *)
Definition reconnect_call : M (option Await) :=
  w <- get ;;
  if negb (navigator_serial w) then ret None
  else
    savedFilter <- getSerialFilterFromCookie ;;
    match savedFilter with
    | None => ret None
    | Some f =>
        modify (set_isReconnecting true) ;;
        host_call CallGetPorts ;;
        ret (Some (AwaitGetPorts f))
    end.

Definition reconnect_listed (f : SerialPortFilter) (tasks : list Await)
  (listed : Completion (list SerialPort)) : M (option Await) :=
  match listed with
  | Normal ports =>
      match matching_port f ports with
      | Some port =>
          refused <- open_call port tasks ;;
          ret (Some (AwaitReopen port refused))
      | None => modify (set_isReconnecting false) ;; ret None
      end
  | Throw _ => modify (set_isReconnecting false) ;; ret None
  end.

Definition reconnect_open_settled (port : SerialPort) (refused : bool)
  (settled : Completion unit) : M (option Await) :=
  try_finally
    (try_catch
       (open_settled port refused settled ;;
        modify (set_abortRef false) ;;
        openPortAndRead port)
       (fun _ => clearSerialFilterCookie))
    (modify (set_isReconnecting false)) ;;
  ret None.

(** The provider and the calls that are under way, oldest first. *)
Record Async := {
  world : World;
  tasks : list Await
}.

(** What happens: a function of the context value is called, or a promise
    that call [i] of those under way awaits settles, or the read of a loop
    settles. *)
Inductive Event :=
| CallConnect
| CallDisconnect
| CallSend (text : jsstring)
| CallSetOnTagRead (callback : option Consumer)
| PortsListed (i : nat) (listed : Completion (list SerialPort))
| PortChosen (i : nat) (picked : Completion SerialPort)
| Settled (i : nat) (settled : Completion unit)
| ReadSettled (r : Reader) (settled : Completion ReadResult).

(** Call [i] of those under way, and the others. *)
Fixpoint take_task (i : nat) (l : list Await) : option (Await * list Await) :=
  match l, i with
  | [], _ => None
  | a :: r, O => Some (a, r)
  | a :: r, S i' =>
      match take_task i' r with
      | Some (b, r') => Some (b, a :: r')
      | None => None
      end
  end.

(** A call runs up to its next [await], or to its end. *)
Definition advance (m : M (option Await)) (others : list Await) (w : World) : Async :=
  {| world := fst (m w);
     tasks := others ++ match snd (m w) with
                        | Normal (Some a) => [a]
                        | _ => []
                        end |}.

Definition step (ev : Event) (s : Async) : Async :=
  match ev with
  | CallConnect => advance connect_call (tasks s) (world s)
  | CallDisconnect => advance disconnect_call (tasks s) (world s)
  | CallSend text => advance (send_call text) (tasks s) (world s)
  | CallSetOnTagRead callback =>
      advance (setOnTagRead callback ;; ret None) (tasks s) (world s)
  | ReadSettled r settled =>
      advance (readLoop r settled ;; ret None) (tasks s) (world s)
  | PortsListed i listed =>
      match take_task i (tasks s) with
      | Some (AwaitGetPorts f, others) =>
          advance (reconnect_listed f others listed) others (world s)
      | _ => s
      end
  | PortChosen i picked =>
      match take_task i (tasks s) with
      | Some (AwaitRequestPort, others) =>
          advance (connect_chosen others picked) others (world s)
      | _ => s
      end
  | Settled i settled =>
      match take_task i (tasks s) with
      | Some (AwaitReopen port refused, others) =>
          advance (reconnect_open_settled port refused settled) others (world s)
      | Some (AwaitOpen port refused, others) =>
          advance (connect_open_settled port refused settled) others (world s)
      | Some (AwaitCancel, others) => advance disconnect_cancelled others (world s)
      | Some (AwaitCloseWriter, others) =>
          advance disconnect_writer_closed others (world s)
      | Some (AwaitClosePort port, others) =>
          advance (disconnect_port_closed port settled) others (world s)
      | Some (AwaitWrite writer data, others) =>
          advance (send_settled writer data settled ;; ret None) others (world s)
      | _ => s
      end
  end.

Fixpoint steps (events : list Event) (s : Async) : Async :=
  match events with
  | [] => s
  | ev :: rest => steps rest (step ev s)
  end.

(** The provider when its two effects have run up to the first [await]. *)
Definition mounted (serial : bool) (doc : option CookieJar) : Async :=
  advance (support_effect ;; reconnect_call) [] (initial_world serial doc).

(** A call of [connect], of [disconnect] or of the reconnect effect is
    under way. *)
Definition session_busy (s : Async) : bool := existsb is_session (tasks s).

(** The discipline under which the session is one: [connect] and
    [disconnect] are called only while no call of either, and no
    reconnection, is under way, [connect] only while the provider shows no
    connection; and the host closes the port that [disconnect] asks it to
    close. *)
Fixpoint disciplined (events : list Event) (s : Async) : Prop :=
  match events with
  | [] => True
  | ev :: rest =>
      match ev with
      | CallConnect => session_busy s = false /\ isConnected (world s) = false
      | CallDisconnect => session_busy s = false
      | Settled i settled =>
          match take_task i (tasks s) with
          | Some (AwaitClosePort _, _) => settled = Normal tt
          | _ => True
          end
      | _ => True
      end
      /\ disciplined rest (step ev s)
  end.

(** The callers test what the provider shows and no more: [connect] is
    called only while it shows no connection. *)
Fixpoint gated_calls (events : list Event) (s : Async) : Prop :=
  match events with
  | [] => True
  | ev :: rest =>
      match ev with
      | CallConnect => isConnected (world s) = false
      | _ => True
      end
      /\ gated_calls rest (step ev s)
  end.

(** What holds of the session while a call is suspended. *)
Definition held_port_open (w : World) : Prop :=
  match portRef w with
  | Some port => opened w = [(handle port, BAUD)]
  | None => opened w = []
  end.

Definition await_invariant (a : Await) (w : World) : Prop :=
  match a with
  | AwaitGetPorts _ | AwaitRequestPort | AwaitReopen _ _ | AwaitOpen _ _ =>
      coherent w /\ portRef w = None
  | AwaitCancel | AwaitCloseWriter => held_port_open w
  | AwaitClosePort port =>
      portRef w = Some port /\ opened w = [(handle port, BAUD)] /\ writerRef w = None
  | AwaitWrite _ _ => True
  end.

Definition session_invariant (s : Async) : Prop :=
  match filter is_session (tasks s) with
  | [] => coherent (world s)
  | [a] => await_invariant a (world s)
  | _ => False
  end.

(** What a step of a session call leaves: the invariant of its next
    [await], or a coherent state when the call has returned. *)
Definition keeps_session (r : World * Completion (option Await)) : Prop :=
  match snd r with
  | Normal (Some a) => is_session a = true /\ await_invariant a (fst r)
  | _ => coherent (fst r)
  end.

(** The fields that the invariants of the session speak of are the same in
    both states. *)
Definition same_session (w w' : World) : Prop :=
  isConnected w' = isConnected w
  /\ portRef w' = portRef w
  /\ writerRef w' = writerRef w
  /\ opened w' = opened w.

(** What a step that is no part of a session call leaves. *)
Definition frames_session (w : World) (r : World * Completion (option Await)) : Prop :=
  same_session w (fst r)
  /\ match snd r with
     | Normal (Some a) => is_session a = false
     | _ => True
     end.

(** The events of an operation that runs without anything in between, on a
    provider with no call under way. *)
Definition schedule (op : Op) (w : World) : list Event :=
  match op with
  | OpConnect picked settled => [CallConnect; PortChosen 0 picked; Settled 0 settled]
  | OpDisconnect cancelled closed_writer closed_port =>
      CallDisconnect
      :: match readerRef w with Some _ => [Settled 0 cancelled] | None => [] end
      ++ match writerRef w with Some _ => [Settled 0 closed_writer] | None => [] end
      ++ match portRef w with Some _ => [Settled 0 closed_port] | None => [] end
  | OpSend text settled => [CallSend text; Settled 0 settled]
  | OpRead r settled => [ReadSettled r settled]
  | OpSetOnTagRead callback => [CallSetOnTagRead callback]
  end.

Fixpoint schedule_of (ops : list Op) (w : World) : list Event :=
  match ops with
  | [] => []
  | op :: rest => schedule op w ++ schedule_of rest (state_after (perform op) w)
  end.

End Schedules.

(** ** Schedules on the reference host *)

(** The provider as it mounts on the reference host, nothing stored. *)
Definition host_mounted : Async :=
  mounted (H := ReferenceHost.host) true (Some ReferenceHost.theme_jar).



(** The same two calls, the user dismissing the second chooser once reader
    a is connected. *)
Definition dismissed_second_chooser : list Event :=
  [CallConnect; PortChosen 0 (Normal ReferenceHost.reader_a);
   CallConnect; Settled 0 (Normal tt);
   PortChosen 0 (Throw ReferenceHost.NotFoundError)].

(** A session in which no two calls of [connect] and [disconnect] overlap:
    reader a is connected, a command is sent and [disconnect] is called
    before its write has settled, then reader b is connected. *)
Definition orderly_session : list Event :=
  [CallConnect; PortChosen 0 (Normal ReferenceHost.reader_a);
   CallSetOnTagRead (Some 7%nat); Settled 0 (Normal tt);
   CallSend (lit "READ"); CallDisconnect;
   Settled 1 (Normal tt); Settled 0 (Normal tt);
   Settled 0 (Normal tt); Settled 0 (Normal tt);
   CallConnect; PortChosen 0 (Normal ReferenceHost.reader_b); Settled 0 (Normal tt)].

(** The same up to the end of [disconnect]. *)
Definition orderly_disconnected : list Event := firstn 10 orderly_session.

(** ** Invariants of the read loops *)

(** Every call of a consumer recorded so far carries a tag that is not empty
    and has no white space at either end. *)
Definition delivered_trimmed (w : World) : Prop :=
  Forall (fun c : TagCall => snd c <> [] /\ trim (snd c) = snd c) (calls w).

(** No read loop holds a line feed in its [readBuffer]. *)
Definition buffers_open (w : World) : Prop :=
  Forall (fun l => forallb (fun c => negb (c =? LF)) (readBuffer l) = true) (loops w).

(** The reads of reader [r] that settle with the chunks of a stream, one
    after the other. *)
Definition chunk_reads (r : Reader) (chunks : list Uint8Array) : list Op :=
  map (fun value => OpRead r (Normal (Chunk value))) chunks.

(** The value the document holds under [name]. *)
Definition cookie_named (name : jsstring) (w : World) : option jsstring :=
  match document w with
  | Some jar => assoc name jar
  | None => None
  end.

(** A provider on a host without Web Serial: what it holds in the error
    field, in the consumer reference and in the abort flag, every other
    field being as it was when the provider was created. *)
Definition unsupported_world (doc : option CookieJar) (e : option jsstring)
  (callback : option Consumer) (aborted : bool) : World :=
  mkWorld false false false e callback None None None aborted
          false doc [] [] [] [] 0%nat [].

(** What a history writes into these three fields on a host without Web
    Serial: [connect] leaves its text in the error field, [disconnect]
    empties the error field and raises the abort flag, [setOnTagRead] sets
    the consumer reference; [send] and a read that settles write nothing. *)
Fixpoint unsupported_run (ops : list Op) (doc : option CookieJar)
  (e : option jsstring) (callback : option Consumer) (aborted : bool) : World :=
  match ops with
  | [] => unsupported_world doc e callback aborted
  | OpConnect _ _ :: rest =>
      unsupported_run rest doc
        (Some (lit "Web Serial not supported. Use Chrome or Edge.")) callback aborted
  | OpDisconnect _ _ _ :: rest => unsupported_run rest doc None callback true
  | OpSetOnTagRead c :: rest => unsupported_run rest doc e c aborted
  | _ :: rest => unsupported_run rest doc e callback aborted
  end.

(** ** The first [useSerial] hook

    The read loop of the first version of the hook knows the menu-mode
    pattern only and calls its consumer under the guard [if (id)]. *)
Module FirstUseSerial.

Definition extract (t : jsstring) : option jsstring :=
  match USER_ID_REGEX t with
  | Some m1 =>
      match trim m1 with
      | [] => None
      | c :: r => Some (c :: r)
      end
  | None => None
  end.

Definition dispatch (onTagRead : Consumer) (t : jsstring) : list TagCall :=
  match extract t with
  | Some id => [(onTagRead, id)]
  | None => []
  end.

End FirstUseSerial.

(** The cleanup of the last effect of both hooks, run when the component
    that uses the hook unmounts: it raises the abort flag and, if a port is
    held, calls [close()] on it and swallows a rejection.  [closed] settles
    [close()]. *)
Definition useSerial_cleanup (closed : Completion unit) : M unit :=
  modify (set_abortRef true) ;;
  w <- get ;;
  match portRef w with
  | Some port => try_catch (port_close port closed) (fun _ => ret tt)
  | None => ret tt
  end.

(** ** The callers of the provider *)

(** The effect of [DashboardReadModeReset]; [provider] is what
    [useContext(SerialContext)] returns and [settled] settles the write of
    [send]. *)
Definition DashboardReadModeReset (provider : option SerialContextValue)
  (pathname : jsstring) (settled : Completion unit) : M unit :=
  match useSerialContext provider with
  | Throw e => throw e
  | Normal ctx =>
      if jsstring_eqb pathname (lit "/dashboard")
      then try_catch (ctx_send ctx (lit "READ") settled) (fun _ => ret tt)
      else ret tt
  end.

(** A value of [Math.random()]: a binary fraction, [mantissa / 2 ^ scale]. *)
Record Fraction := {
  mantissa : N;
  scale : N
}.

(** The contract of [Math.random()]: at least zero, less than one. *)
Definition unit_interval (x : Fraction) : Prop := mantissa x < 2 ^ scale x.

(** [Math.floor(x * n)]; for [n] a power of two, as the length of the
    alphabet is, the product is exact in binary64. *)
Definition floor_times (x : Fraction) (n : N) : N :=
  (mantissa x * n) / 2 ^ scale x.

(** [id += chars[i]]: an index out of range reads [undefined], which is
    appended as text. *)
Definition append_char (id chars : jsstring) (i : N) : jsstring :=
  id ++ match nth_error chars (N.to_nat i) with
        | Some c => [c]
        | None => lit "undefined"
        end.

Definition NFC_ID_CHARS : jsstring := lit "ABCDEFGHJKLMNPQRSTUVWXYZ23456789".

(** The loop of [generateRandomNfcId], [count] rounds from call [i] of
    [Math.random()] on. *)
Fixpoint generate_loop (count : nat) (random : nat -> Fraction) (i : nat)
  (id : jsstring) : jsstring :=
  match count with
  | O => id
  | S count' =>
      generate_loop count' random (S i)
        (append_char id NFC_ID_CHARS
           (floor_times (random i) (N.of_nat (List.length NFC_ID_CHARS))))
  end.

(** [generateRandomNfcId()]; [random i] is what call [i] of [Math.random()]
    returns. *)
Definition generateRandomNfcId (random : nat -> Fraction) : jsstring :=
  generate_loop 8 random 0 (lit "TI-").

Section EditPatientPage.

(** The patient record, the form, and the two functions of the page that
    fill a form. *)
Variables Patient Form : Type.
Variable patientToForm : Patient -> Form.
Variable emptyForm : jsstring -> Form.

(** The state of the edit page that the tag handler reads and writes. *)
Record EditPage := mkEditPage {
  nfcIdInput : jsstring;
  loadedPatient : option Patient;
  form : Form;
  loadError : option jsstring;
  pendingWriteNfcId : option jsstring;
  writeToTagDone : bool;
  pendingWriteNfcIdRef : option jsstring
}.

(** The effect that copies the state [pendingWriteNfcId] into the reference
    the handler reads. *)
Definition sync_pendingWriteNfcIdRef (page : EditPage) : EditPage :=
  mkEditPage (nfcIdInput page) (loadedPatient page) (form page) (loadError page)
    (pendingWriteNfcId page) (writeToTagDone page) (pendingWriteNfcId page).

(** [handleTagRead(tagId)] of the edit page.  [ctx] is the context value the
    page holds, whose [send] the reference [serialSendRef] holds at every
    render (the reference is never empty, so the handler tests the pending
    identifier only); [getPatientByNfcId] is what the backend answers
    ([None] for [null], which also stands for a failed request), and the
    two settlements are those of the writes of [send]. *)
Definition handleTagRead (ctx : SerialContextValue) (random : nat -> Fraction)
  (getPatientByNfcId : jsstring -> option Patient) (tagId : jsstring)
  (write_settled read_settled : Completion unit) (page : EditPage) (w : World)
  : EditPage * World * Completion unit :=
  match pendingWriteNfcIdRef page with
  | Some toWrite =>
      let page1 :=
        mkEditPage (nfcIdInput page) (loadedPatient page) (form page)
          (loadError page) None true (pendingWriteNfcIdRef page) in
      match ctx_send ctx (lit "WRITE|" ++ toWrite) write_settled w with
      | (w1, Throw e) => (page1, w1, Throw e)
      | (w1, Normal _) =>
          let (w2, c) := ctx_send ctx (lit "READ") read_settled w1 in
          (page1, w2, c)
      end
  | None =>
      let isEmptyCard := negb (nonempty (trim tagId)) in
      let idToUse := if isEmptyCard then generateRandomNfcId random else tagId in
      let patient := getPatientByNfcId idToUse in
      (mkEditPage idToUse patient
         match patient with
         | Some p => patientToForm p
         | None => emptyForm idToUse
         end
         (if isEmptyCard
          then Some (lit "Card had no ID. A new ID was generated. After saving the patient, scan a tag to write the ID to the wristband.")
          else None)
         (pendingWriteNfcId page) (writeToTagDone page) (pendingWriteNfcIdRef page),
       w, Normal tt)
  end.

(** *** The handler, await by await

    [handleTagRead] is asynchronous and the read loop of the provider does
    not await it: a call runs up to its first [await], and the loop goes on
    to the next line of the chunk.  Here the handler is cut at its
    [await]s, [send] being that of the provider; [handleTagRead] above is
    one call with nothing between it and its settlements (lemma
    [handleTagRead_phases]). *)

(** Where a call of the handler is suspended: on its first or on its second
    [send], with the write that this [send] waits for if it made one, or on
    the answer of the backend. *)
Inductive HandlerAwait :=
| AwaitWriteCommand (write : option Await)
| AwaitReadCommand (write : option Await)
| AwaitPatient (idToUse : jsstring) (isEmptyCard : bool).

(** A call of the handler, up to its first [await]. *)
Definition handleTagRead_call (random : nat -> Fraction) (tagId : jsstring)
  (page : EditPage) (w : World) : EditPage * World * HandlerAwait :=
  match pendingWriteNfcIdRef page with
  | Some toWrite =>
      let page1 :=
        mkEditPage (nfcIdInput page) (loadedPatient page) (form page)
          (loadError page) None true (pendingWriteNfcIdRef page) in
      let (w1, c) := send_call (lit "WRITE|" ++ toWrite) w in
      (page1, w1,
       AwaitWriteCommand match c with Normal write => write | Throw _ => None end)
  | None =>
      let isEmptyCard := negb (nonempty (trim tagId)) in
      let idToUse := if isEmptyCard then generateRandomNfcId random else tagId in
      (mkEditPage idToUse (loadedPatient page) (form page) None
         (pendingWriteNfcId page) (writeToTagDone page) (pendingWriteNfcIdRef page),
       w, AwaitPatient idToUse isEmptyCard)
  end.

(** The handler goes on when what it waits for has settled; [settled]
    settles the write of its [send]. *)
Definition handleTagRead_resumed (getPatientByNfcId : jsstring -> option Patient)
  (k : HandlerAwait) (settled : Completion unit) (page : EditPage) (w : World)
  : EditPage * World * Completion (option HandlerAwait) :=
  match k with
  | AwaitWriteCommand write =>
      match send_resumed write settled w with
      | (w1, Throw e) => (page, w1, Throw e)
      | (w1, Normal _) =>
          let (w2, c) := send_call (lit "READ") w1 in
          (page, w2,
           Normal (Some (AwaitReadCommand
                           match c with Normal write' => write' | Throw _ => None end)))
      end
  | AwaitReadCommand write =>
      let (w1, c) := send_resumed write settled w in
      (page, w1, match c with Normal _ => Normal None | Throw e => Throw e end)
  | AwaitPatient idToUse isEmptyCard =>
      let patient := getPatientByNfcId idToUse in
      (mkEditPage (nfcIdInput page) patient
         match patient with
         | Some p => patientToForm p
         | None => emptyForm idToUse
         end
         (if isEmptyCard
          then Some (lit "Card had no ID. A new ID was generated. After saving the patient, scan a tag to write the ID to the wristband.")
          else loadError page)
         (pendingWriteNfcId page) (writeToTagDone page) (pendingWriteNfcIdRef page),
       w, Normal None)
  end.

End EditPatientPage.


Section ScanView.

Variable Patient : Type.




End ScanView.

(** * Properties *)

(** ** Lists and strings *)

Lemma strip_prefix_sound (p s r : jsstring) :
  strip_prefix p s = Some r -> s = p ++ r.
Proof.
  revert s; induction p as [|a p IH]; intros s Hs; simpl in Hs.
  - now inversion Hs.
  - destruct s as [|b s]; [discriminate|].
    destruct (N.eqb_spec a b) as [->|]; [|discriminate].
    simpl; f_equal; auto.
Qed.

Lemma strip_prefix_app (p r : jsstring) : strip_prefix p (p ++ r) = Some r.
Proof.
  induction p as [|a p IH]; simpl; [reflexivity|].
  now rewrite N.eqb_refl.
Qed.

Lemma trimStart_split (s : jsstring) :
  exists ws, s = ws ++ trimStart s /\ forallb isWhiteSpace ws = true.
Proof.
  induction s as [|c s [ws [Hs Hws]]]; simpl.
  - exists []; auto.
  - destruct (isWhiteSpace c) eqn:Hc.
    + exists (c :: ws); simpl; rewrite Hc, Hws; split; [congruence|reflexivity].
    + exists []; auto.
Qed.

Lemma trimStart_app_ws (ws s : jsstring) :
  forallb isWhiteSpace ws = true -> trimStart (ws ++ s) = trimStart s.
Proof.
  induction ws as [|c ws IH]; simpl; [reflexivity|].
  intros Hc; apply andb_true_iff in Hc as [Hc Hws]; rewrite Hc; auto.
Qed.

Lemma until_quote_sound (s v rest : jsstring) :
  until_quote s = Some (v, rest) ->
  s = v ++ [DQUOTE] ++ rest /\ forallb (fun c => negb (c =? DQUOTE)) v = true.
Proof.
  revert v; induction s as [|c s IH]; intros v Hs; simpl in Hs; [discriminate|].
  destruct (N.eqb_spec c DQUOTE) as [->|Hc].
  - inversion Hs; subst; auto.
  - destruct (until_quote s) as [[v' rest']|]; [|discriminate].
    inversion Hs; subst; destruct (IH v' eq_refl) as [-> Hv]; simpl.
    split; [reflexivity|].
    rewrite Hv; apply N.eqb_neq in Hc; now rewrite Hc.
Qed.

Lemma until_quote_app (v rest : jsstring) :
  forallb (fun c => negb (c =? DQUOTE)) v = true ->
  until_quote (v ++ DQUOTE :: rest) = Some (v, rest).
Proof.
  induction v as [|c v IH]; simpl; [reflexivity|].
  intros Hc; apply andb_true_iff in Hc as [Hc Hv].
  apply negb_true_iff in Hc; rewrite Hc, (IH Hv); reflexivity.
Qed.

(** ** The patterns against the line shapes *)

Lemma USER_ID_at_sound (s v : jsstring) :
  USER_ID_at s = Some v ->
  exists ws after,
    s = lit "User ID:" ++ ws ++ [DQUOTE] ++ v ++ [DQUOTE] ++ after
    /\ forallb isWhiteSpace ws = true
    /\ forallb (fun c => negb (c =? DQUOTE)) v = true.
Proof.
  unfold USER_ID_at; intros Hs.
  destruct (strip_prefix (lit "User ID:") s) as [r|] eqn:Hp; [|discriminate].
  apply strip_prefix_sound in Hp.
  destruct (trimStart_split r) as [ws [Hr Hws]].
  destruct (trimStart r) as [|c r'] eqn:Ht; [discriminate|].
  destruct (N.eqb_spec c DQUOTE) as [->|]; [|discriminate].
  destruct (until_quote r') as [[v' rest]|] eqn:Hq; [|discriminate].
  simpl in Hs; inversion Hs; subst v'.
  apply until_quote_sound in Hq as [-> Hv].
  exists ws, rest; repeat split; auto.
  rewrite Hp, Hr; reflexivity.
Qed.

Lemma USER_ID_at_complete (ws v after : jsstring) :
  forallb isWhiteSpace ws = true ->
  forallb (fun c => negb (c =? DQUOTE)) v = true ->
  USER_ID_at (lit "User ID:" ++ ws ++ [DQUOTE] ++ v ++ [DQUOTE] ++ after) = Some v.
Proof.
  intros Hws Hv; unfold USER_ID_at.
  rewrite strip_prefix_app, (trimStart_app_ws _ _ Hws).
  change (trimStart ([DQUOTE] ++ v ++ [DQUOTE] ++ after))
    with (DQUOTE :: v ++ DQUOTE :: after).
  cbv beta iota; rewrite N.eqb_refl, (until_quote_app _ _ Hv); reflexivity.
Qed.

Lemma USER_ID_REGEX_sound (t v : jsstring) :
  USER_ID_REGEX t = Some v -> menu_line t v.
Proof.
  induction t as [|c t IH]; intros Ht.
  - discriminate Ht.
  - cbn [USER_ID_REGEX] in Ht.
    destruct (USER_ID_at (c :: t)) as [v'|] eqn:Ha.
    + inversion Ht; subst.
      destruct (USER_ID_at_sound _ _ Ha) as [ws [after [E [Hws Hv]]]].
      exists [], ws, after; auto.
    + destruct (IH Ht) as [before [ws [after [E [Hws Hv]]]]].
      exists (c :: before), ws, after; repeat split; auto.
      rewrite E; reflexivity.
Qed.

Lemma USER_ID_REGEX_unfold (s : jsstring) :
  USER_ID_REGEX s =
  match USER_ID_at s with
  | Some v => Some v
  | None => match s with [] => None | _ :: r => USER_ID_REGEX r end
  end.
Proof. destruct s; reflexivity. Qed.

Lemma USER_ID_REGEX_complete (t v : jsstring) :
  menu_line t v -> exists m, USER_ID_REGEX t = Some m.
Proof.
  intros [before [ws [after [-> [Hws Hv]]]]].
  induction before as [|c before IH].
  - rewrite app_nil_l, USER_ID_REGEX_unfold.
    rewrite (USER_ID_at_complete ws v after Hws Hv); eauto.
  - rewrite USER_ID_REGEX_unfold.
    destruct (USER_ID_at _); eauto.
Qed.

Lemma OK_READ_REGEX_spec (t v : jsstring) :
  OK_READ_REGEX t = Some v <-> command_line t v.
Proof.
  unfold OK_READ_REGEX, command_line; split.
  - destruct (strip_prefix (lit "OK|READ|") t) as [[|c r]|] eqn:Hp; try discriminate.
    destruct (forallb _ (c :: r)) eqn:Hf; [|discriminate].
    intros Hv; inversion Hv; subst.
    apply strip_prefix_sound in Hp; repeat split; auto; discriminate.
  - intros [-> [Hne Hf]].
    rewrite strip_prefix_app.
    destruct v as [|c r]; [congruence|].
    now rewrite Hf.
Qed.

(** ** The tag extractor *)

Lemma dispatch_menu (cb : Consumer) (t m : jsstring) :
  USER_ID_REGEX t = Some m ->
  dispatch (Some cb) t = if nonempty (trim m) then [(cb, trim m)] else [].
Proof.
  intros Hm; unfold dispatch, extract, extract_id; rewrite Hm.
  destruct (trim m); reflexivity.
Qed.

Lemma dispatch_command (cb : Consumer) (t m : jsstring) :
  USER_ID_REGEX t = None -> OK_READ_REGEX t = Some m ->
  dispatch (Some cb) t = if nonempty (trim m) then [(cb, trim m)] else [].
Proof.
  intros Hu Hm; unfold dispatch, extract, extract_id; rewrite Hu, Hm.
  destruct (trim m); reflexivity.
Qed.

Lemma dispatch_neither (cb : option Consumer) (t : jsstring) :
  (forall v, ~ menu_line t v) -> (forall v, ~ command_line t v) ->
  dispatch cb t = [].
Proof.
  intros Hmenu Hcmd; unfold dispatch, extract, extract_id.
  destruct (USER_ID_REGEX t) as [m|] eqn:Hu.
  - exfalso; exact (Hmenu m (USER_ID_REGEX_sound _ _ Hu)).
  - destruct (OK_READ_REGEX t) as [m|] eqn:Ho; [|reflexivity].
    exfalso; exact (Hcmd m (proj1 (OK_READ_REGEX_spec _ _) Ho)).
Qed.

(** C1, as the code has it.  In the read loop of the provider the line
    [User ID: "AB12"] and the line [OK|READ|AB12] each call the registered
    consumer once with [AB12]; the line [OK|READ|] and a line of neither
    shape call nobody; and a captured value that trims to the empty string
    is suppressed in both modes, so the menu-mode line with an empty value
    between the quotes calls nobody either: every call of the consumer
    carries a nonempty trimmed capture.  The empty-string event of menu mode
    exists in the read loop of the older [useSerial] hook only, which calls
    its consumer with the trimmed capture of every menu-mode line and knows
    no command mode. *)
Theorem tag_extractor_table :
  (forall cb, dispatch (Some cb) (lit "User ID: " ++ [DQUOTE] ++ lit "AB12" ++ [DQUOTE])
              = [(cb, lit "AB12")])
  /\ (forall cb, dispatch (Some cb) (lit "User ID: " ++ [DQUOTE; DQUOTE]) = [])
  /\ (forall cb, dispatch (Some cb) (lit "OK|READ|AB12") = [(cb, lit "AB12")])
  /\ (forall cb, dispatch (Some cb) (lit "OK|READ|") = [])
  /\ (forall cb t,
        (forall v, ~ menu_line t v) -> (forall v, ~ command_line t v) ->
        dispatch cb t = [])
  /\ (forall cb t m,
        USER_ID_REGEX t = Some m ->
        dispatch (Some cb) t = if nonempty (trim m) then [(cb, trim m)] else [])
  /\ (forall cb t m,
        USER_ID_REGEX t = None -> OK_READ_REGEX t = Some m ->
        dispatch (Some cb) t = if nonempty (trim m) then [(cb, trim m)] else [])
  /\ (forall t v, menu_line t v -> exists m, USER_ID_REGEX t = Some m)
  /\ (forall cb t m,
        USER_ID_REGEX t = Some m -> UseSerial.dispatch cb t = [(cb, trim m)])
  /\ (forall cb t, USER_ID_REGEX t = None -> UseSerial.dispatch cb t = []).
Proof.
  repeat split; try (intros; reflexivity).
  - intros; now apply dispatch_neither.
  - intros; now apply dispatch_menu.
  - intros; now apply dispatch_command.
  - intros; eapply USER_ID_REGEX_complete; eauto.
  - intros cb t m Hm; unfold UseSerial.dispatch, UseSerial.extract; now rewrite Hm.
  - intros cb t Hm; unfold UseSerial.dispatch, UseSerial.extract; now rewrite Hm.
Qed.

(** The table on a menu-mode line with a blank value, in both read loops. *)
Lemma tag_extractor_table_witness :
  USER_ID_REGEX (lit "User ID: " ++ [DQUOTE; 32; DQUOTE]) = Some [32]
  /\ dispatch (Some 7%nat) (lit "User ID: " ++ [DQUOTE; 32; DQUOTE]) = []
  /\ UseSerial.dispatch 7%nat (lit "User ID: " ++ [DQUOTE; 32; DQUOTE]) = [(7%nat, [])].
Proof.
  destruct tag_extractor_table as (_ & _ & _ & _ & _ & Hmenu & _ & _ & Hhook & _).
  split; [reflexivity|]; split.
  - exact (Hmenu 7%nat (lit "User ID: " ++ [DQUOTE; 32; DQUOTE]) [32] eq_refl).
  - exact (Hhook 7%nat (lit "User ID: " ++ [DQUOTE; 32; DQUOTE]) [32] eq_refl).
Defined.

(** C1, as the design document has it, fails in the provider: the menu-mode
    line with an empty value does not reach the registered consumer. *)
Lemma tag_extractor_empty_menu_value_suppressed :
  dispatch (Some 7%nat) (lit "User ID: " ++ [DQUOTE; DQUOTE]) = []
  /\ dispatch (Some 7%nat) (lit "User ID: " ++ [DQUOTE; DQUOTE]) <> [(7%nat, [])].
Proof. split; [reflexivity|discriminate]. Qed.

(** ** The line framer *)

Lemma split_lines_nonempty (s : jsstring) : split_lines s <> [].
Proof.
  induction s as [|c s IH]; simpl; [discriminate|].
  destruct (c =? LF); [discriminate|].
  destruct ((c =? CR) && starts_with_LF s); [assumption|].
  destruct (split_lines s); [contradiction|discriminate].
Qed.

(** A string that splits into one segment is that segment. *)
Lemma split_lines_single (s h : jsstring) : split_lines s = [h] -> h = s.
Proof.
  revert h; induction s as [|c s IH]; simpl; intros h Hs.
  - now inversion Hs.
  - destruct (c =? LF).
    + inversion Hs as [[Hh Ht]]; now apply split_lines_nonempty in Ht.
    + destruct ((c =? CR) && starts_with_LF s) eqn:Hcr.
      * apply andb_true_iff in Hcr as [_ Hlf].
        destruct s as [|d s']; [discriminate|]; simpl in Hlf, Hs.
        rewrite Hlf in Hs.
        inversion Hs as [[Hh Ht]]; now apply split_lines_nonempty in Ht.
      * destruct (split_lines s) as [|h' t'] eqn:Hsplit.
        -- now apply split_lines_nonempty in Hsplit.
        -- simpl in Hs; inversion Hs; subst.
           now rewrite (IH h' eq_refl).
Qed.

Lemma starts_with_LF_app (s b : jsstring) :
  s <> [] -> starts_with_LF (s ++ b) = starts_with_LF s.
Proof. destruct s; [congruence|reflexivity]. Qed.

Lemma removelast_cons2 {A : Type} (x y : A) (l : list A) :
  removelast (x :: y :: l) = x :: removelast (y :: l).
Proof. reflexivity. Qed.

(** The segments of [a ++ b]: the terminated segments of [a], then the
    segments of what [a] left unterminated followed by [b]. *)
Lemma split_lines_app (a b : jsstring) :
  split_lines (a ++ b) =
  removelast (split_lines a) ++ split_lines (last (split_lines a) [] ++ b).
Proof.
  induction a as [|c a IH]; [reflexivity|].
  cbn [app split_lines].
  destruct (c =? LF) eqn:Hlf.
  - rewrite IH.
    destruct (split_lines a) as [|h t] eqn:Hs;
      [now apply split_lines_nonempty in Hs|].
    reflexivity.
  - destruct a as [|d a'].
    + (* the last character of [a] *)
      rewrite andb_false_r; cbn [split_lines cons_head removelast last app].
      rewrite Hlf; reflexivity.
    + rewrite (starts_with_LF_app (d :: a') b) by discriminate.
      destruct ((c =? CR) && starts_with_LF (d :: a')) eqn:Hcr; [exact IH|].
      rewrite IH.
      destruct (split_lines (d :: a')) as [|h t] eqn:Hs;
        [now apply split_lines_nonempty in Hs|].
      destruct t as [|h2 t]; [|reflexivity].
      apply split_lines_single in Hs; subst h.
      cbn [cons_head removelast last app split_lines].
      rewrite Hlf.
      change (starts_with_LF (d :: a' ++ b)) with (starts_with_LF (d :: a')).
      rewrite Hcr; reflexivity.
Qed.

(** What stays in [readBuffer] holds no line feed. *)
Lemma last_split_lines_no_LF (s : jsstring) :
  forallb (fun c => negb (c =? LF)) (last (split_lines s) []) = true.
Proof.
  induction s as [|c s IH]; [reflexivity|].
  cbn [split_lines].
  destruct (c =? LF) eqn:Hlf.
  - destruct (split_lines s) eqn:Hs; [now apply split_lines_nonempty in Hs|].
    exact IH.
  - destruct ((c =? CR) && starts_with_LF s); [exact IH|].
    destruct (split_lines s) as [|h t] eqn:Hs;
      [now apply split_lines_nonempty in Hs|].
    destruct t as [|h2 t]; [|exact IH].
    simpl in *; now rewrite Hlf, IH.
Qed.

Lemma split_lines_no_LF (s : jsstring) :
  forallb (fun c => negb (c =? LF)) s = true -> split_lines s = [s].
Proof.
  induction s as [|c s IH]; [reflexivity|].
  cbn [forallb split_lines]; intros Hc.
  apply andb_true_iff in Hc as [Hc Hs].
  apply negb_true_iff in Hc; rewrite Hc.
  destruct s as [|d s'].
  - now rewrite andb_false_r.
  - cbn [forallb] in Hs; pose proof Hs as Hs'.
    apply andb_true_iff in Hs' as [Hd _]; apply negb_true_iff in Hd.
    cbn [starts_with_LF]; rewrite Hd, andb_false_r, (IH Hs); reflexivity.
Qed.

Lemma last_app_nonempty {A : Type} (l l' : list A) (d : A) :
  l' <> [] -> last (l ++ l') d = last l' d.
Proof.
  intros Hl'; induction l as [|x l IH]; [reflexivity|].
  cbn [app last]; rewrite IH.
  destruct (l ++ l') eqn:E; [|reflexivity].
  apply app_eq_nil in E as [_ E]; contradiction.
Qed.

Lemma complete_lines_app (l1 l2 : list jsstring) :
  complete_lines (l1 ++ l2) = complete_lines l1 ++ complete_lines l2.
Proof. unfold complete_lines; now rewrite map_app, filter_app. Qed.

(** On ASCII bytes the decoder is the identity, chunk by chunk. *)
Lemma utf8_run_ascii (value : Uint8Array) :
  Forall is_ascii value -> utf8_run utf8_init value = value.
Proof.
  induction 1 as [|b value Hb _ IH]; [reflexivity|].
  cbn [utf8_run]; unfold utf8_step, utf8_lead; cbn [bytes_needed utf8_init].
  rewrite N.eqb_refl.
  unfold is_ascii in Hb.
  destruct (N.leb_spec b 0x7F); [|lia].
  now rewrite IH.
Qed.

Lemma utf16_units_ascii (value : Uint8Array) :
  Forall is_ascii value -> flat_map utf16_units value = value.
Proof.
  induction 1 as [|b value Hb _ IH]; [reflexivity|].
  cbn [flat_map]; unfold utf16_units, is_ascii in *.
  destruct (N.ltb_spec b 0x10000); [|lia].
  now rewrite IH.
Qed.

Lemma TextDecoder_decode_ascii (value : Uint8Array) :
  Forall is_ascii value -> TextDecoder_decode value = value.
Proof.
  intros Hv; unfold TextDecoder_decode; rewrite (utf8_run_ascii _ Hv).
  destruct Hv as [|b value Hb Hv]; [reflexivity|].
  unfold strip_bom, is_ascii in *.
  destruct (N.eqb_spec b 0xFEFF); [lia|].
  apply utf16_units_ascii; now constructor.
Qed.

Lemma feed_all_one (readBuffer : jsstring) (value : Uint8Array) :
  feed_all readBuffer [value] =
  (complete_lines (fst (feed readBuffer value)), snd (feed readBuffer value)).
Proof.
  cbn [feed_all]; destruct (feed readBuffer value); now rewrite app_nil_r.
Qed.

Lemma feed_all_concat (chunks : list Uint8Array) (readBuffer : jsstring) :
  Forall (Forall is_ascii) chunks ->
  forallb (fun c => negb (c =? LF)) readBuffer = true ->
  feed_all readBuffer chunks = feed_all readBuffer [List.concat chunks].
Proof.
  intros Hascii; revert readBuffer.
  induction Hascii as [|value chunks Hv Hchunks IH]; intros readBuffer Hbuf.
  - rewrite feed_all_one; unfold feed; cbn [List.concat fst snd].
    rewrite app_nil_r, (split_lines_no_LF _ Hbuf); reflexivity.
  - assert (Hall : Forall is_ascii (List.concat chunks)).
    { clear -Hchunks; induction Hchunks; simpl; [constructor|].
      apply Forall_app; auto. }
    rewrite feed_all_one; cbn [feed_all List.concat].
    unfold feed at 1.
    rewrite (TextDecoder_decode_ascii _ Hv).
    rewrite (IH _ (last_split_lines_no_LF _)), feed_all_one.
    unfold feed; cbn [fst snd].
    rewrite (TextDecoder_decode_ascii _ Hall).
    rewrite (TextDecoder_decode_ascii (value ++ List.concat chunks))
      by (apply Forall_app; auto).
    rewrite app_assoc, (split_lines_app (readBuffer ++ value) (List.concat chunks)).
    set (a := split_lines (readBuffer ++ value)).
    set (b := split_lines (last a [] ++ List.concat chunks)).
    assert (Hb : b <> []) by apply split_lines_nonempty.
    rewrite (removelast_app _ Hb), (last_app_nonempty _ _ _ Hb).
    now rewrite complete_lines_app.
Qed.

(** C2.  For a stream of ASCII bytes, the complete lines the framer hands
    on, and what it keeps as unterminated remainder, are the same for every
    way of cutting the stream into chunks as for the stream fed in one
    chunk. *)
Theorem chunk_boundary_independence (chunks : list Uint8Array) :
  Forall (Forall is_ascii) chunks ->
  fst (feed_all [] chunks) = fst (feed_all [] [List.concat chunks])
  /\ snd (feed_all [] chunks) = snd (feed_all [] [List.concat chunks]).
Proof.
  intros Hascii; now rewrite (feed_all_concat chunks [] Hascii eq_refl).
Qed.

(** Outside of ASCII the framer depends on the cut: each chunk is decoded on
    its own, so a character whose bytes are cut apart is lost. *)
Remark chunk_boundary_inside_a_character :
  fst (feed_all [] [[0xC3; 0xA9; 10]]) = [[0xE9]]
  /\ fst (feed_all [] [[0xC3]; [0xA9; 10]]) = [[0xFFFD; 0xFFFD]].
Proof. split; reflexivity. Qed.

(** A stream whose line end is cut between carriage return and line feed. *)
Lemma chunk_boundary_independence_witness :
  fst (feed_all [] [lit "OK|READ|AB" ++ [CR]; [LF] ++ lit " 12"; [LF]])
  = fst (feed_all [] [List.concat [lit "OK|READ|AB" ++ [CR]; [LF] ++ lit " 12"; [LF]]])
  /\ snd (feed_all [] [lit "OK|READ|AB" ++ [CR]; [LF] ++ lit " 12"; [LF]])
     = snd (feed_all [] [List.concat [lit "OK|READ|AB" ++ [CR]; [LF] ++ lit " 12"; [LF]]]).
Proof.
  apply chunk_boundary_independence.
  repeat constructor; unfold is_ascii; lia.
Defined.

(** ** The cookie pattern against the cookies of the document *)

Lemma jsstring_eqb_eq (a b : jsstring) : jsstring_eqb a b = true <-> a = b.
Proof.
  revert b; induction a as [|x a IH]; destruct b as [|y b]; simpl;
    try (split; [discriminate|congruence]); [tauto|].
  rewrite andb_true_iff, N.eqb_eq, IH.
  split; [intros [-> ->]; reflexivity|intros E; inversion E; auto].
Qed.

Lemma jsstring_eqb_refl (a : jsstring) : jsstring_eqb a a = true.
Proof. now apply jsstring_eqb_eq. Qed.

(** A name followed by an equals sign is found in front of a cookie exactly
    when it is the name of the cookie. *)
Lemma strip_prefix_name (p n rest : jsstring) :
  forallb (fun x => negb (x =? 61)) p = true ->
  forallb (fun x => negb (x =? 61)) n = true ->
  strip_prefix (p ++ [61]) (n ++ [61] ++ rest)
  = if jsstring_eqb p n then Some rest else None.
Proof.
  revert n; induction p as [|a p IH]; intros [|x n] Hp Hn;
    cbn [forallb app strip_prefix jsstring_eqb] in *.
  - reflexivity.
  - apply andb_true_iff in Hn as [Hx _]; apply negb_true_iff in Hx.
    now rewrite N.eqb_sym, Hx.
  - apply andb_true_iff in Hp as [Ha _]; apply negb_true_iff in Ha.
    now rewrite Ha.
  - apply andb_true_iff in Hp as [_ Hp]; apply andb_true_iff in Hn as [_ Hn].
    destruct (a =? x); [exact (IH n Hp Hn)|reflexivity].
Qed.

Lemma until_semicolon_tail (v : jsstring) (rest : option jsstring) :
  forallb (fun x => negb (x =? 59)) v = true ->
  until_semicolon (v ++ cookie_tail rest) = v.
Proof.
  induction v as [|c v IH]; cbn [forallb app until_semicolon].
  - destruct rest; reflexivity.
  - intros Hc; apply andb_true_iff in Hc as [Hc Hv].
    apply negb_true_iff in Hc; rewrite Hc, (IH Hv); reflexivity.
Qed.

Lemma cookie_ok_name (c : jsstring * jsstring) :
  cookie_ok c = true -> forallb (fun x => negb (x =? 61)) (fst c) = true.
Proof.
  unfold cookie_ok; intros Hc.
  apply andb_true_iff in Hc as [Hc _]; apply andb_true_iff in Hc as [Hc _].
  induction (fst c) as [|x n IH]; [reflexivity|].
  cbn [forallb] in *; apply andb_true_iff in Hc as [Hx Hn].
  apply andb_true_iff in Hx as [_ Hx]; now rewrite Hx, (IH Hn).
Qed.

Lemma cookie_ok_no_semicolon (c : jsstring * jsstring) :
  cookie_ok c = true -> forallb (fun x => negb (x =? 59)) (cookie_pair c) = true.
Proof.
  unfold cookie_ok, cookie_pair; intros Hc.
  apply andb_true_iff in Hc as [Hc Hv]; apply andb_true_iff in Hc as [Hc _].
  assert (Hn : forallb (fun x => negb (x =? 59)) (fst c) = true).
  { induction (fst c) as [|x n IH]; [reflexivity|].
    cbn [forallb] in *; apply andb_true_iff in Hc as [Hx Hn].
    apply andb_true_iff in Hx as [Hx _]; now rewrite Hx, (IH Hn). }
  now rewrite !forallb_app, Hn, Hv.
Qed.

Lemma trimStart_cookie_pair (c : jsstring * jsstring) (tail : jsstring) :
  cookie_ok c = true -> trimStart (cookie_pair c ++ tail) = cookie_pair c ++ tail.
Proof.
  unfold cookie_ok, cookie_pair; intros Hc.
  apply andb_true_iff in Hc as [Hc _]; apply andb_true_iff in Hc as [_ Hc].
  destruct (fst c) as [|x n]; [reflexivity|].
  cbn [app trimStart]; apply negb_true_iff in Hc; now rewrite Hc.
Qed.

Lemma cookie_value_at_pair (c : jsstring * jsstring) (rest : option jsstring) :
  cookie_ok c = true ->
  cookie_value_at (cookie_pair c ++ cookie_tail rest)
  = if jsstring_eqb SERIAL_FILTER_COOKIE (fst c) then Some (snd c) else None.
Proof.
  intros Hc; unfold cookie_value_at.
  rewrite (trimStart_cookie_pair _ _ Hc).
  unfold cookie_pair; rewrite <- !app_assoc.
  change (lit "=") with [61].
  rewrite (strip_prefix_name SERIAL_FILTER_COOKIE (fst c) _ eq_refl
             (cookie_ok_name _ Hc)).
  destruct (jsstring_eqb SERIAL_FILTER_COOKIE (fst c)); [|reflexivity].
  rewrite until_semicolon_tail; [reflexivity|].
  unfold cookie_ok in Hc; now apply andb_true_iff in Hc as [_ Hv].
Qed.

(** The search, once it is past the start of a cookie, finds nothing before
    the next cookie. *)
Lemma cookie_match_unfold (b : bool) (s : jsstring) :
  cookie_match b s =
  match cookie_match_here b s with
  | Some v => Some v
  | None => match s with [] => None | _ :: r => cookie_match false r end
  end.
Proof. destruct s; reflexivity. Qed.

Lemma cookie_match_skip (s : jsstring) (rest : option jsstring) :
  forallb (fun x => negb (x =? 59)) s = true ->
  cookie_match false (s ++ cookie_tail rest) = cookie_match_tail rest.
Proof.
  induction s as [|c s IH]; cbn [forallb app].
  - intros _; destruct rest as [r|]; [|reflexivity].
    cbn [cookie_tail cookie_match_tail].
    change (lit "; " ++ r) with (59 :: 32 :: r).
    rewrite cookie_match_unfold.
    change (cookie_match_here false (59 :: 32 :: r)) with (cookie_value_at r).
    destruct (cookie_value_at r); [reflexivity|].
    now rewrite cookie_match_unfold.
  - intros Hc; apply andb_true_iff in Hc as [Hc Hs].
    apply negb_true_iff in Hc.
    rewrite cookie_match_unfold.
    unfold cookie_match_here; cbn [strip_prefix lit map list_ascii_of_string].
    change (N_of_ascii ";") with 59; rewrite N.eqb_sym, Hc.
    exact (IH Hs).
Qed.

Lemma document_cookie_cons (c : jsstring * jsstring) (jar : CookieJar) :
  document_cookie (c :: jar)
  = cookie_pair c
    ++ cookie_tail (match jar with [] => None | _ :: _ => Some (document_cookie jar) end).
Proof. destruct jar; cbn [document_cookie cookie_tail]; now rewrite ?app_nil_r. Qed.

Lemma cookie_match_from_cookie (jar : CookieJar) :
  jar_ok jar = true -> jar <> [] ->
  match cookie_value_at (document_cookie jar) with
  | Some v => Some v
  | None => cookie_match false (document_cookie jar)
  end = assoc SERIAL_FILTER_COOKIE jar.
Proof.
  induction jar as [|c jar IH]; [congruence|]; intros Hok _.
  cbn [jar_ok forallb] in Hok; apply andb_true_iff in Hok as [Hc Hjar].
  rewrite document_cookie_cons, (cookie_value_at_pair _ _ Hc).
  destruct c as [n v]; cbn [assoc fst snd].
  destruct (jsstring_eqb SERIAL_FILTER_COOKIE n); [reflexivity|].
  rewrite (cookie_match_skip _ _ (cookie_ok_no_semicolon _ Hc)).
  destruct jar as [|c' jar']; [reflexivity|].
  cbn [cookie_match_tail]; apply IH; [exact Hjar|discriminate].
Qed.

(** The pattern finds the value the document holds under the name of the
    store, and nothing else. *)
Lemma cookie_match_jar (jar : CookieJar) :
  jar_ok jar = true ->
  cookie_match true (document_cookie jar) = assoc SERIAL_FILTER_COOKIE jar.
Proof.
  intros Hok; destruct jar as [|c jar]; [reflexivity|].
  rewrite <- (cookie_match_from_cookie (c :: jar) Hok) by discriminate.
  cbn [jar_ok forallb] in Hok; apply andb_true_iff in Hok as [Hc _].
  rewrite cookie_match_unfold; unfold cookie_match_here.
  destruct (cookie_value_at (document_cookie (c :: jar))); [reflexivity|].
  rewrite document_cookie_cons.
  set (rest := match jar with [] => None | _ :: _ => Some (document_cookie jar) end).
  pose proof (cookie_ok_no_semicolon _ Hc) as Hpair.
  rewrite (cookie_match_skip _ rest Hpair).
  destruct (cookie_pair c) as [|x pair] eqn:Epair.
  - destruct c as [n v]; destruct n; discriminate.
  - cbn [forallb] in Hpair; apply andb_true_iff in Hpair as [Hx Hpair].
    apply negb_true_iff in Hx.
    cbn [app strip_prefix lit map list_ascii_of_string].
    change (N_of_ascii ";") with 59; rewrite N.eqb_sym, Hx.
    exact (cookie_match_skip _ rest Hpair).
Qed.

Lemma assoc_jar_put (name value : jsstring) (jar : CookieJar) :
  assoc name (jar_put name value jar) = Some value.
Proof.
  induction jar as [|[n v] jar IH]; cbn [jar_put assoc].
  - now rewrite jsstring_eqb_refl.
  - destruct (jsstring_eqb name n) eqn:E; cbn [assoc]; now rewrite E.
Qed.

Lemma assoc_jar_remove (name : jsstring) (jar : CookieJar) :
  assoc name (jar_remove name jar) = None.
Proof.
  induction jar as [|[n v] jar IH]; [reflexivity|].
  unfold jar_remove in *; cbn [filter fst].
  destruct (jsstring_eqb name n) eqn:E; cbn [negb assoc]; [exact IH|].
  now rewrite E.
Qed.

Lemma jar_remove_idempotent (name : jsstring) (jar : CookieJar) :
  jar_remove name (jar_remove name jar) = jar_remove name jar.
Proof.
  unfold jar_remove; induction jar as [|[n v] jar IH]; [reflexivity|].
  cbn [filter fst]; destruct (jsstring_eqb name n) eqn:E; cbn [negb]; [exact IH|].
  cbn [filter fst]; now rewrite E, IH.
Qed.

Lemma jar_ok_remove (name : jsstring) (jar : CookieJar) :
  jar_ok jar = true -> jar_ok (jar_remove name jar) = true.
Proof.
  unfold jar_ok, jar_remove; induction jar as [|c jar IH]; [reflexivity|].
  cbn [forallb filter]; intros Hok; apply andb_true_iff in Hok as [Hc Hjar].
  destruct (negb _); cbn [forallb]; [now rewrite Hc, IH|auto].
Qed.

Lemma jar_ok_put (name value : jsstring) (jar : CookieJar) :
  cookie_ok (name, value) = true -> jar_ok jar = true ->
  jar_ok (jar_put name value jar) = true.
Proof.
  unfold jar_ok; intros Hnew; induction jar as [|[n v] jar IH];
    cbn [jar_put forallb]; [now rewrite Hnew|].
  intros Hok; apply andb_true_iff in Hok as [Hc Hjar].
  destruct (jsstring_eqb name n) eqn:E; cbn [forallb].
  - apply jsstring_eqb_eq in E; subst n; now rewrite Hnew, Hjar.
  - now rewrite Hc, IH.
Qed.

(** ** The persisted device filter store *)

Section Store.

Context `{Platform}.

Lemma getSerialFilterFromCookie_eq (w : World) :
  getSerialFilterFromCookie w =
  (w, Normal match document w with
             | None => None
             | Some jar =>
                 match cookie_match true (document_cookie jar) with
                 | None => None
                 | Some m1 => read_filter m1
                 end
             end).
Proof.
  unfold getSerialFilterFromCookie, read_filter, bind, get, ret, lift, try_catch.
  destruct (document w) as [jar|]; [|reflexivity].
  destruct (cookie_match true (document_cookie jar)) as [m1|]; [|reflexivity].
  destruct (decodeURIComponent m1) as [decoded|e]; [|reflexivity].
  destruct (JSON_parse decoded) as [parsed|e]; [|reflexivity].
  destruct (as_number (get_property parsed (lit "usbVendorId")));
    destruct (as_number (get_property parsed (lit "usbProductId")));
    reflexivity.
Qed.

Lemma persisted_eq (w : World) (jar : CookieJar) :
  document w = Some jar -> jar_ok jar = true ->
  persisted w = Normal match stored w with
                       | None => None
                       | Some value => read_filter value
                       end.
Proof.
  intros Hdoc Hok; unfold persisted, completion, stored.
  now rewrite getSerialFilterFromCookie_eq, Hdoc, (cookie_match_jar _ Hok).
Qed.

Lemma setSerialFilterCookie_eq (filter : SerialPortFilter) (w : World) :
  setSerialFilterCookie filter w =
  (match document w with
   | None => w
   | Some jar =>
       set_document
         (Some (jar_put SERIAL_FILTER_COOKIE
                  (encodeURIComponent (JSON_stringify (filter_object filter))) jar)) w
   end, Normal tt).
Proof.
  unfold setSerialFilterCookie, bind, get, ret, modify.
  destruct (document w); reflexivity.
Qed.

Lemma clearSerialFilterCookie_eq (w : World) :
  clearSerialFilterCookie w =
  (match document w with
   | None => w
   | Some jar => set_document (Some (jar_remove SERIAL_FILTER_COOKIE jar)) w
   end, Normal tt).
Proof.
  unfold clearSerialFilterCookie, bind, get, ret, modify.
  destruct (document w); reflexivity.
Qed.

Lemma stored_after_clear (w : World) :
  stored (state_after clearSerialFilterCookie w) = None.
Proof.
  unfold state_after, stored; rewrite clearSerialFilterCookie_eq; cbn [fst].
  destruct (document w) as [jar|] eqn:Hdoc; cbn [document set_document].
  - apply assoc_jar_remove.
  - now rewrite Hdoc.
Qed.

Lemma clear_twice (w : World) :
  state_after clearSerialFilterCookie (state_after clearSerialFilterCookie w)
  = state_after clearSerialFilterCookie w.
Proof.
  unfold state_after; rewrite !clearSerialFilterCookie_eq; cbn [fst].
  destruct (document w) as [jar|] eqn:Hdoc; cbn [document set_document].
  - unfold set_document; cbn; now rewrite jar_remove_idempotent.
  - now rewrite Hdoc.
Qed.

(** After the store has written a filter that the host reads back, it
    returns that filter. *)
Lemma persisted_after_save (filter : SerialPortFilter) (w : World) (jar : CookieJar) :
  document w = Some jar -> jar_ok jar = true -> round_trips filter ->
  persisted (state_after (setSerialFilterCookie filter) w) = Normal (Some filter).
Proof.
  intros Hdoc Hok (Hsemi & Hdec & parsed & Hparse & Hv & Hp).
  unfold state_after; rewrite setSerialFilterCookie_eq, Hdoc; cbn [fst].
  erewrite persisted_eq; [|reflexivity|].
  - unfold stored; cbn [document set_document]; rewrite assoc_jar_put.
    unfold read_filter; rewrite Hdec, Hparse, Hv, Hp.
    now destruct filter.
  - apply jar_ok_put; [|exact Hok].
    unfold cookie_ok; cbn [fst snd]; now rewrite Hsemi.
Qed.

(** C9.  [save] puts the encoded filter under the name of the store whatever
    was there before; after any number of calls of [clear], one at least,
    nothing is stored and the state is that after one call; [load] returns
    in every state, and it returns [null] when nothing is stored, when the
    stored value does not decode, when the decoded text does not parse, and
    when the parsed value lacks a numeric [usbVendorId] or [usbProductId]. *)
Theorem persisted_store_contract :
  (forall w jar filter,
      document w = Some jar ->
      completion (setSerialFilterCookie filter) w = Normal tt
      /\ stored (state_after (setSerialFilterCookie filter) w)
         = Some (encodeURIComponent (JSON_stringify (filter_object filter))))
  /\ (forall w n,
        completion clearSerialFilterCookie w = Normal tt
        /\ stored (Nat.iter (S n) (state_after clearSerialFilterCookie) w) = None
        /\ Nat.iter (S n) (state_after clearSerialFilterCookie) w
           = state_after clearSerialFilterCookie w)
  /\ (forall w, exists r, getSerialFilterFromCookie w = (w, Normal r))
  /\ (forall w, document w = None -> persisted w = Normal None)
  /\ (forall w jar,
        document w = Some jar -> jar_ok jar = true -> stored w = None ->
        persisted w = Normal None)
  /\ (forall w jar value,
        document w = Some jar -> jar_ok jar = true -> stored w = Some value ->
        (exists e, decodeURIComponent value = Throw e)
        \/ (exists decoded e,
               decodeURIComponent value = Normal decoded
               /\ JSON_parse decoded = Throw e)
        \/ (exists decoded parsed,
               decodeURIComponent value = Normal decoded
               /\ JSON_parse decoded = Normal parsed
               /\ (as_number (get_property parsed (lit "usbVendorId")) = None
                   \/ as_number (get_property parsed (lit "usbProductId")) = None)) ->
        persisted w = Normal None).
Proof.
  split; [|split; [|split; [|split; [|split]]]].
  - intros w jar filter Hdoc; unfold completion, state_after, stored.
    rewrite setSerialFilterCookie_eq, Hdoc; cbn [fst snd document set_document].
    split; [reflexivity|apply assoc_jar_put].
  - intros w n; split; [|split].
    + unfold completion; now rewrite clearSerialFilterCookie_eq.
    + cbn [Nat.iter]; apply stored_after_clear.
    + induction n as [|n IH]; [reflexivity|].
      change (Nat.iter (S (S n)) (state_after clearSerialFilterCookie) w)
        with (state_after clearSerialFilterCookie
                (Nat.iter (S n) (state_after clearSerialFilterCookie) w)).
      rewrite IH; apply clear_twice.
  - intros w; rewrite getSerialFilterFromCookie_eq; eauto.
  - intros w Hdoc; unfold persisted, completion.
    now rewrite getSerialFilterFromCookie_eq, Hdoc.
  - intros w jar Hdoc Hok Hstored.
    now rewrite (persisted_eq w jar Hdoc Hok), Hstored.
  - intros w jar value Hdoc Hok Hstored Hbad.
    rewrite (persisted_eq w jar Hdoc Hok), Hstored; unfold read_filter.
    destruct Hbad as [[e He]|[(decoded & e & Hd & He)|(decoded & parsed & Hd & Hp & Hn)]].
    + now rewrite He.
    + now rewrite Hd, He.
    + rewrite Hd, Hp; destruct Hn as [-> | ->]; [reflexivity|].
      now destruct (as_number (get_property parsed (lit "usbVendorId"))).
Qed.

End Store.

(** ** The session manager *)

Section Session.

Context `{Platform}.

(** Unfolding of the operations down to functions on the state. *)
Ltac open_ops :=
  unfold connect, disconnect, send, readLoop, reconnect, mount, openPortAndRead,
    port_open, port_close, getReader, writer_write, readLoop_next,
    readLoop_finally, requestPort, setOnTagRead, support_effect,
    reconnect_cleanup, reader_cancel, releaseLock, writer_close, host_call,
    bind, get, modify, ret, lift, throw, try_catch, try_finally.

Lemma persisted_document (w w' : World) :
  document w' = document w -> persisted w' = persisted w.
Proof.
  intros Hdoc; unfold persisted, completion.
  now rewrite !getSerialFilterFromCookie_eq, Hdoc.
Qed.

Lemma load_eq (w : World) : getSerialFilterFromCookie w = (w, persisted w).
Proof. unfold persisted, completion; now rewrite getSerialFilterFromCookie_eq. Qed.

Lemma persisted_returns (w : World) : exists r, persisted w = Normal r.
Proof.
  unfold persisted, completion; rewrite getSerialFilterFromCookie_eq.
  cbn [snd]; eauto.
Qed.

Lemma persisted_saved (w : World) : persisted w = Normal (saved w).
Proof. unfold saved; now destruct (persisted_returns w) as [r ->]. Qed.

Lemma persisted_cleared (w : World) :
  document_ok w -> persisted (state_after clearSerialFilterCookie w) = Normal None.
Proof.
  unfold document_ok, state_after; intros Hok.
  rewrite clearSerialFilterCookie_eq; cbn [fst].
  destruct (document w) as [jar|] eqn:Hdoc.
  - erewrite persisted_eq;
      [|reflexivity|cbn [document set_document]; now apply jar_ok_remove].
    unfold stored; cbn [document set_document]; now rewrite assoc_jar_remove.
  - unfold persisted, completion; now rewrite getSerialFilterFromCookie_eq, Hdoc.
Qed.

Lemma find_loop_put (l : ReadLoop) (ls : list ReadLoop) :
  find_loop (reader l) (put_loop l ls) = Some l.
Proof. unfold find_loop, put_loop; cbn [find]; now rewrite Nat.eqb_refl. Qed.

Lemma find_loop_remove (r : Reader) (ls : list ReadLoop) :
  find_loop r (remove_loop r ls) = None.
Proof.
  unfold find_loop, remove_loop; induction ls as [|l ls IH]; [reflexivity|].
  cbn [filter]; destruct (Nat.eqb (reader l) r) eqn:E; cbn [negb find]; [exact IH|].
  now rewrite E.
Qed.


(** What [connect] does when its attempt throws. *)
Lemma connect_caught (w : World) (picked : Completion SerialPort)
  (settled : Completion unit) (e : JsError) :
  navigator_serial w = true -> connect_fails w picked settled e ->
  connect picked settled w =
  (set_isConnected false
     (set_error (Some (error_text e (lit "Connection failed")))
        (state_after clearSerialFilterCookie
           (set_host_calls (host_calls w ++ attempt_calls (saved w) picked)
              (set_abortRef false (set_error None w))))),
   Normal tt).
Proof.
  intros Hserial Hfails; unfold state_after.
  rewrite clearSerialFilterCookie_eq; cbn [fst].
  open_ops; rewrite Hserial; cbn [negb].
  rewrite load_eq, (persisted_document w), persisted_saved by reflexivity.
  cbn [opened document set_abortRef set_error set_host_calls].
  destruct Hfails as [->|(port & -> & [[Hopen ->]|[Hopen ->]])];
    rewrite ?Hopen, clearSerialFilterCookie_eq;
    cbn [fst document host_calls attempt_calls set_abortRef set_error
         set_host_calls];
    rewrite <- ?app_assoc; destruct (document w); reflexivity.
Qed.

(** C5.  When the chooser is dismissed or the chosen port does not open,
    [connect] returns without raising, nothing is stored any more under the
    name of the store, [load] returns [null], the error field holds the
    message of the failure (or the fixed text for a thrown value that is no
    error), and the provider shows no connection. *)
Theorem connect_failure (w : World) (picked : Completion SerialPort)
  (settled : Completion unit) (e : JsError) :
  navigator_serial w = true ->
  document_ok w ->
  connect_fails w picked settled e ->
  let w' := state_after (connect picked settled) w in
  completion (connect picked settled) w = Normal tt
  /\ stored w' = None
  /\ persisted w' = Normal None
  /\ error w' = Some (error_text e (lit "Connection failed"))
  /\ isConnected w' = false.
Proof.
  intros Hserial Hok Hfails w'; subst w'; unfold completion, state_after.
  rewrite (connect_caught w picked settled e Hserial Hfails); cbn [fst snd].
  set (w1 := set_host_calls _ _).
  assert (Hdoc : document w1 = document w) by reflexivity.
  repeat split.
  - rewrite <- (stored_after_clear w1); reflexivity.
  - rewrite (persisted_document (state_after clearSerialFilterCookie w1))
      by reflexivity.
    apply (persisted_cleared w1); unfold document_ok; now rewrite Hdoc.
Qed.

(** What [openPortAndRead] does while the abort flag is down. *)
Lemma openPortAndRead_eq (port : SerialPort) (w : World) :
  abortRef w = false ->
  openPortAndRead port w =
  (let w1 :=
     set_error None
       (set_isConnected true
          (set_readerRef (Some (next_reader w))
             (set_next_reader (S (next_reader w))
                (set_writerRef (Some (handle port)) (set_portRef (Some port) w))))) in
   let w2 :=
     match identity port with
     | Some f => state_after (setSerialFilterCookie f) w1
     | None => w1
     end in
   set_loops (put_loop {| reader := next_reader w; readBuffer := [] |} (loops w)) w2,
   Normal tt).
Proof.
  intros Habort; unfold state_after, identity; open_ops.
  destruct (info_usbVendorId (getInfo port)) as [v|];
    [destruct (info_usbProductId (getInfo port)) as [p|]|];
    rewrite ?setSerialFilterCookie_eq; cbn [fst];
    try destruct (document _) eqn:Hdoc;
    cbn [abortRef loops set_document set_error set_isConnected set_readerRef
         set_next_reader set_writerRef set_portRef];
    rewrite Habort; reflexivity.
Qed.

(** What [connect] does when the chosen port opens. *)
Lemma connect_opened (w : World) (port : SerialPort) :
  navigator_serial w = true -> is_open (handle port) (opened w) = false ->
  connect (Normal port) (Normal tt) w
  = openPortAndRead port
      (set_opened ((handle port, BAUD) :: opened w)
         (set_host_calls (host_calls w ++ attempt_calls (saved w) (Normal port))
            (set_abortRef false (set_error None w)))).
Proof.
  intros Hs Hc.
  unfold connect, port_open, requestPort, host_call, bind, get, modify, lift,
    try_catch.
  rewrite Hs; cbn [negb].
  rewrite load_eq, (persisted_document w), persisted_saved by reflexivity.
  cbn [opened set_abortRef set_error set_host_calls]; rewrite Hc.
  match goal with
  | |- context [openPortAndRead port ?st] =>
      replace st with
        (set_opened ((handle port, BAUD) :: opened w)
           (set_host_calls (host_calls w ++ attempt_calls (saved w) (Normal port))
              (set_abortRef false (set_error None w))))
        by (cbn; rewrite <- ?app_assoc; reflexivity)
  end.
  rewrite openPortAndRead_eq by reflexivity; reflexivity.
Qed.


(** What [disconnect] does, whatever the three promises do. *)
Lemma disconnect_eq (c1 c2 c3 : Completion unit) (w : World) :
  disconnect c1 c2 c3 w =
  (set_error None
     (set_isConnected false
        (set_portRef None
           (set_opened
              match portRef w, c3 with
              | Some port, Normal _ => close_port (handle port) (opened w)
              | _, _ => opened w
              end
              (set_writerRef None
                 (set_readerRef None
                    (set_host_calls (host_calls w ++ disconnect_calls w)
                       (set_abortRef true w))))))),
   Normal tt).
Proof.
  destruct w as [f1 f2 f3 f4 cb port rd wr ab ns doc op lp out cl nr hc].
  open_ops; unfold disconnect_calls; cbn.
  destruct rd, wr, port, c1, c2, c3; cbn; rewrite <- ?app_assoc, ?app_nil_r;
    reflexivity.
Qed.


(** ** Reconnecting when the provider mounts *)

Lemma reconnect_idle (listed : Completion (list SerialPort))
  (settled : Completion unit) (cleanup : Cleanup) (w : World) :
  navigator_serial w = false \/ persisted w = Normal None ->
  reconnect listed settled cleanup w = (w, Normal tt).
Proof.
  intros Hidle; unfold reconnect, bind, get, ret.
  destruct (navigator_serial w); cbn [negb]; [|reflexivity].
  destruct Hidle as [Hidle|Hidle]; [discriminate|].
  now rewrite load_eq, Hidle.
Qed.

Lemma reconnect_no_port (listed : Completion (list SerialPort))
  (settled : Completion unit) (w : World) (f : SerialPortFilter) :
  navigator_serial w = true -> persisted w = Normal (Some f) ->
  match listed with
  | Normal ports => matching_port f ports = None
  | Throw _ => True
  end ->
  reconnect listed settled Mounted w
  = (set_isReconnecting false
       (set_host_calls (host_calls w ++ [CallGetPorts]) w), Normal tt).
Proof.
  intros Hs Hp Hl.
  unfold reconnect, host_call, bind, get, ret, modify, lift, try_catch.
  rewrite Hs; cbn [negb]; rewrite load_eq, Hp.
  destruct listed as [ports|e]; [rewrite Hl|]; reflexivity.
Qed.

Lemma reconnect_open_fails (ports : list SerialPort) (settled : Completion unit)
  (w : World) (f : SerialPortFilter) (port : SerialPort) (e : JsError) :
  navigator_serial w = true -> persisted w = Normal (Some f) ->
  matching_port f ports = Some port ->
  (is_open (handle port) (opened w) = false /\ settled = Throw e)
  \/ is_open (handle port) (opened w) = true ->
  reconnect (Normal ports) settled Mounted w
  = (set_isReconnecting false
       (state_after clearSerialFilterCookie
          (set_host_calls
             (host_calls w ++ [CallGetPorts; CallOpen (handle port) BAUD]) w)),
     Normal tt).
Proof.
  intros Hs Hp Hm Hf.
  unfold state_after; rewrite clearSerialFilterCookie_eq; cbn [fst].
  unfold reconnect, port_open, host_call, bind, get, ret, modify, lift, throw,
    try_catch, try_finally.
  rewrite Hs; cbn [negb]; rewrite load_eq, Hp, Hm.
  cbn [opened document host_calls set_isReconnecting set_host_calls].
  destruct Hf as [[Hc ->]|Hc]; rewrite Hc; rewrite clearSerialFilterCookie_eq;
    cbn [fst document host_calls set_isReconnecting set_host_calls];
    rewrite <- app_assoc; destruct (document w); reflexivity.
Qed.

Lemma reconnect_opens (ports : list SerialPort) (w : World)
  (f : SerialPortFilter) (port : SerialPort) :
  navigator_serial w = true -> persisted w = Normal (Some f) ->
  matching_port f ports = Some port ->
  is_open (handle port) (opened w) = false ->
  reconnect (Normal ports) (Normal tt) Mounted w
  = (set_isReconnecting false
       (state_after (openPortAndRead port)
          (set_abortRef false
             (set_opened ((handle port, BAUD) :: opened w)
                (set_host_calls
                   (host_calls w ++ [CallGetPorts; CallOpen (handle port) BAUD])
                   (set_isReconnecting true w))))),
     Normal tt).
Proof.
  intros Hs Hp Hm Hc.
  unfold reconnect, port_open, host_call, bind, get, ret, modify, lift, throw,
    try_catch, try_finally.
  rewrite Hs; cbn [negb]; rewrite load_eq, Hp, Hm.
  cbn [opened set_isReconnecting set_host_calls]; rewrite Hc.
  match goal with
  | |- context [openPortAndRead port ?st] =>
      replace st with
        (set_abortRef false
           (set_opened ((handle port, BAUD) :: opened w)
              (set_host_calls
                 (host_calls w ++ [CallGetPorts; CallOpen (handle port) BAUD])
                 (set_isReconnecting true w))))
        by (cbn; rewrite <- ?app_assoc; reflexivity)
  end.
  unfold state_after; rewrite openPortAndRead_eq by reflexivity; reflexivity.
Qed.

Lemma mount_eq (listed : Completion (list SerialPort)) (settled : Completion unit)
  (w : World) :
  mount listed settled w
  = reconnect listed settled Mounted (set_isSupported (navigator_serial w) w).
Proof. reflexivity. Qed.

(** The comparison of the reconnect effect holds of the ports that report
    the saved identity, and of no other. *)
Lemma matches_identity (f : SerialPortFilter) (port : SerialPort) :
  strict_eq (info_usbVendorId (getInfo port)) (usbVendorId f)
  && strict_eq (info_usbProductId (getInfo port)) (usbProductId f) = true
  <-> identity port = Some f.
Proof.
  unfold identity, strict_eq.
  destruct f as [[zv|bv] [zp|bp]],
    (info_usbVendorId (getInfo port)) as [v|],
    (info_usbProductId (getInfo port)) as [p|];
    cbn [usbVendorId usbProductId andb]; split; try discriminate;
    rewrite ?andb_false_r; try discriminate.
  - intros Hb; apply andb_true_iff in Hb; destruct Hb as [Hv Hp].
    apply Z.eqb_eq in Hv, Hp; now subst.
  - intros Hf; injection Hf as <- <-; now rewrite !Z.eqb_refl.
Qed.

Lemma matching_port_none (f : SerialPortFilter) (ports : list SerialPort) :
  matching_port f ports = None
  <-> forall port, In port ports -> identity port <> Some f.
Proof.
  induction ports as [|q ports IH]; cbn [matching_port In].
  - split; [intros _ port []|reflexivity].
  - destruct (strict_eq _ _ && strict_eq _ _) eqn:E.
    + apply matches_identity in E; split; [discriminate|].
      intros Hall; exfalso; exact (Hall q (or_introl eq_refl) E).
    + rewrite IH; split.
      * intros Hall port [<-|Hin]; [|now apply Hall].
        intros Hid; apply matches_identity in Hid; congruence.
      * intros Hall port Hin; apply Hall; now right.
Qed.

Lemma matching_port_first (f : SerialPortFilter) (before after : list SerialPort)
  (port : SerialPort) :
  (forall p, In p before -> identity p <> Some f) ->
  identity port = Some f ->
  matching_port f (before ++ port :: after) = Some port.
Proof.
  intros Hbefore Hid; induction before as [|q before IH]; cbn [app matching_port].
  - apply matches_identity in Hid; now rewrite Hid.
  - destruct (strict_eq _ _ && strict_eq _ _) eqn:E.
    + apply matches_identity in E; exfalso; exact (Hbefore q (or_introl eq_refl) E).
    + apply IH; intros p Hin; apply Hbefore; now right.
Qed.

Lemma matching_port_some (f : SerialPortFilter) (ports : list SerialPort)
  (port : SerialPort) :
  matching_port f ports = Some port ->
  exists before after,
    ports = before ++ port :: after
    /\ (forall p, In p before -> identity p <> Some f)
    /\ identity port = Some f.
Proof.
  induction ports as [|q ports IH]; cbn [matching_port]; [discriminate|].
  destruct (strict_eq _ _ && strict_eq _ _) eqn:E.
  - intros [= <-]; exists [], ports; split; [reflexivity|split; [intros p []|]].
    now apply matches_identity.
  - intros Hm; destruct (IH Hm) as (before & after & -> & Hbefore & Hid).
    exists (q :: before), after; split; [reflexivity|split; [|exact Hid]].
    intros p [<-|Hin]; [|now apply Hbefore].
    intros Hq; apply matches_identity in Hq; congruence.
Qed.

(** The reconnect effect at startup, by the port that its loop finds. *)
Lemma reconnect_cases (jar : CookieJar) (f : SerialPortFilter)
  (ports : list SerialPort) (settled : Completion unit) :
  jar_ok jar = true ->
  let w0 := initial_world true (Some jar) in
  persisted w0 = Normal (Some f) ->
  let w' := state_after (mount (Normal ports) settled) w0 in
  completion (mount (Normal ports) settled) w0 = Normal tt
  /\ isReconnecting w' = false
  /\ error w' = None
  /\ match matching_port f ports with
     | None =>
         host_calls w' = [CallGetPorts]
         /\ isConnected w' = false
         /\ document w' = Some jar
         /\ persisted w' = Normal (Some f)
         /\ opened w' = []
     | Some port =>
         host_calls w' = [CallGetPorts; CallOpen (handle port) BAUD]
         /\ match settled with
            | Throw _ =>
                isConnected w' = false
                /\ stored w' = None
                /\ persisted w' = Normal None
                /\ opened w' = []
            | Normal _ =>
                isConnected w' = true
                /\ portRef w' = Some port
                /\ opened w' = [(handle port, BAUD)]
                /\ exists r,
                     readerRef w' = Some r
                     /\ find_loop r (loops w')
                        = Some {| reader := r; readBuffer := [] |}
            end
     end.
Proof.
  intros Hok w0 Hp w'; subst w'; unfold completion, state_after.
  rewrite mount_eq.
  set (w1 := set_isSupported (navigator_serial w0) w0).
  assert (Hp1 : persisted w1 = Normal (Some f))
    by (rewrite <- Hp; now apply persisted_document).
  destruct (matching_port f ports) as [port|] eqn:Hm.
  - destruct settled as [[]|e].
    + rewrite (reconnect_opens ports w1 f port eq_refl Hp1 Hm eq_refl).
      unfold state_after; rewrite openPortAndRead_eq by reflexivity.
      cbn [fst snd].
      destruct (identity port) as [g|]; unfold state_after;
        rewrite ?setSerialFilterCookie_eq; cbn [fst];
        (do 7 (split; [reflexivity|]));
        exists 0%nat; split; reflexivity.
    + rewrite (reconnect_open_fails ports (Throw e) w1 f port e eq_refl Hp1 Hm)
        by (left; split; reflexivity).
      cbn [fst snd].
      do 5 (split; [reflexivity|]).
      split; [|split; [|reflexivity]].
      * rewrite <- (stored_after_clear
                      (set_host_calls
                         (host_calls w1 ++ [CallGetPorts; CallOpen (handle port) BAUD])
                         w1)); reflexivity.
      * rewrite (persisted_document
                   (state_after clearSerialFilterCookie
                      (set_host_calls
                         (host_calls w1 ++ [CallGetPorts; CallOpen (handle port) BAUD])
                         w1)))
          by reflexivity.
        apply persisted_cleared; exact Hok.
  - rewrite (reconnect_no_port (Normal ports) settled w1 f eq_refl Hp1 Hm).
    cbn [fst snd].
    do 6 (split; [reflexivity|]).
    split; [|reflexivity].
    rewrite <- Hp; now apply persisted_document.
Qed.

(** C6.  At startup, with a filter in the store and Web Serial present, the
    mount effects return without raising, never ask the chooser, and leave
    the reconnecting flag down and the error field empty.  If no authorized
    port reports the stored identity, no port is opened, the provider shows
    no connection and the store is untouched.  Otherwise the first
    authorized port that reports the stored identity is opened, at the
    fixed baud rate, and no other: if it does not open, the provider shows
    no connection and the store is empty; if it opens, the provider shows
    the connection, holds the port, and a read loop with an empty buffer
    waits on its reader.  One of the two cases holds. *)
Theorem reconnect_at_startup (jar : CookieJar) (f : SerialPortFilter)
  (ports : list SerialPort) (settled : Completion unit) :
  jar_ok jar = true ->
  let w0 := initial_world true (Some jar) in
  persisted w0 = Normal (Some f) ->
  let w' := state_after (mount (Normal ports) settled) w0 in
  completion (mount (Normal ports) settled) w0 = Normal tt
  /\ isReconnecting w' = false
  /\ error w' = None
  /\ ((forall port, In port ports -> identity port <> Some f) ->
      host_calls w' = [CallGetPorts]
      /\ isConnected w' = false
      /\ document w' = Some jar
      /\ persisted w' = Normal (Some f)
      /\ opened w' = [])
  /\ (forall before port after,
        ports = before ++ port :: after ->
        (forall p, In p before -> identity p <> Some f) ->
        identity port = Some f ->
        host_calls w' = [CallGetPorts; CallOpen (handle port) BAUD]
        /\ match settled with
           | Throw _ =>
               isConnected w' = false
               /\ stored w' = None
               /\ persisted w' = Normal None
               /\ opened w' = []
           | Normal _ =>
               isConnected w' = true
               /\ portRef w' = Some port
               /\ opened w' = [(handle port, BAUD)]
               /\ exists r,
                    readerRef w' = Some r
                    /\ find_loop r (loops w')
                       = Some {| reader := r; readBuffer := [] |}
           end)
  /\ ((forall port, In port ports -> identity port <> Some f)
      \/ exists before port after,
           ports = before ++ port :: after
           /\ (forall p, In p before -> identity p <> Some f)
           /\ identity port = Some f).
Proof.
  intros Hok w0 Hp w'.
  destruct (reconnect_cases jar f ports settled Hok Hp) as (Hc & Hr & He & Hcases).
  fold w0 w' in Hc, Hr, He, Hcases.
  split; [exact Hc|split; [exact Hr|split; [exact He|split; [|split]]]].
  - intros Hnone; apply matching_port_none in Hnone.
    now rewrite Hnone in Hcases.
  - intros before port after -> Hbefore Hid.
    now rewrite (matching_port_first f before after port Hbefore Hid) in Hcases.
  - destruct (matching_port f ports) as [port|] eqn:Hm.
    + right; destruct (matching_port_some f ports port Hm)
        as (before & after & Hports & Hbefore & Hid).
      now exists before, port, after.
    + left; now apply matching_port_none.
Qed.

(** ** Histories *)

(** What the read loop and [send] leave alone. *)
Lemma readLoop_frame (r : Reader) (settled : Completion ReadResult) (w : World) :
  let w' := state_after (readLoop r settled) w in
  isConnected w' = isConnected w
  /\ portRef w' = portRef w
  /\ writerRef w' = writerRef w
  /\ opened w' = opened w.
Proof.
  unfold state_after; open_ops.
  destruct (find_loop r (loops w)) as [l|]; [|cbn; auto].
  destruct settled as [[value|]|e];
    [destruct (feed (readBuffer l) value) as [lines buffer]| |]; cbn.
  - destruct (abortRef w); cbn; auto.
  - auto.
  - destruct (abortRef w); cbn; auto.
Qed.

Lemma send_frame (text : jsstring) (settled : Completion unit) (w : World) :
  let w' := state_after (send text settled) w in
  isConnected w' = isConnected w
  /\ portRef w' = portRef w
  /\ writerRef w' = writerRef w
  /\ opened w' = opened w.
Proof.
  unfold state_after; open_ops.
  destruct (writerRef w) eqn:E; [destruct settled|]; cbn; rewrite ?E; auto.
Qed.

(** [connect] is refused for want of Web Serial, or its attempt throws, or
    the chosen port opens. *)
Lemma connect_cases (w : World) (picked : Completion SerialPort)
  (settled : Completion unit) :
  navigator_serial w = false
  \/ (navigator_serial w = true /\ exists e, connect_fails w picked settled e)
  \/ (navigator_serial w = true
      /\ exists port,
           picked = Normal port /\ settled = Normal tt
           /\ is_open (handle port) (opened w) = false).
Proof.
  destruct (navigator_serial w); auto; right.
  destruct picked as [port|e];
    [|left; split; [reflexivity|]; exists e; left; reflexivity].
  destruct (is_open (handle port) (opened w)) eqn:E.
  - left; split; [reflexivity|].
    exists InvalidStateError; right; exists port; auto.
  - destruct settled as [[]|e]; [right; eauto|].
    left; split; [reflexivity|]; exists e; right; exists port; auto.
Qed.

Lemma connect_unsupported (w : World) (picked : Completion SerialPort)
  (settled : Completion unit) :
  navigator_serial w = false ->
  connect picked settled w
  = (set_error (Some (lit "Web Serial not supported. Use Chrome or Edge.")) w,
     Normal tt).
Proof. intros Hs; unfold connect, bind, get, modify; now rewrite Hs. Qed.

(** The fields that the invariants speak of, after [connect]. *)
Lemma connect_fields (w : World) (picked : Completion SerialPort)
  (settled : Completion unit) :
  let w' := state_after (connect picked settled) w in
  (portRef w' = portRef w /\ writerRef w' = writerRef w /\ opened w' = opened w
   /\ (isConnected w' = isConnected w \/ isConnected w' = false))
  \/ exists port,
       portRef w' = Some port /\ writerRef w' = Some (handle port)
       /\ opened w' = (handle port, BAUD) :: opened w /\ isConnected w' = true.
Proof.
  destruct (connect_cases w picked settled)
    as [Hs|[[Hs [e Hf]]|(Hs & port & -> & -> & Hc)]]; unfold state_after.
  - left; rewrite (connect_unsupported _ _ _ Hs); cbn; auto.
  - left; rewrite (connect_caught w picked settled e Hs Hf).
    unfold state_after; rewrite clearSerialFilterCookie_eq; cbn [fst].
    cbn [document set_abortRef set_error set_host_calls].
    destruct (document w); cbn; auto.
  - right; exists port.
    rewrite (connect_opened w port Hs Hc), openPortAndRead_eq by reflexivity.
    cbn [fst].
    destruct (identity port); unfold state_after;
      rewrite ?setSerialFilterCookie_eq; cbn [fst];
      try destruct (document _); cbn; auto.
Qed.

Lemma perform_coherent (op : Op) (w : World) :
  coherent w ->
  match op with
  | OpConnect _ _ => isConnected w = false
  | OpDisconnect _ _ closed_port => portRef w = None \/ closed_port = Normal tt
  | _ => True
  end ->
  coherent (state_after (perform op) w).
Proof.
  intros Hco Hop; destruct op as [picked settled|c1 c2 c3|text settled|r settled|cb];
    cbn [perform].
  - destruct (connect_fields w picked settled)
      as [(Hp & Hw & Ho & Hc)|(port & Hp & Hw & Ho & Hc)];
      unfold coherent in *; rewrite Hp.
    + destruct (portRef w); [destruct Hco; congruence|].
      rewrite Hw, Ho; destruct Hco as (? & ? & ?); destruct Hc; split; auto; congruence.
    + destruct (portRef w); [destruct Hco; congruence|].
      destruct Hco as (_ & _ & Hnone); rewrite Hw, Ho, Hnone; auto.
  - unfold state_after, coherent in *; rewrite disconnect_eq; cbn.
    destruct (portRef w) as [port|]; [|tauto].
    destruct Hop as [Hnone | ->]; [discriminate|].
    destruct Hco as (_ & _ & ->); cbn; now rewrite Nat.eqb_refl.
  - destruct (send_frame text settled w) as (Hc & Hp & Hw & Ho).
    unfold coherent in *; now rewrite Hp, Hc, Hw, Ho.
  - destruct (readLoop_frame r settled w) as (Hc & Hp & Hw & Ho).
    unfold coherent in *; now rewrite Hp, Hc, Hw, Ho.
  - exact Hco.
Qed.

Lemma perform_send_guarded (op : Op) (w : World) :
  send_guarded w ->
  match op with
  | OpConnect _ _ => isConnected w = false
  | _ => True
  end ->
  send_guarded (state_after (perform op) w).
Proof.
  intros Hg Hop; destruct op as [picked settled|c1 c2 c3|text settled|r settled|cb];
    cbn [perform].
  - destruct (connect_fields w picked settled)
      as [(Hp & Hw & Ho & Hc)|(port & Hp & Hw & Ho & Hc)];
      unfold send_guarded in *; [|congruence].
    intros _; rewrite Hw; auto.
  - unfold state_after, send_guarded; now rewrite disconnect_eq.
  - destruct (send_frame text settled w) as (Hc & Hp & Hw & Ho).
    unfold send_guarded in *; now rewrite Hc, Hw.
  - destruct (readLoop_frame r settled w) as (Hc & Hp & Hw & Ho).
    unfold send_guarded in *; now rewrite Hc, Hw.
  - exact Hg.
Qed.

Lemma mount_coherent (listed : Completion (list SerialPort))
  (settled : Completion unit) (serial : bool) (doc : option CookieJar) :
  coherent (state_after (mount listed settled) (initial_world serial doc)).
Proof.
  unfold state_after; rewrite mount_eq.
  set (w1 := set_isSupported _ _).
  destruct serial eqn:Hserial;
    [|rewrite reconnect_idle by (left; reflexivity); cbn; auto].
  destruct (persisted_returns w1) as [[f|] Hp];
    [|rewrite reconnect_idle by (right; exact Hp); cbn; auto].
  destruct listed as [ports|e];
    [|rewrite (reconnect_no_port (Throw e) settled w1 f eq_refl Hp I); cbn; auto].
  destruct (matching_port f ports) as [port|] eqn:Hm;
    [|rewrite (reconnect_no_port (Normal ports) settled w1 f eq_refl Hp Hm);
      cbn; auto].
  destruct settled as [[]|e].
  - rewrite (reconnect_opens ports w1 f port eq_refl Hp Hm eq_refl).
    unfold state_after; rewrite openPortAndRead_eq by reflexivity; cbn [fst].
    destruct (identity port); unfold state_after;
      rewrite ?setSerialFilterCookie_eq; cbn [fst];
      try destruct (document _); cbn; auto.
  - rewrite (reconnect_open_fails ports (Throw e) w1 f port e eq_refl Hp Hm)
      by (left; split; reflexivity).
    unfold state_after; rewrite clearSerialFilterCookie_eq; cbn [fst].
    destruct (document _); cbn; auto.
Qed.

Lemma coherent_send_guarded (w : World) : coherent w -> send_guarded w.
Proof.
  unfold coherent, send_guarded; destruct (portRef w); [|tauto].
  intros (-> & _); discriminate.
Qed.

Lemma gated_app (a b : list Op) (w : World) : gated (a ++ b) w -> gated a w.
Proof.
  revert w; induction a as [|op a IH]; intros w; cbn [app gated]; [tauto|].
  intros [Hop Hrest]; split; [exact Hop|now apply IH].
Qed.

Lemma closing_app (a b : list Op) (w : World) : closing (a ++ b) w -> closing a w.
Proof.
  revert w; induction a as [|op a IH]; intros w; cbn [app closing]; [tauto|].
  intros [Hop Hrest]; split; [exact Hop|now apply IH].
Qed.

Lemma run_coherent (ops : list Op) (w : World) :
  coherent w -> gated ops w -> closing ops w -> coherent (run ops w).
Proof.
  revert w; induction ops as [|op ops IH]; intros w Hco Hg Hcl; [exact Hco|].
  cbn [run gated closing] in *; destruct Hg as [Hg Hgs], Hcl as [Hcl Hcls].
  apply IH; [|exact Hgs|exact Hcls].
  apply perform_coherent; [exact Hco|].
  destruct op; auto.
Qed.

Lemma run_send_guarded (ops : list Op) (w : World) :
  send_guarded w -> gated ops w -> send_guarded (run ops w).
Proof.
  revert w; induction ops as [|op ops IH]; intros w Hsg Hg; [exact Hsg|].
  cbn [run gated] in *; destruct Hg as [Hg Hgs].
  apply IH; [|exact Hgs].
  apply perform_send_guarded; [exact Hsg|].
  destruct op; auto.
Qed.

(** Along every history from the mount in which [connect] is called only
    while the provider shows no connection and the host closes the port
    that [disconnect] asks it to close, the references and the host agree
    and at most one port is open.  (The schedules in which calls interleave
    come below.) *)
Lemma one_session_in_sequence (serial : bool) (doc : option CookieJar)
  (listed : Completion (list SerialPort)) (settled : Completion unit)
  (ops later : list Op) :
  let w0 := state_after (mount listed settled) (initial_world serial doc) in
  gated (ops ++ later) w0 ->
  closing (ops ++ later) w0 ->
  coherent (run ops w0) /\ (List.length (opened (run ops w0)) <= 1)%nat.
Proof.
  intros w0 Hg Hc.
  assert (Hco : coherent (run ops w0)).
  { apply run_coherent;
      [apply mount_coherent|exact (gated_app _ _ _ Hg)|exact (closing_app _ _ _ Hc)]. }
  split; [exact Hco|].
  unfold coherent in Hco; destruct (portRef (run ops w0)).
  - destruct Hco as (_ & _ & ->); cbn; lia.
  - destruct Hco as (_ & _ & ->); cbn; lia.
Qed.

Lemma endsWith1_spec (s : jsstring) (c : N) :
  endsWith1 s c = true <-> exists body, s = body ++ [c].
Proof.
  unfold endsWith1; split.
  - destruct (rev s) as [|d r] eqn:E; [discriminate|].
    intros Hd; apply N.eqb_eq in Hd; subst d.
    exists (rev r); now rewrite <- (rev_involutive s), E.
  - intros [body ->]; rewrite rev_app_distr; cbn; apply N.eqb_refl.
Qed.

End Session.

(** [send], as a function on the state. *)
Lemma send_eq (text : jsstring) (settled : Completion unit) (w : World) :
  send text settled w =
  match writerRef w with
  | None => (w, Normal tt)
  | Some writer =>
      let data := TextEncoder_encode (send_text text) in
      let w1 := set_host_calls (host_calls w ++ [CallWrite writer data]) w in
      match settled with
      | Normal _ => (set_written (written w ++ [(writer, data)]) w1, Normal tt)
      | Throw e => (w1, Throw e)
      end
  end.
Proof.
  unfold send, writer_write, host_call, bind, get, modify, ret, throw.
  destruct (writerRef w); [destruct settled|]; reflexivity.
Qed.

(** ** The session, await by await *)

Lemma take_task_split (i : nat) (l : list Await) (a : Await) (others : list Await) :
  take_task i l = Some (a, others) ->
  exists l1 l2, l = l1 ++ a :: l2 /\ others = l1 ++ l2.
Proof.
  revert i a others; induction l as [|b l IH]; intros i a others;
    [destruct i; discriminate|].
  destruct i as [|i]; cbn [take_task].
  - intros E; injection E as <- <-; exists [], l; auto.
  - destruct (take_task i l) as [[c r']|] eqn:E; [|discriminate].
    intros E'; injection E' as <- <-.
    destruct (IH i c r' E) as (l1 & l2 & -> & ->).
    exists (b :: l1), l2; auto.
Qed.

Lemma take_task_frame (i : nat) (l : list Await) (a : Await) (others : list Await) :
  take_task i l = Some (a, others) -> is_session a = false ->
  filter is_session others = filter is_session l.
Proof.
  intros Ht Ha; destruct (take_task_split i l a others Ht) as (l1 & l2 & -> & ->).
  rewrite !filter_app; cbn [filter]; now rewrite Ha.
Qed.

Lemma take_task_session (i : nat) (l : list Await) (a : Await) (others : list Await) :
  take_task i l = Some (a, others) -> is_session a = true ->
  match filter is_session l with
  | [] => False
  | [b] => b = a /\ filter is_session others = []
  | _ => True
  end.
Proof.
  intros Ht Ha; destruct (take_task_split i l a others Ht) as (l1 & l2 & -> & ->).
  rewrite !filter_app; cbn [filter]; rewrite Ha.
  destruct (filter is_session l1) as [|x [|y l1']]; cbn [app].
  - destruct (filter is_session l2); auto.
  - exact I.
  - exact I.
Qed.

Lemma session_busy_false (s : Async) :
  session_busy s = false <-> filter is_session (tasks s) = [].
Proof.
  unfold session_busy; induction (tasks s) as [|a l IH]; cbn [existsb filter];
    [tauto|].
  destruct (is_session a); cbn [orb]; [split; discriminate|exact IH].
Qed.

Lemma coherent_frame (w w' : World) :
  same_session w w' -> coherent w -> coherent w'.
Proof.
  unfold same_session, coherent; intros (Hc & Hp & Hw & Ho).
  now rewrite Hp, Hc, Hw, Ho.
Qed.

Lemma await_invariant_frame (a : Await) (w w' : World) :
  same_session w w' -> await_invariant a w -> await_invariant a w'.
Proof.
  intros Hsame; pose proof (coherent_frame w w' Hsame) as Hco.
  destruct Hsame as (Hc & Hp & Hw & Ho).
  destruct a; cbn [await_invariant]; unfold held_port_open;
    rewrite ?Hp, ?Ho, ?Hw; tauto.
Qed.

(** A step of a session call, when no other session call is under way. *)
Lemma advance_session (m : M (option Await)) (others : list Await) (w : World) :
  filter is_session others = [] -> keeps_session (m w) ->
  session_invariant (advance m others w).
Proof.
  unfold keeps_session, session_invariant, advance; cbn [world tasks].
  intros Hnone; rewrite filter_app, Hnone, app_nil_l.
  destruct (snd (m w)) as [[a|]|e]; cbn [filter]; auto.
  now intros [-> Ha].
Qed.

(** A step that is no part of a session call. *)
Lemma advance_frame (m : M (option Await)) (l others : list Await) (w : World) :
  filter is_session others = filter is_session l -> frames_session w (m w) ->
  session_invariant {| world := w; tasks := l |} ->
  session_invariant (advance m others w).
Proof.
  unfold frames_session, session_invariant, advance; cbn [world tasks].
  intros Hsame [Hframe Hnew]; rewrite filter_app, Hsame.
  replace (filter is_session match snd (m w) with
                             | Normal (Some a) => [a]
                             | _ => []
                             end) with (@nil Await);
    [|destruct (snd (m w)) as [[a|]|e]; cbn [filter]; rewrite ?Hnew; reflexivity].
  rewrite app_nil_r.
  destruct (filter is_session l) as [|a [|b r]]; auto.
  - now apply coherent_frame.
  - now apply await_invariant_frame.
Qed.

Section ScheduleProperties.

Context `{Platform}.

Ltac open_steps :=
  unfold connect_call, connect_chosen, connect_open_settled, connect_catch,
    reconnect_call, reconnect_listed, reconnect_open_settled, open_call, open_settled,
    send_call, send_settled, disconnect_call, disconnect_cancelled,
    disconnect_writer_closed, disconnect_port_closed, disconnect_from_writer,
    disconnect_from_port, disconnect_end, setOnTagRead, support_effect, host_call,
    bind, get, modify, ret, lift, throw, try_catch, try_finally.

(** What [openPortAndRead] leaves of the session, whatever the abort flag. *)
Lemma openPortAndRead_session (port : SerialPort) (w : World) :
  snd (openPortAndRead port w) = Normal tt
  /\ portRef (fst (openPortAndRead port w)) = Some port
  /\ writerRef (fst (openPortAndRead port w)) = Some (handle port)
  /\ isConnected (fst (openPortAndRead port w)) = true
  /\ opened (fst (openPortAndRead port w)) = opened w.
Proof.
  unfold openPortAndRead, getReader, readLoop_next, readLoop_finally, releaseLock,
    host_call, bind, get, modify, ret.
  destruct (info_usbVendorId (getInfo port)) as [v|];
    [destruct (info_usbProductId (getInfo port)) as [p|]|];
    rewrite ?setSerialFilterCookie_eq; cbn [fst snd];
    try destruct (document _) eqn:Hdoc;
    cbn [abortRef loops set_document set_error set_isConnected set_readerRef
         set_next_reader set_writerRef set_portRef];
    destruct (abortRef w); cbn; auto.
Qed.

Lemma connect_catch_session (e : JsError) (w : World) :
  snd (connect_catch e w) = Normal tt
  /\ isConnected (fst (connect_catch e w)) = false
  /\ portRef (fst (connect_catch e w)) = portRef w
  /\ writerRef (fst (connect_catch e w)) = writerRef w
  /\ opened (fst (connect_catch e w)) = opened w.
Proof.
  unfold connect_catch, bind, modify; rewrite clearSerialFilterCookie_eq.
  destruct (document w); cbn; auto.
Qed.

Lemma clearSerialFilterCookie_session (w : World) :
  same_session w (fst (clearSerialFilterCookie w)).
Proof.
  rewrite clearSerialFilterCookie_eq; unfold same_session.
  destruct (document w); cbn; auto.
Qed.

Lemma coherent_idle (w : World) :
  coherent w -> isConnected w = false ->
  portRef w = None /\ writerRef w = None /\ opened w = [].
Proof.
  unfold coherent; destruct (portRef w); [intros (-> & _); discriminate|tauto].
Qed.

Lemma coherent_none (w : World) :
  portRef w = None -> isConnected w = false -> writerRef w = None -> opened w = [] ->
  coherent w.
Proof. unfold coherent; intros ->; auto. Qed.

Lemma connect_call_session (w : World) :
  coherent w -> isConnected w = false -> keeps_session (connect_call w).
Proof.
  intros Hco Hc; destruct (coherent_idle w Hco Hc) as (Hp & Hw & Ho).
  unfold keeps_session; open_steps.
  destruct (navigator_serial w); cbn [negb fst snd].
  - rewrite load_eq; destruct (persisted_returns
                                 (set_abortRef false (set_error None w))) as [f ->].
    cbn [fst snd is_session await_invariant].
    split; [reflexivity|]; split; [|exact Hp].
    apply coherent_none; cbn; assumption.
  - apply coherent_none; cbn; assumption.
Qed.

Lemma connect_chosen_session (others : list Await) (picked : Completion SerialPort)
  (w : World) :
  coherent w -> portRef w = None -> keeps_session (connect_chosen others picked w).
Proof.
  unfold coherent; intros Hco Hp; rewrite Hp in Hco; destruct Hco as (Hc & Hw & Ho).
  unfold keeps_session; destruct picked as [port|e].
  - open_steps; cbn [fst snd is_session await_invariant].
    split; [reflexivity|]; split; [|exact Hp].
    apply coherent_none; cbn; assumption.
  - unfold connect_chosen, bind, ret.
    destruct (connect_catch_session e w) as (Hs & Hc' & Hp' & Hw' & Ho').
    destruct (connect_catch e w) as [w' c]; cbn [fst snd] in *; subst c.
    cbn [fst snd]; apply coherent_none; congruence.
Qed.

Lemma open_settled_session (port : SerialPort) (refused : bool)
  (settled : Completion unit) (w : World) :
  (snd (open_settled port refused settled w) = Normal tt
   /\ fst (open_settled port refused settled w)
      = set_opened ((handle port, BAUD) :: opened w) w)
  \/ (exists e, open_settled port refused settled w = (w, Throw e)).
Proof.
  unfold open_settled, throw, modify.
  destruct refused; [right; eauto|].
  destruct settled as [[]|e]; [left; auto|right; eauto].
Qed.

Lemma connect_opened_session (port : SerialPort) (refused : bool)
  (settled : Completion unit) (w : World) :
  coherent w -> portRef w = None ->
  keeps_session (connect_open_settled port refused settled w).
Proof.
  unfold coherent; intros Hco Hp; rewrite Hp in Hco; destruct Hco as (Hc & Hw & Ho).
  unfold keeps_session, connect_open_settled, bind, ret, try_catch.
  destruct (open_settled_session port refused settled w) as [[Hs Hf]|[e He]].
  - destruct (open_settled port refused settled w) as [w1 c]; cbn [fst snd] in *.
    subst c w1.
    destruct (openPortAndRead_session port
                (set_opened ((handle port, BAUD) :: opened w) w))
      as (Hs' & Hp' & Hw' & Hc' & Ho').
    destruct (openPortAndRead port _) as [w2 c]; cbn [fst snd] in *; subst c.
    cbn [fst snd]; unfold coherent; rewrite Hp', Hw', Hc', Ho'.
    cbn; rewrite Ho; auto.
  - rewrite He.
    destruct (connect_catch_session e w) as (Hs & Hc' & Hp' & Hw' & Ho').
    destruct (connect_catch e w) as [w' c]; cbn [fst snd] in *; subst c.
    cbn [fst snd]; apply coherent_none; congruence.
Qed.

Lemma reconnect_call_session (w : World) :
  coherent w -> isConnected w = false -> keeps_session (reconnect_call w).
Proof.
  intros Hco Hc; destruct (coherent_idle w Hco Hc) as (Hp & Hw & Ho).
  unfold keeps_session; open_steps.
  destruct (navigator_serial w); cbn [negb fst snd]; [|exact Hco].
  rewrite load_eq; destruct (persisted_returns w) as [[f|] ->];
    cbn [fst snd is_session await_invariant]; [|exact Hco].
  split; [reflexivity|]; split; [|exact Hp].
  apply coherent_none; cbn; assumption.
Qed.

Lemma reconnect_listed_session (f : SerialPortFilter) (others : list Await)
  (listed : Completion (list SerialPort)) (w : World) :
  coherent w -> portRef w = None ->
  keeps_session (reconnect_listed f others listed w).
Proof.
  unfold coherent; intros Hco Hp; rewrite Hp in Hco; destruct Hco as (Hc & Hw & Ho).
  unfold keeps_session; destruct listed as [ports|e]; open_steps.
  - destruct (matching_port f ports) as [port|];
      cbn [fst snd is_session await_invariant].
    + split; [reflexivity|]; split; [|exact Hp].
      apply coherent_none; cbn; assumption.
    + apply coherent_none; cbn; assumption.
  - cbn [fst snd]; apply coherent_none; cbn; assumption.
Qed.

Lemma reconnect_opened_session (port : SerialPort) (refused : bool)
  (settled : Completion unit) (w : World) :
  coherent w -> portRef w = None ->
  keeps_session (reconnect_open_settled port refused settled w).
Proof.
  unfold coherent; intros Hco Hp; rewrite Hp in Hco; destruct Hco as (Hc & Hw & Ho).
  unfold keeps_session, reconnect_open_settled, bind, ret, try_catch, try_finally, modify.
  destruct (open_settled_session port refused settled w) as [[Hs Hf]|[e He]].
  - destruct (open_settled port refused settled w) as [w1 c]; cbn [fst snd] in *.
    subst c w1.
    destruct (openPortAndRead_session port
                (set_abortRef false (set_opened ((handle port, BAUD) :: opened w) w)))
      as (Hs' & Hp' & Hw' & Hc' & Ho').
    destruct (openPortAndRead port _) as [w2 c]; cbn [fst snd] in *; subst c.
    cbn [fst snd]; unfold coherent; cbn; rewrite Hp', Hw', Hc', Ho'.
    cbn; rewrite Ho; auto.
  - rewrite He, clearSerialFilterCookie_eq.
    destruct (document w); cbn [fst snd]; apply coherent_none; cbn; assumption.
Qed.

Lemma held_port_open_of_coherent (w : World) : coherent w -> held_port_open w.
Proof.
  unfold coherent, held_port_open; destruct (portRef w); tauto.
Qed.

Lemma disconnect_from_port_session (w : World) :
  held_port_open w -> writerRef w = None -> keeps_session (disconnect_from_port w).
Proof.
  unfold held_port_open, keeps_session; intros Ho Hw; open_steps.
  destruct (portRef w) as [port|] eqn:Hp; cbn [fst snd is_session await_invariant].
  - split; [reflexivity|]; cbn; auto.
  - apply coherent_none; cbn; auto.
Qed.

Lemma disconnect_from_writer_session (w : World) :
  held_port_open w -> keeps_session (disconnect_from_writer w).
Proof.
  intros Ho; unfold disconnect_from_writer, bind, get.
  destruct (writerRef w) as [writer|] eqn:Hw;
    [|now apply disconnect_from_port_session].
  unfold keeps_session, host_call, modify, ret, bind;
    cbn [fst snd is_session await_invariant].
  split; [reflexivity|exact Ho].
Qed.

Lemma disconnect_call_session (w : World) :
  coherent w -> keeps_session (disconnect_call w).
Proof.
  intros Hco; apply held_port_open_of_coherent in Hco.
  unfold disconnect_call, bind, get, modify; cbn [readerRef set_abortRef].
  destruct (readerRef w) as [r|].
  - unfold keeps_session, host_call, modify, ret, bind;
      cbn [fst snd is_session await_invariant].
    split; [reflexivity|exact Hco].
  - now apply disconnect_from_writer_session.
Qed.

Lemma disconnect_cancelled_session (w : World) :
  held_port_open w -> keeps_session (disconnect_cancelled w).
Proof.
  intros Ho; unfold disconnect_cancelled, bind, modify.
  now apply disconnect_from_writer_session.
Qed.

Lemma disconnect_writer_closed_session (w : World) :
  held_port_open w -> keeps_session (disconnect_writer_closed w).
Proof.
  intros Ho; unfold disconnect_writer_closed, bind, modify.
  now apply disconnect_from_port_session.
Qed.

Lemma disconnect_port_closed_session (port : SerialPort) (w : World) :
  await_invariant (AwaitClosePort port) w ->
  keeps_session (disconnect_port_closed port (Normal tt) w).
Proof.
  cbn [await_invariant]; intros (Hp & Ho & Hw).
  unfold keeps_session; open_steps; cbn [fst snd].
  apply coherent_none; cbn; auto.
  rewrite Ho; cbn; now rewrite Nat.eqb_refl.
Qed.

(** The steps that are no part of a session call. *)
Lemma send_call_frame (text : jsstring) (w : World) :
  frames_session w (send_call text w).
Proof.
  unfold frames_session, same_session; open_steps.
  destruct (writerRef w) eqn:Hw; cbn; rewrite ?Hw; auto.
Qed.

Lemma send_settled_frame (writer : Writer) (data : Uint8Array)
  (settled : Completion unit) (w : World) :
  frames_session w ((send_settled writer data settled ;; ret None) w).
Proof.
  unfold frames_session, same_session; open_steps.
  destruct settled as [[]|e]; cbn; auto.
Qed.

Lemma setOnTagRead_frame (callback : option Consumer) (w : World) :
  frames_session w ((setOnTagRead callback ;; ret None) w).
Proof. unfold frames_session, same_session; open_steps; cbn; auto. Qed.

Lemma readLoop_frames (r : Reader) (settled : Completion ReadResult) (w : World) :
  frames_session w ((readLoop r settled ;; ret None) w).
Proof.
  pose proof (readLoop_frame r settled w) as Hf; unfold state_after in Hf.
  unfold frames_session, same_session, bind, ret.
  destruct (readLoop r settled w) as [w' [[]|e]]; cbn [fst snd] in *; auto.
Qed.

(** One event under the discipline. *)
Lemma step_session_invariant (ev : Event) (s : Async) :
  session_invariant s ->
  match ev with
  | CallConnect => session_busy s = false /\ isConnected (world s) = false
  | CallDisconnect => session_busy s = false
  | Settled i settled =>
      match take_task i (tasks s) with
      | Some (AwaitClosePort _, _) => settled = Normal tt
      | _ => True
      end
  | _ => True
  end ->
  session_invariant (step ev s).
Proof.
  intros Hinv Hev; destruct s as [w l].
  destruct ev as [| |text|cb|i listed|i picked|i settled|r settled];
    cbn [step world tasks] in *.
  - destruct Hev as [Hbusy Hc]; apply session_busy_false in Hbusy; cbn [tasks] in Hbusy.
    unfold session_invariant in Hinv; cbn [world tasks] in Hinv; rewrite Hbusy in Hinv.
    apply advance_session; [exact Hbusy|now apply connect_call_session].
  - apply session_busy_false in Hev; cbn [tasks] in Hev.
    unfold session_invariant in Hinv; cbn [world tasks] in Hinv; rewrite Hev in Hinv.
    apply advance_session; [exact Hev|now apply disconnect_call_session].
  - apply (advance_frame _ l); [reflexivity|apply send_call_frame|exact Hinv].
  - apply (advance_frame _ l); [reflexivity|apply setOnTagRead_frame|exact Hinv].
  - destruct (take_task i l) as [[a others]|] eqn:Ht; [|exact Hinv].
    destruct a; try exact Hinv.
    pose proof (take_task_session i l _ others Ht eq_refl) as Hone.
    unfold session_invariant in Hinv; cbn [world tasks] in Hinv.
    destruct (filter is_session l) as [|b [|c rest]]; [contradiction| |contradiction].
    destruct Hone as [-> Hnone]; cbn [await_invariant] in Hinv; destruct Hinv.
    apply advance_session; [exact Hnone|now apply reconnect_listed_session].
  - destruct (take_task i l) as [[a others]|] eqn:Ht; [|exact Hinv].
    destruct a; try exact Hinv.
    pose proof (take_task_session i l _ others Ht eq_refl) as Hone.
    unfold session_invariant in Hinv; cbn [world tasks] in Hinv.
    destruct (filter is_session l) as [|b [|c rest]]; [contradiction| |contradiction].
    destruct Hone as [-> Hnone]; cbn [await_invariant] in Hinv; destruct Hinv.
    apply advance_session; [exact Hnone|now apply connect_chosen_session].
  - destruct (take_task i l) as [[a others]|] eqn:Ht; [|exact Hinv].
    destruct a as [f|port refused| |port refused| | |port|writer data];
      try exact Hinv;
      try (pose proof (take_task_session i l _ others Ht eq_refl) as Hone;
           unfold session_invariant in Hinv; cbn [world tasks] in Hinv;
           destruct (filter is_session l) as [|b [|c rest]];
           [contradiction| |contradiction];
           destruct Hone as [-> Hnone]; cbn [await_invariant] in Hinv;
           apply advance_session; [exact Hnone|]).
    + destruct Hinv; now apply reconnect_opened_session.
    + destruct Hinv; now apply connect_opened_session.
    + now apply disconnect_cancelled_session.
    + now apply disconnect_writer_closed_session.
    + subst settled; now apply disconnect_port_closed_session.
    + apply (advance_frame _ l);
        [now apply (take_task_frame i l (AwaitWrite writer data))
        |apply send_settled_frame|exact Hinv].
  - apply (advance_frame _ l); [reflexivity|apply readLoop_frames|exact Hinv].
Qed.

Lemma mounted_session_invariant (serial : bool) (doc : option CookieJar) :
  session_invariant (mounted serial doc).
Proof.
  unfold mounted; apply advance_session; [reflexivity|].
  unfold bind, support_effect, get, modify.
  apply reconnect_call_session; [|reflexivity].
  apply coherent_none; reflexivity.
Qed.


Lemma steps_session_invariant (events : list Event) (s : Async) :
  session_invariant s -> disciplined events s -> session_invariant (steps events s).
Proof.
  revert s; induction events as [|ev events IH]; intros s Hinv Hd; [exact Hinv|].
  cbn [steps disciplined] in *; destruct Hd as [Hev Hrest].
  apply IH; [|exact Hrest].
  apply step_session_invariant; [exact Hinv|].
  destruct ev; auto.
Qed.

Lemma filter_session_head (l : list Await) (a : Await) (r : list Await) :
  filter is_session l = a :: r -> is_session a = true.
Proof.
  intros E; assert (Hin : In a (filter is_session l)) by (rewrite E; now left).
  now apply filter_In in Hin.
Qed.

Lemma session_invariant_one_port (s : Async) :
  session_invariant s ->
  (List.length (opened (world s)) <= 1)%nat
  /\ (session_busy s = false -> coherent (world s)).
Proof.
  unfold session_invariant; intros Hinv; split.
  - assert (Hheld : held_port_open (world s)).
    { destruct (filter is_session (tasks s)) as [|a [|b r]] eqn:E; [| |contradiction].
      - now apply held_port_open_of_coherent.
      - apply filter_session_head in E.
        destruct a; cbn [await_invariant] in Hinv;
          try (apply held_port_open_of_coherent; tauto); try exact Hinv;
          [|discriminate].
        unfold held_port_open; destruct Hinv as (-> & -> & _); reflexivity. }
    unfold held_port_open in Hheld; destruct (portRef (world s)); rewrite Hheld;
      cbn; lia.
  - intros Hbusy; apply session_busy_false in Hbusy; now rewrite Hbusy in Hinv.
Qed.

(** ** The operations in one step are schedules *)

Lemma steps_app (a b : list Event) (s : Async) :
  steps (a ++ b) s = steps b (steps a s).
Proof. revert s; induction a as [|ev a IH]; intros s; [reflexivity|apply IH]. Qed.

Lemma connect_call_eq (w : World) :
  connect_call w =
  if navigator_serial w
  then (set_host_calls (host_calls w ++ [CallRequestPort (saved w)])
          (set_abortRef false (set_error None w)),
        Normal (Some AwaitRequestPort))
  else (set_error (Some (lit "Web Serial not supported. Use Chrome or Edge.")) w,
        Normal None).
Proof.
  unfold connect_call, bind, get, modify, host_call, ret.
  destruct (navigator_serial w); cbn [negb]; [|reflexivity].
  now rewrite load_eq, (persisted_document w), persisted_saved by reflexivity.
Qed.

Lemma connect_is_a_schedule (picked : Completion SerialPort)
  (settled : Completion unit) (w : World) :
  steps [CallConnect; PortChosen 0 picked; Settled 0 settled]
    {| world := w; tasks := [] |}
  = {| world := state_after (connect picked settled) w; tasks := [] |}.
Proof.
  unfold state_after; cbn [steps].
  assert (E1 : step CallConnect {| world := w; tasks := [] |}
               = advance connect_call [] w) by reflexivity.
  rewrite E1; unfold advance at 1; rewrite connect_call_eq.
  unfold connect, bind at 1, get; cbn [fst snd].
  destruct (navigator_serial w); cbn [negb fst snd app];
    [|reflexivity].
  unfold bind, modify, host_call, requestPort, lift, try_catch.
  rewrite load_eq, (persisted_document w), persisted_saved by reflexivity.
  destruct picked as [port|e]; cbn [step take_task tasks world].
  - unfold advance at 2, connect_chosen, open_call, port_open, host_call, bind, get,
      modify, ret, throw;
      cbn [fst snd app tasks world take_task opening existsb step].
    unfold advance, connect_open_settled, open_settled, bind, ret, try_catch, throw,
      modify; cbn [fst snd app tasks world take_task step].
    rewrite orb_false_r.
    change (opened (set_host_calls _ (set_host_calls _ (set_abortRef false (set_error None w)))))
      with (opened w).
    change (opened (set_host_calls _ (set_abortRef false (set_error None w))))
      with (opened w).
    change (opened (set_abortRef false (set_error None w))) with (opened w).
    destruct (is_open (handle port) (opened w));
      unfold advance, connect_open_settled, open_settled, bind, ret, try_catch, throw,
        modify; cbn [fst snd app tasks world take_task step].
    + unfold connect_catch, bind, modify.
      destruct (clearSerialFilterCookie _) as [w2 [[]|e']]; reflexivity.
    + destruct settled as [[]|e]; cbn [fst snd app].
      * destruct (openPortAndRead port _) as [w2 [[]|e]]; cbn [fst snd app];
          [reflexivity|].
        unfold connect_catch, bind, modify.
        destruct (clearSerialFilterCookie _) as [w3 [[]|e']]; reflexivity.
      * unfold connect_catch, bind, modify.
        destruct (clearSerialFilterCookie _) as [w2 [[]|e']]; reflexivity.
  - unfold advance, connect_chosen, connect_catch, host_call, bind, modify, ret,
      throw.
    cbn [fst snd app tasks world take_task host_calls set_abortRef set_error].
    destruct (clearSerialFilterCookie _) as [w2 [[]|e']]; reflexivity.
Qed.

Lemma disconnect_is_a_schedule (c1 c2 c3 : Completion unit) (w : World) :
  steps (schedule (OpDisconnect c1 c2 c3) w) {| world := w; tasks := [] |}
  = {| world := state_after (disconnect c1 c2 c3) w; tasks := [] |}.
Proof.
  unfold state_after; rewrite disconnect_eq; cbn [fst schedule].
  unfold disconnect_calls.
  destruct w as [f1 f2 f3 f4 cb port rd wr ab ns doc op lp out cl nr hc].
  destruct rd, wr, port, c3; cbn; rewrite <- ?app_assoc, ?app_nil_r; reflexivity.
Qed.

Lemma send_is_a_schedule (text : jsstring) (settled : Completion unit) (w : World) :
  steps (schedule (OpSend text settled) w) {| world := w; tasks := [] |}
  = {| world := state_after (send text settled) w; tasks := [] |}.
Proof.
  unfold state_after; rewrite send_eq; cbn [schedule steps step tasks world].
  unfold advance, send_call, send_settled, host_call, bind, get, modify, ret, throw.
  destruct (writerRef w) as [writer|]; cbn [fst snd app step take_task tasks world];
    [|reflexivity].
  destruct settled as [[]|e]; reflexivity.
Qed.

Lemma perform_is_a_schedule (op : Op) (w : World) :
  steps (schedule op w) {| world := w; tasks := [] |}
  = {| world := state_after (perform op) w; tasks := [] |}.
Proof.
  destruct op as [picked settled|c1 c2 c3|text settled|r settled|callback].
  - apply connect_is_a_schedule.
  - apply disconnect_is_a_schedule.
  - apply send_is_a_schedule.
  - unfold state_after; cbn [schedule steps step perform tasks world].
    unfold advance, bind, ret.
    destruct (readLoop r settled w) as [w' [[]|e]]; reflexivity.
  - reflexivity.
Qed.

Lemma run_is_a_schedule (ops : list Op) (w : World) :
  steps (schedule_of ops w) {| world := w; tasks := [] |}
  = {| world := run ops w; tasks := [] |}.
Proof.
  revert w; induction ops as [|op ops IH]; intros w; [reflexivity|].
  cbn [schedule_of run]; rewrite steps_app, perform_is_a_schedule; apply IH.
Qed.

Lemma reconnect_is_a_schedule (listed : Completion (list SerialPort))
  (settled : Completion unit) (w : World) :
  steps [PortsListed 0 listed; Settled 0 settled] (advance reconnect_call [] w)
  = {| world := state_after (reconnect listed settled Mounted) w; tasks := [] |}.
Proof.
  unfold state_after, reconnect, reconnect_call, advance at 1, host_call, bind, get,
    modify, ret, lift, try_catch, try_finally.
  destruct (navigator_serial w); cbn [negb fst snd app steps step tasks world take_task];
    [|reflexivity].
  rewrite !load_eq.
  destruct (persisted w) as [[f|]|e];
    cbn [fst snd app steps step tasks world take_task]; [|reflexivity|reflexivity].
  unfold advance at 2, reconnect_listed, bind, modify, ret.
  destruct listed as [ports|e]; cbn [fst snd app steps step tasks world take_task];
    [|reflexivity].
  destruct (matching_port f ports) as [port|];
    [|reflexivity].
  unfold open_call, port_open, host_call, bind, get, modify, ret, throw;
    cbn [fst snd app steps step tasks world take_task opening existsb].
  unfold advance, reconnect_open_settled, open_settled, try_finally, try_catch, bind,
    modify, ret, throw; cbn [fst snd app steps step tasks world take_task].
  rewrite orb_false_r.
  change (opened (set_host_calls _ (set_host_calls _ (set_isReconnecting true w))))
    with (opened w).
  change (opened (set_host_calls _ (set_isReconnecting true w))) with (opened w).
  destruct (is_open (handle port) (opened w));
    unfold advance, reconnect_open_settled, open_settled, try_finally, try_catch, bind,
      modify, ret, throw; cbn [fst snd app steps step tasks world take_task].
  - destruct (clearSerialFilterCookie _) as [w3 [[]|e']]; reflexivity.
  - destruct settled as [[]|e]; cbn [fst snd app].
    + destruct (openPortAndRead port _) as [w2 [[]|e]]; cbn [fst snd app];
        [reflexivity|].
      destruct (clearSerialFilterCookie _) as [w3 [[]|e']]; reflexivity.
    + destruct (clearSerialFilterCookie _) as [w3 [[]|e']]; reflexivity.
Qed.

Lemma mount_is_a_schedule (serial : bool) (doc : option CookieJar)
  (listed : Completion (list SerialPort)) (settled : Completion unit) :
  steps [PortsListed 0 listed; Settled 0 settled] (mounted serial doc)
  = {| world := state_after (mount listed settled) (initial_world serial doc);
       tasks := [] |}.
Proof.
  change (mounted serial doc)
    with (advance reconnect_call []
            (set_isSupported serial (initial_world serial doc))).
  rewrite reconnect_is_a_schedule; reflexivity.
Qed.

(** ** One session, and what [send] transmits *)


Lemma coherent_connected (w : World) :
  coherent w -> (isConnected w = false <-> writerRef w = None).
Proof.
  unfold coherent; destruct (portRef w) as [port|].
  - intros (-> & -> & _); split; discriminate.
  - intros (-> & -> & _); split; reflexivity.
Qed.


(** C8, as the code has it.  [send] tests the writer and nothing else.
    While a writer is held, the call makes one call on the host, a write of
    the encoding of [text] with a line feed appended exactly when [text]
    does not end with one, and waits for it; the bytes are transmitted when
    the write is fulfilled, and a rejected write is raised to the caller.
    While no writer is held, [send] changes nothing, leaves nothing pending,
    transmits nothing and does not raise.  No connection shown and no
    writer held are the same moments only along the schedules of C3, while
    no call is under way. *)
Theorem send_contract (text : jsstring) (s : Async) :
  let w := world s in
  let data := TextEncoder_encode (send_text text) in
  (forall writer,
      writerRef w = Some writer ->
      step (CallSend text) s
      = {| world := set_host_calls (host_calls w ++ [CallWrite writer data]) w;
           tasks := tasks s ++ [AwaitWrite writer data] |}
      /\ send text (Normal tt) w
         = (set_written (written w ++ [(writer, data)])
              (set_host_calls (host_calls w ++ [CallWrite writer data]) w),
            Normal tt)
      /\ forall e,
           send text (Throw e) w
           = (set_host_calls (host_calls w ++ [CallWrite writer data]) w, Throw e))
  /\ (writerRef w = None ->
      step (CallSend text) s = s
      /\ forall write_settled, send text write_settled w = (w, Normal tt))
  /\ ((exists body, text = body ++ [LF]) -> send_text text = text)
  /\ (~ (exists body, text = body ++ [LF]) -> send_text text = text ++ [LF])
  /\ TextEncoder_encode (send_text (lit "READ")) = lit "READ" ++ [LF]
  /\ TextEncoder_encode (send_text (lit "READ" ++ [LF])) = lit "READ" ++ [LF]
  /\ (forall serial doc events,
        disciplined events (mounted serial doc) ->
        s = steps events (mounted serial doc) ->
        session_busy s = false ->
        (isConnected w = false <-> writerRef w = None)).
Proof.
  intros w data.
  split; [|split; [|split; [|split; [|split; [|split]]]]]; try reflexivity.
  - intros writer Hw; split; [|split; [|intros e]]; rewrite ?send_eq, ?Hw;
      try reflexivity.
    cbn [step]; unfold advance, send_call, host_call, bind, get, modify, ret.
    fold w; rewrite Hw; reflexivity.
  - intros Hw; split; [|intros write_settled; now rewrite send_eq, Hw].
    cbn [step]; unfold advance, send_call, bind, get, ret.
    fold w; rewrite Hw; cbn [fst snd]; rewrite app_nil_r; now destruct s.
  - intros Hlf; apply endsWith1_spec in Hlf; unfold send_text; now rewrite Hlf.
  - intros Hlf; unfold send_text.
    destruct (endsWith1 text LF) eqn:E; [|reflexivity].
    exfalso; apply Hlf; now apply endsWith1_spec.
  - intros serial doc events Hd -> Hidle.
    apply coherent_connected, session_invariant_one_port; [|exact Hidle].
    apply steps_session_invariant; [apply mounted_session_invariant|exact Hd].
Qed.

End ScheduleProperties.

(** ** The context outside of a provider *)

(** C10.  Without a provider above it, [useSerialContext] returns, and what
    it returns shows no support, no connection, no reconnecting and no
    error; its four functions change nothing and return. *)
Theorem useSerialContext_outside_provider :
  exists stub,
    useSerialContext None = Normal stub
    /\ ctx_isSupported stub = false
    /\ ctx_isConnected stub = false
    /\ ctx_isReconnecting stub = false
    /\ ctx_error stub = None
    /\ (forall picked settled w, ctx_connect stub picked settled w = (w, Normal tt))
    /\ (forall c1 c2 c3 w, ctx_disconnect stub c1 c2 c3 w = (w, Normal tt))
    /\ (forall text settled w, ctx_send stub text settled w = (w, Normal tt))
    /\ (forall callback w, ctx_setOnTagRead stub callback w = (w, Normal tt)).
Proof.
  eexists; split; [reflexivity|].
  cbn; repeat split.
Qed.

(** ** The statements on concrete histories *)

Section Concrete.

Import ReferenceHost.

(** Along a history, [connect] called while the provider shows a connection
    opens a second port over the first. *)
Lemma connect_while_connected_opens_second_port :
  isConnected (run [OpConnect (Normal reader_a) (Normal tt)] startup) = true
  /\ opened (run [OpConnect (Normal reader_a) (Normal tt);
                  OpConnect (Normal reader_b) (Normal tt)] startup)
     = [(2%nat, BAUD); (1%nat, BAUD)]
  /\ ~ (List.length
          (opened (run [OpConnect (Normal reader_a) (Normal tt);
                        OpConnect (Normal reader_b) (Normal tt)] startup)) <= 1)%nat.
Proof. vm_compute; repeat split; intros Hle; inversion Hle as [|? Hle']; inversion Hle'. Qed.

(** One chunk through the read loop of the provider, with consumer 7
    registered: of a menu-mode line, a bare acknowledgment, a menu-mode line
    with an empty value, noise and a command-mode line, the first and the
    last reach the consumer. *)
Example read_loop_delivers_tags :
  calls
    (run [OpConnect (Normal reader_a) (Normal tt);
          OpSetOnTagRead (Some 7%nat);
          OpRead 0%nat
            (Normal (Chunk (lit "User ID: " ++ [DQUOTE] ++ lit "AB12" ++ [DQUOTE; CR; LF]
                            ++ lit "OK|READ|" ++ [LF]
                            ++ lit "User ID: " ++ [DQUOTE; DQUOTE; LF]
                            ++ lit "Place card" ++ [LF]
                            ++ lit "OK|READ|CD34" ++ [LF])))]
       startup)
  = [(7%nat, lit "AB12"); (7%nat, lit "CD34")].
Proof. reflexivity. Qed.


(** The user dismisses the chooser while a filter is stored. *)
Lemma connect_failure_witness :
  persisted (initial_world true (Some saved_jar)) = Normal (Some reader_filter)
  /\ persisted (state_after (connect (Throw NotFoundError) (Normal tt))
                  (initial_world true (Some saved_jar))) = Normal None
  /\ error (state_after (connect (Throw NotFoundError) (Normal tt))
              (initial_world true (Some saved_jar)))
     = Some (lit "No port selected by the user.").
Proof.
  destruct (connect_failure (H := host) (initial_world true (Some saved_jar))
              (Throw NotFoundError) (Normal tt) NotFoundError
              eq_refl eq_refl (or_introl eq_refl))
    as (_ & _ & Hp & He & _).
  split; [reflexivity|split; [exact Hp|exact He]].
Defined.

(** The stored reader is authorized but does not open. *)
Lemma reconnect_at_startup_witness :
  isConnected (state_after (mount (Normal [reader_b; reader_a]) (Throw NetworkError))
                 (initial_world true (Some saved_jar))) = false
  /\ error (state_after (mount (Normal [reader_b; reader_a]) (Throw NetworkError))
              (initial_world true (Some saved_jar))) = None
  /\ persisted (state_after (mount (Normal [reader_b; reader_a]) (Throw NetworkError))
                  (initial_world true (Some saved_jar))) = Normal None.
Proof.
  destruct (reconnect_at_startup (H := host) saved_jar reader_filter
              [reader_b; reader_a]
              (Throw NetworkError) eq_refl eq_refl)
    as (_ & _ & He & _ & Hfirst & _).
  destruct (Hfirst [] reader_b [reader_a] eq_refl) as (_ & Hc & _ & Hp & _);
    [intros p []|reflexivity|].
  split; [exact Hc|split; [exact He|exact Hp]].
Defined.


(** A stored value that is cut short does not decode. *)
Lemma persisted_store_contract_witness :
  stored (initial_world true (Some broken_jar)) = Some (lit "%7B%2")
  /\ persisted (initial_world true (Some broken_jar)) = Normal None.
Proof.
  destruct (persisted_store_contract (H := host)) as (_ & _ & _ & _ & _ & Hbad).
  split; [reflexivity|].
  apply (Hbad (initial_world true (Some broken_jar)) broken_jar (lit "%7B%2")
           eq_refl eq_refl eq_refl).
  left; exists URIError; reflexivity.
Defined.

End Concrete.

(** ** The schedules on the reference host *)

Section ScheduleConcrete.

Import ReferenceHost.



(** C8, as the design document has it, fails.  After two overlapping calls
    of [connect], each made while the provider shows no connection, of which
    the first connects and the second is dismissed, the provider shows no
    connection and holds a writer: [send] transmits, and raises when the
    write is rejected. *)
Lemma send_transmits_while_not_connected :
  gated_calls (H := host) dismissed_second_chooser host_mounted
  /\ tasks (steps dismissed_second_chooser host_mounted) = []
  /\ isConnected (world (steps dismissed_second_chooser host_mounted)) = false
  /\ writerRef (world (steps dismissed_second_chooser host_mounted)) = Some 1%nat
  /\ written (state_after (send (lit "READ") (Normal tt))
                (world (steps dismissed_second_chooser host_mounted)))
     = [(1%nat, lit "READ" ++ [LF])]
  /\ completion (send (lit "READ") (Throw NetworkError))
       (world (steps dismissed_second_chooser host_mounted))
     = Throw NetworkError
  /\ host_calls (world (steps [CallSend (lit "READ")]
                          (steps dismissed_second_chooser host_mounted)))
     = host_calls (world (steps dismissed_second_chooser host_mounted))
       ++ [CallWrite 1%nat (lit "READ" ++ [LF])].
Proof. vm_compute; repeat split. Qed.

(** [send] once an orderly session has disconnected. *)
Lemma send_contract_witness :
  isConnected (world (steps orderly_disconnected host_mounted)) = false
  /\ writerRef (world (steps orderly_disconnected host_mounted)) = None
  /\ send (lit "READ") (Throw NetworkError)
       (world (steps orderly_disconnected host_mounted))
     = (world (steps orderly_disconnected host_mounted), Normal tt).
Proof.
  destruct (send_contract (H := host) (lit "READ")
              (steps orderly_disconnected host_mounted))
    as (_ & Hnone & _ & _ & _ & _ & Hsame).
  assert (Hoff : isConnected (world (steps orderly_disconnected host_mounted)) = false)
    by reflexivity.
  assert (Hw : writerRef (world (steps orderly_disconnected host_mounted)) = None).
  { apply (Hsame true (Some theme_jar) orderly_disconnected);
      [vm_compute; repeat split|reflexivity|reflexivity|exact Hoff]. }
  split; [exact Hoff|split; [exact Hw|]].
  apply (proj2 (Hnone Hw)).
Defined.

End ScheduleConcrete.

(** * Further properties of the code *)

(** ** Trimming *)

Lemma trimStart_head (s : jsstring) (c : N) (r : jsstring) :
  trimStart s = c :: r -> isWhiteSpace c = false.
Proof.
  induction s as [|x s IH]; [discriminate|]; cbn [trimStart].
  destruct (isWhiteSpace x) eqn:Hx; [exact IH|].
  intros E; inversion E; subst; exact Hx.
Qed.

Lemma trimStart_fixed (s : jsstring) :
  match s with c :: _ => isWhiteSpace c = false | [] => True end ->
  trimStart s = s.
Proof. destruct s as [|c s]; [reflexivity|]; cbn [trimStart]; now intros ->. Qed.

Lemma trimStart_idempotent (s : jsstring) : trimStart (trimStart s) = trimStart s.
Proof.
  apply trimStart_fixed.
  destruct (trimStart s) as [|c r] eqn:E; [exact I|].
  exact (trimStart_head _ _ _ E).
Qed.

Lemma trim_idempotent (s : jsstring) : trim (trim s) = trim s.
Proof.
  unfold trim, trimEnd.
  set (a := trimStart s).
  destruct (trimStart_split (rev a)) as [ws [Ha _]].
  set (b := trimStart (rev a)) in *.
  assert (Hfix : trimStart (rev b) = rev b).
  { apply trimStart_fixed.
    destruct (rev b) as [|x rb] eqn:Eb; [exact I|].
    assert (Ea : a = x :: rb ++ rev ws).
    { rewrite <- (rev_involutive a), Ha, rev_app_distr, Eb; reflexivity. }
    exact (trimStart_head s x _ Ea). }
  rewrite Hfix, rev_involutive.
  unfold b; now rewrite trimStart_idempotent.
Qed.

(** A string whose last character is no white space keeps it. *)
Lemma trimStart_keeps_last (s : jsstring) (c : N) :
  isWhiteSpace c = false -> exists p, trimStart (s ++ [c]) = p ++ [c].
Proof.
  intros Hc; induction s as [|x s [p IH]]; cbn [app trimStart].
  - rewrite Hc; exists []; reflexivity.
  - destruct (isWhiteSpace x); [eauto|].
    exists (x :: s); reflexivity.
Qed.

Lemma trim_keeps_last (s : jsstring) (c : N) :
  isWhiteSpace c = false -> exists p, trim (s ++ [c]) = p ++ [c].
Proof.
  intros Hc; unfold trim, trimEnd.
  destruct (trimStart_keeps_last s c Hc) as [p ->].
  rewrite rev_app_distr; cbn [rev app trimStart]; rewrite Hc.
  exists p; cbn [rev]; now rewrite rev_involutive.
Qed.

Lemma trim_last (s : jsstring) :
  trim s = [] \/ exists p c, trim s = p ++ [c] /\ isWhiteSpace c = false.
Proof.
  unfold trim, trimEnd.
  destruct (trimStart (rev (trimStart s))) as [|c r] eqn:E; [left; reflexivity|].
  right; exists (rev r), c; split; [reflexivity|].
  exact (trimStart_head _ _ _ E).
Qed.

Lemma trim_fixed (s : jsstring) (a z : N) (mid : jsstring) :
  s = a :: mid ++ [z] -> isWhiteSpace a = false -> isWhiteSpace z = false ->
  trim s = s.
Proof.
  intros -> Ha Hz; unfold trim, trimEnd.
  rewrite (trimStart_fixed (a :: mid ++ [z])) by exact Ha.
  change (a :: mid ++ [z]) with ((a :: mid) ++ [z]).
  rewrite rev_app_distr; cbn [rev app].
  rewrite trimStart_fixed by exact Hz.
  change (z :: rev mid ++ [a]) with ([z] ++ rev (a :: mid)).
  now rewrite rev_app_distr, rev_involutive.
Qed.

(** ** What the extractor hands to a consumer *)

Lemma extract_trimmed (t id : jsstring) :
  extract t = Some id -> id <> [] /\ trim id = id.
Proof.
  unfold extract, extract_id.
  assert (Hgen : forall m,
             match trim m with c :: r => Some (c :: r) | [] => None end = Some id ->
             id <> [] /\ trim id = id).
  { intros m; pose proof (trim_idempotent m) as Hi.
    destruct (trim m) as [|c r]; [discriminate|].
    intros E; inversion E; subst; split; [discriminate|exact Hi]. }
  destruct (USER_ID_REGEX t) as [m|]; [apply Hgen|].
  destruct (OK_READ_REGEX t) as [m|]; [apply Hgen|discriminate].
Qed.

Lemma dispatch_trimmed (cb : option Consumer) (t : jsstring) (c : TagCall) :
  In c (dispatch cb t) -> cb = Some (fst c) /\ snd c <> [] /\ trim (snd c) = snd c.
Proof.
  unfold dispatch; destruct (extract t) as [id|] eqn:E; [|contradiction].
  destruct cb as [k|]; [|contradiction].
  intros [<-|[]]; split; [reflexivity|exact (extract_trimmed t id E)].
Qed.

Lemma dispatch_without_consumer (lines : list jsstring) :
  flat_map (dispatch None) lines = [].
Proof.
  induction lines as [|t ts IH]; [reflexivity|].
  cbn [flat_map]; rewrite IH; unfold dispatch; destruct (extract t); reflexivity.
Qed.

(** X1.  In the read loop of the provider the guard against an empty
    identifier never suppresses a command-mode line: on a trimmed line that
    only the command pattern matches, the capture does not trim to the empty
    string (it ends with the last character of the line, which is no white
    space), and the registered consumer is called once with the trimmed
    capture. *)
Theorem command_capture_is_delivered (cb : Consumer) (line m : jsstring) :
  USER_ID_REGEX (trim line) = None ->
  OK_READ_REGEX (trim line) = Some m ->
  trim m <> [] /\ dispatch (Some cb) (trim line) = [(cb, trim m)].
Proof.
  intros Hu Hk.
  assert (Hne : trim m <> []).
  { apply OK_READ_REGEX_spec in Hk; destruct Hk as (Ht & Hm & _).
    destruct (trim_last line) as [E|(p & c & E & Hc)].
    - rewrite E in Ht; discriminate.
    - destruct (exists_last Hm) as (m' & c' & ->).
      rewrite E, !app_assoc in Ht; apply app_inj_tail in Ht; destruct Ht as [_ <-].
      destruct (trim_keeps_last m' c Hc) as [q ->]; now destruct q. }
  split; [exact Hne|].
  rewrite (dispatch_command cb _ m Hu Hk).
  destruct (trim m); [contradiction|reflexivity].
Qed.

(** ** The versions of the extractor *)

(** X18.  The three versions of the extractor agree where they overlap.  The
    first hook delivers what the second hook delivers, less the events with
    an empty tag; on a line that the menu pattern matches, the provider
    delivers what the first hook delivers; on a line that the menu pattern
    does not match, neither hook delivers anything (the provider may, in
    command mode); and every event of the first hook is an event of the
    provider. *)
Theorem extractor_versions_agree (cb : Consumer) (t : jsstring) :
  FirstUseSerial.dispatch cb t
  = filter (fun c => nonempty (snd c)) (UseSerial.dispatch cb t)
  /\ (USER_ID_REGEX t <> None -> dispatch (Some cb) t = FirstUseSerial.dispatch cb t)
  /\ (USER_ID_REGEX t = None ->
      FirstUseSerial.dispatch cb t = [] /\ UseSerial.dispatch cb t = [])
  /\ (forall c, In c (FirstUseSerial.dispatch cb t) -> In c (dispatch (Some cb) t)).
Proof.
  unfold FirstUseSerial.dispatch, FirstUseSerial.extract, UseSerial.dispatch,
    UseSerial.extract, dispatch, extract, extract_id.
  destruct (USER_ID_REGEX t) as [m|].
  - destruct (trim m) as [|c r]; cbn; intuition congruence.
  - cbn; intuition.
Qed.

(** ** What [send] transmits *)

Lemma scalar_values_line (s : jsstring) :
  (exists p, scalar_values (s ++ [LF]) = p ++ [LF])
  /\ (forall c, exists p, scalar_values (c :: s ++ [LF]) = p ++ [LF]).
Proof.
  induction s as [|d s [IH1 IH2]].
  - split; [exists []; reflexivity|].
    intros c; cbn [app scalar_values].
    destruct ((0xD800 <=? c) && (c <=? 0xDBFF)); [exists [0xFFFD]; reflexivity|].
    destruct ((0xDC00 <=? c) && (c <=? 0xDFFF));
      [exists [0xFFFD]; reflexivity|exists [c]; reflexivity].
  - split; [exact (IH2 d)|].
    intros c; destruct (IH2 d) as [p Hp]; destruct IH1 as [q Hq].
    cbn [app] in *.
    change (scalar_values (c :: d :: s ++ [LF])) with
      (if (0xD800 <=? c) && (c <=? 0xDBFF) then
         if (0xDC00 <=? d) && (d <=? 0xDFFF)
         then (0x10000 + N.shiftl (c - 0xD800) 10 + (d - 0xDC00))
              :: scalar_values (s ++ [LF])
         else 0xFFFD :: scalar_values (d :: s ++ [LF])
       else if (0xDC00 <=? c) && (c <=? 0xDFFF)
            then 0xFFFD :: scalar_values (d :: s ++ [LF])
            else c :: scalar_values (d :: s ++ [LF])).
    rewrite Hp, Hq.
    destruct ((0xD800 <=? c) && (c <=? 0xDBFF)).
    + destruct ((0xDC00 <=? d) && (d <=? 0xDFFF)); eexists (_ :: _); reflexivity.
    + destruct ((0xDC00 <=? c) && (c <=? 0xDFFF)); eexists (_ :: _); reflexivity.
Qed.

Lemma send_text_line (text : jsstring) : exists body, send_text text = body ++ [LF].
Proof.
  unfold send_text; destruct (endsWith1 text LF) eqn:E; [|eauto].
  now apply endsWith1_spec in E.
Qed.

Lemma TextEncoder_encode_ascii (s : jsstring) :
  Forall is_ascii s -> TextEncoder_encode s = s.
Proof.
  unfold TextEncoder_encode; induction 1 as [|c s Hc Hs IH]; [reflexivity|].
  unfold is_ascii in Hc; cbn [scalar_values].
  replace ((0xD800 <=? c) && (c <=? 0xDBFF)) with false
    by (symmetry; apply andb_false_iff; left; apply N.leb_gt; lia).
  replace ((0xDC00 <=? c) && (c <=? 0xDFFF)) with false
    by (symmetry; apply andb_false_iff; left; apply N.leb_gt; lia).
  cbn [flat_map]; rewrite IH; unfold utf8_bytes.
  replace (c <=? 0x7F) with true by (symmetry; apply N.leb_le; lia).
  reflexivity.
Qed.

Lemma send_text_appends (text : jsstring) :
  forallb (fun c => negb (c =? LF)) text = true -> send_text text = text ++ [LF].
Proof.
  intros Hno; unfold send_text.
  destruct (endsWith1 text LF) eqn:E; [|reflexivity].
  apply endsWith1_spec in E; destruct E as [body ->].
  rewrite forallb_app in Hno; apply andb_true_iff in Hno; destruct Hno as [_ Hno].
  discriminate.
Qed.

Lemma split_lines_line (s : jsstring) :
  forallb (fun c => negb (c =? LF) && negb (c =? CR)) s = true ->
  split_lines (s ++ [LF]) = [s; []].
Proof.
  induction s as [|c s IH]; [reflexivity|]; cbn [forallb app split_lines].
  intros Hs; apply andb_true_iff in Hs; destruct Hs as [Hc Hs].
  apply andb_true_iff in Hc; destruct Hc as [Hlf Hcr].
  apply negb_true_iff in Hlf, Hcr; rewrite Hlf, Hcr, (IH Hs); reflexivity.
Qed.

(** X16.  Whatever the text, the bytes that [send] hands to the writer end
    with one line feed byte; the text that is encoded is stable under the
    rule that appends the line feed (a text that ends with a line feed gets
    no second one); and an ASCII text is transmitted byte for byte. *)
Theorem sent_payload_is_line_feed_terminated (text : jsstring) :
  (exists bytes, TextEncoder_encode (send_text text) = bytes ++ [LF])
  /\ send_text (send_text text) = send_text text
  /\ (Forall is_ascii text -> TextEncoder_encode (send_text text) = send_text text).
Proof.
  destruct (send_text_line text) as [body Hb].
  split; [|split].
  - unfold TextEncoder_encode; rewrite Hb.
    destruct (proj1 (scalar_values_line body)) as [p ->].
    rewrite flat_map_app; exists (flat_map utf8_bytes p); reflexivity.
  - unfold send_text at 1.
    replace (endsWith1 (send_text text) LF) with true; [reflexivity|].
    symmetry; apply endsWith1_spec; eauto.
  - intros Ha; apply TextEncoder_encode_ascii.
    unfold send_text; destruct (endsWith1 text LF); [exact Ha|].
    apply Forall_app; split; [exact Ha|]; repeat constructor.
Qed.

(** X17.  The encoder of [send], the decoder and the framer of the read
    loop are inverse to each other on a command: the bytes that [send]
    transmits for an ASCII text without line feed and carriage return, fed
    to the framer as one chunk into an empty buffer, give exactly one
    complete line, the text, and leave the buffer empty. *)
Theorem sent_line_frames_as_one_line (text : jsstring) :
  Forall is_ascii text ->
  forallb (fun c => negb (c =? LF) && negb (c =? CR)) text = true ->
  feed [] (TextEncoder_encode (send_text text)) = ([text], []).
Proof.
  intros Ha Hplain.
  assert (Hno : forallb (fun c => negb (c =? LF)) text = true).
  { apply forallb_forall; intros c Hin; rewrite forallb_forall in Hplain.
    specialize (Hplain c Hin); now apply andb_true_iff in Hplain. }
  assert (Hall : Forall is_ascii (text ++ [LF]))
    by (apply Forall_app; split; [exact Ha|repeat constructor]).
  rewrite (send_text_appends text Hno), (TextEncoder_encode_ascii _ Hall).
  unfold feed; rewrite (TextDecoder_decode_ascii _ Hall), app_nil_l.
  now rewrite (split_lines_line text Hplain).
Qed.

(** ** The cookies around the store *)

Lemma assoc_jar_put_other (name other value : jsstring) (jar : CookieJar) :
  other <> name -> assoc other (jar_put name value jar) = assoc other jar.
Proof.
  intros Hne.
  assert (Hno : jsstring_eqb other name = false).
  { destruct (jsstring_eqb other name) eqn:E; [|reflexivity].
    now apply jsstring_eqb_eq in E. }
  induction jar as [|[n v] jar IH]; cbn [jar_put assoc]; [now rewrite Hno|].
  destruct (jsstring_eqb name n) eqn:E; cbn [assoc].
  - apply jsstring_eqb_eq in E; subst n; now rewrite Hno.
  - now rewrite IH.
Qed.

Lemma assoc_jar_remove_other (name other : jsstring) (jar : CookieJar) :
  other <> name -> assoc other (jar_remove name jar) = assoc other jar.
Proof.
  intros Hne; unfold jar_remove.
  induction jar as [|[n v] jar IH]; [reflexivity|]; cbn [filter fst assoc].
  destruct (jsstring_eqb name n) eqn:E; cbn [negb assoc]; [|now rewrite IH].
  apply jsstring_eqb_eq in E; subst n.
  destruct (jsstring_eqb other name) eqn:E'; [|exact IH].
  now apply jsstring_eqb_eq in E'.
Qed.

Lemma jar_put_put (name v1 v2 : jsstring) (jar : CookieJar) :
  jar_put name v2 (jar_put name v1 jar) = jar_put name v2 jar.
Proof.
  induction jar as [|[n v] jar IH]; cbn [jar_put].
  - now rewrite jsstring_eqb_refl.
  - destruct (jsstring_eqb name n) eqn:E; cbn [jar_put]; rewrite E; [reflexivity|].
    now rewrite IH.
Qed.

Lemma jar_remove_put (name value : jsstring) (jar : CookieJar) :
  jar_remove name (jar_put name value jar) = jar_remove name jar.
Proof.
  unfold jar_remove; induction jar as [|[n v] jar IH]; cbn [jar_put filter fst].
  - now rewrite jsstring_eqb_refl.
  - destruct (jsstring_eqb name n) eqn:E; cbn [filter fst]; rewrite E; cbn [negb];
      [reflexivity|now rewrite IH].
Qed.

Section StoreAndCookies.

Context `{Platform}.

(** X9.  The store touches its own cookie only: after
    [setSerialFilterCookie] and after [clearSerialFilterCookie] the document
    holds under every other name what it held before. *)
Theorem store_leaves_other_cookies (name : jsstring) (filter : SerialPortFilter)
  (w : World) :
  name <> SERIAL_FILTER_COOKIE ->
  cookie_named name (state_after (setSerialFilterCookie filter) w) = cookie_named name w
  /\ cookie_named name (state_after clearSerialFilterCookie w) = cookie_named name w.
Proof.
  intros Hne; unfold state_after, cookie_named.
  rewrite setSerialFilterCookie_eq, clearSerialFilterCookie_eq; cbn [fst].
  destruct (document w) as [jar|] eqn:Hdoc; cbn [document set_document];
    [|now rewrite Hdoc].
  split; [now apply assoc_jar_put_other|now apply assoc_jar_remove_other].
Qed.

(** X10.  [getSerialFilterFromCookie] reads its own cookie only: in two
    documents of well-formed cookies that hold the same value under the name
    of the store (or both none), it returns the same, whatever the other
    cookies are, their order, and their names. *)
Theorem load_reads_only_own_cookie (w1 w2 : World) (jar1 jar2 : CookieJar) :
  document w1 = Some jar1 -> jar_ok jar1 = true ->
  document w2 = Some jar2 -> jar_ok jar2 = true ->
  cookie_named SERIAL_FILTER_COOKIE w1 = cookie_named SERIAL_FILTER_COOKIE w2 ->
  persisted w1 = persisted w2.
Proof.
  intros Hd1 Hok1 Hd2 Hok2 Heq.
  rewrite (persisted_eq w1 jar1 Hd1 Hok1), (persisted_eq w2 jar2 Hd2 Hok2).
  change (stored w1) with (cookie_named SERIAL_FILTER_COOKIE w1).
  change (stored w2) with (cookie_named SERIAL_FILTER_COOKIE w2).
  now rewrite Heq.
Qed.

(** X11.  How the operations of the store compose: saving after a save
    leaves the state of the later save alone, clearing after a save leaves
    the state of the clear alone, and a filter saved after a clear is the
    one loaded, if the host reads back what the store writes. *)
Theorem store_operations_compose (f1 f2 : SerialPortFilter) (w : World) :
  state_after (setSerialFilterCookie f2) (state_after (setSerialFilterCookie f1) w)
  = state_after (setSerialFilterCookie f2) w
  /\ state_after clearSerialFilterCookie (state_after (setSerialFilterCookie f1) w)
     = state_after clearSerialFilterCookie w
  /\ (forall jar,
        document w = Some jar -> jar_ok jar = true -> round_trips f2 ->
        persisted (state_after (setSerialFilterCookie f2)
                     (state_after clearSerialFilterCookie w))
        = Normal (Some f2)).
Proof.
  unfold state_after.
  do 2 (rewrite ?setSerialFilterCookie_eq, ?clearSerialFilterCookie_eq; cbn [fst]).
  split; [|split].
  - destruct (document w) as [jar|] eqn:Hdoc; cbn [document set_document];
      [|now rewrite Hdoc].
    unfold set_document; cbn; now rewrite jar_put_put.
  - destruct (document w) as [jar|] eqn:Hdoc; cbn [document set_document];
      [|now rewrite Hdoc].
    unfold set_document; cbn; now rewrite jar_remove_put.
  - intros jar Hdoc Hok Hrt; rewrite Hdoc; cbn [document set_document].
    pose proof (persisted_after_save f2
                  (set_document (Some (jar_remove SERIAL_FILTER_COOKIE jar)) w)
                  (jar_remove SERIAL_FILTER_COOKIE jar) eq_refl
                  (jar_ok_remove _ _ Hok) Hrt) as Hp.
    unfold state_after in Hp; rewrite setSerialFilterCookie_eq in Hp.
    exact Hp.
Qed.

End StoreAndCookies.

(** ** The read loops along the histories of the provider *)

Lemma In_remove_loop (r : Reader) (ls : list ReadLoop) (l : ReadLoop) :
  In l (remove_loop r ls) -> In l ls.
Proof. unfold remove_loop; intros Hin; now apply filter_In in Hin. Qed.

Lemma In_put_loop (x : ReadLoop) (ls : list ReadLoop) (l : ReadLoop) :
  In l (put_loop x ls) -> l = x \/ In l ls.
Proof.
  unfold put_loop; intros [<-|Hin]; [now left|right; exact (In_remove_loop _ _ _ Hin)].
Qed.

Lemma find_loop_reader (r : Reader) (ls : list ReadLoop) (l : ReadLoop) :
  find_loop r ls = Some l -> reader l = r.
Proof.
  unfold find_loop; intros Hf; apply find_some in Hf.
  now apply Nat.eqb_eq.
Qed.

Lemma find_loop_remove_other (r r' : Reader) (ls : list ReadLoop) :
  r <> r' -> find_loop r' (remove_loop r ls) = find_loop r' ls.
Proof.
  intros Hne; unfold find_loop, remove_loop.
  induction ls as [|x ls IH]; [reflexivity|]; cbn [filter find].
  destruct (Nat.eqb (reader x) r) eqn:E; cbn [negb find].
  - apply Nat.eqb_eq in E.
    destruct (Nat.eqb (reader x) r') eqn:E'; [|exact IH].
    apply Nat.eqb_eq in E'; congruence.
  - destruct (Nat.eqb (reader x) r'); [reflexivity|exact IH].
Qed.

(** The read loop of reader [r], as a function on the state. *)
Lemma readLoop_eq (r : Reader) (settled : Completion ReadResult) (w : World)
  (l : ReadLoop) :
  find_loop r (loops w) = Some l ->
  readLoop r settled w =
  (match settled with
   | Normal (Chunk value) =>
       let w1 :=
         set_calls (calls w ++ flat_map (dispatch (onTagReadRef w))
                                  (complete_lines (fst (feed (readBuffer l) value)))) w in
       if abortRef w then
         set_readerRef None
           (set_loops (remove_loop r (loops w))
              (set_host_calls (host_calls w ++ [CallReleaseLock r]) w1))
       else
         set_loops
           (put_loop {| reader := r; readBuffer := snd (feed (readBuffer l) value) |}
              (loops w)) w1
   | Normal Done =>
       set_readerRef None
         (set_loops (remove_loop r (loops w))
            (set_host_calls (host_calls w ++ [CallReleaseLock r]) w))
   | Throw e =>
       set_readerRef None
         (set_loops (remove_loop r (loops w))
            (set_host_calls (host_calls w ++ [CallReleaseLock r])
               (if abortRef w then w
                else set_error (Some (error_text e (lit "Serial read error"))) w)))
   end, Normal tt).
Proof.
  intros Hl; unfold readLoop, readLoop_next, readLoop_finally, releaseLock,
    host_call, bind, get, modify, ret.
  rewrite Hl.
  destruct settled as [[value|]|e].
  - destruct (feed (readBuffer l) value) as [lines buffer]; cbn [fst snd].
    cbn [abortRef set_calls loops]; destruct (abortRef w); reflexivity.
  - reflexivity.
  - destruct (abortRef w); reflexivity.
Qed.

(** A read that settles for a reader without a loop changes nothing. *)
Lemma readLoop_none (r : Reader) (settled : Completion ReadResult) (w : World) :
  find_loop r (loops w) = None -> readLoop r settled w = (w, Normal tt).
Proof. intros Hl; unfold readLoop, bind, get, ret; now rewrite Hl. Qed.

(** X6.  When the read of a loop rejects, or reports the end of the stream,
    the loop ends without raising: it releases the lock of its reader,
    clears the reader reference whichever reader that holds, and is gone,
    while the loops of other readers stay.  A rejection is shown in the
    error field, with the message of the error or a fixed text, unless the
    abort flag is up.  The connection itself is left as it was: the provider
    still shows a connection if it showed one, the port and the writer are
    still held, the port is still open, and the store is untouched. *)
Theorem read_loop_ends_on_failure (r : Reader) (l : ReadLoop) (w : World)
  (settled : Completion ReadResult) :
  find_loop r (loops w) = Some l ->
  (forall value, settled <> Normal (Chunk value)) ->
  let w' := state_after (readLoop r settled) w in
  completion (readLoop r settled) w = Normal tt
  /\ host_calls w' = host_calls w ++ [CallReleaseLock r]
  /\ readerRef w' = None
  /\ find_loop r (loops w') = None
  /\ (forall r', r' <> r -> find_loop r' (loops w') = find_loop r' (loops w))
  /\ error w' = match settled with
                | Throw e =>
                    if abortRef w then error w
                    else Some (error_text e (lit "Serial read error"))
                | Normal _ => error w
                end
  /\ isConnected w' = isConnected w
  /\ portRef w' = portRef w
  /\ writerRef w' = writerRef w
  /\ opened w' = opened w
  /\ document w' = document w
  /\ calls w' = calls w.
Proof.
  intros Hl Hs; unfold state_after, completion.
  rewrite (readLoop_eq r settled w l Hl); cbn [fst snd].
  destruct settled as [[value|]|e]; [now elim (Hs value)| |].
  - cbn; do 3 (split; [reflexivity|]); split; [apply find_loop_remove|].
    split; [|auto 10].
    intros r' Hne; apply find_loop_remove_other; congruence.
  - destruct (abortRef w); cbn;
      (do 3 (split; [reflexivity|])); (split; [apply find_loop_remove|]);
      (split; [intros r' Hne; apply find_loop_remove_other; congruence|auto 10]).
Qed.

(** X7.  [disconnect] does not silence a read that is under way: when the
    pending read of a loop settles with a chunk after [disconnect] has
    returned, the chunk is still framed and its tags are still handed to the
    registered consumer, although the provider shows no connection; only
    then does the loop see the abort flag, release its reader and end. *)
Theorem chunk_after_disconnect_is_dispatched (r : Reader) (l : ReadLoop)
  (w : World) (c1 c2 c3 : Completion unit) (value : Uint8Array) :
  find_loop r (loops w) = Some l ->
  let w1 := state_after (disconnect c1 c2 c3) w in
  let w' := state_after (readLoop r (Normal (Chunk value))) w1 in
  isConnected w1 = false
  /\ calls w' = calls w ++ flat_map (dispatch (onTagReadRef w))
                             (complete_lines (fst (feed (readBuffer l) value)))
  /\ find_loop r (loops w') = None
  /\ host_calls w' = host_calls w1 ++ [CallReleaseLock r].
Proof.
  intros Hl w1 w'; subst w' w1; unfold state_after.
  rewrite disconnect_eq; cbn [fst].
  rewrite (readLoop_eq r _ _ l) by exact Hl; cbn.
  split; [reflexivity|]; split; [reflexivity|]; split; [apply find_loop_remove|reflexivity].
Qed.

(** X8.  The end of an old read loop takes the reader of the current session
    out of reach of [disconnect].  If the reader reference holds reader [r']
    while the loop of another reader [r] is still pending, then the end of
    the loop of [r] clears the reference, and a [disconnect] that follows
    does not cancel [r']: no call of [cancel] is made on it, and its loop
    stays pending. *)
Theorem stale_loop_end_orphans_reader (r r' : Reader) (l l' : ReadLoop)
  (w : World) (settled : Completion ReadResult) (c1 c2 c3 : Completion unit) :
  r <> r' ->
  readerRef w = Some r' ->
  find_loop r (loops w) = Some l ->
  find_loop r' (loops w) = Some l' ->
  (forall value, settled <> Normal (Chunk value)) ->
  let w1 := state_after (readLoop r settled) w in
  let w2 := state_after (disconnect c1 c2 c3) w1 in
  readerRef w1 = None
  /\ ~ In (CallCancel r') (disconnect_calls w1)
  /\ host_calls w2 = host_calls w1 ++ disconnect_calls w1
  /\ find_loop r' (loops w2) = Some l'.
Proof.
  intros Hne Hr Hl Hl' Hs w1 w2; subst w2 w1; unfold state_after.
  rewrite (readLoop_eq r settled w l Hl); cbn [fst].
  rewrite disconnect_eq; cbn [fst].
  assert (Hkeep : find_loop r' (remove_loop r (loops w)) = Some l')
    by (rewrite find_loop_remove_other; auto).
  destruct settled as [[value|]|e]; [now elim (Hs value)| |].
  - cbn; split; [reflexivity|]; split; [|split; [reflexivity|exact Hkeep]].
    unfold disconnect_calls; cbn.
    destruct (writerRef w), (portRef w); cbn; intuition discriminate.
  - destruct (abortRef w); cbn;
      (split; [reflexivity|]); (split; [|split; [reflexivity|exact Hkeep]]);
      unfold disconnect_calls; cbn;
      destruct (writerRef w), (portRef w); cbn; intuition discriminate.
Qed.

Section Streams.

Context `{Platform}.

(** The consumer calls and the read loops after [connect]. *)
Lemma connect_stream (w : World) (picked : Completion SerialPort)
  (settled : Completion unit) :
  let w' := state_after (connect picked settled) w in
  calls w' = calls w
  /\ onTagReadRef w' = onTagReadRef w
  /\ (loops w' = loops w
      \/ loops w' = put_loop {| reader := next_reader w; readBuffer := [] |} (loops w)).
Proof.
  destruct (connect_cases w picked settled)
    as [Hs|[[Hs [e Hf]]|(Hs & port & -> & -> & Hc)]]; unfold state_after.
  - rewrite (connect_unsupported _ _ _ Hs); cbn; auto.
  - rewrite (connect_caught w picked settled e Hs Hf).
    unfold state_after; rewrite clearSerialFilterCookie_eq; cbn [fst].
    cbn [document set_abortRef set_error set_host_calls].
    destruct (document w); cbn; auto.
  - rewrite (connect_opened w port Hs Hc), openPortAndRead_eq by reflexivity.
    cbn [fst].
    destruct (identity port); unfold state_after;
      rewrite ?setSerialFilterCookie_eq; cbn [fst];
      try destruct (document _); cbn; auto.
Qed.

(** The consumer calls that one operation adds. *)
Lemma perform_calls (op : Op) (w : World) :
  exists new,
    calls (state_after (perform op) w) = calls w ++ new
    /\ forall c, In c new ->
                 onTagReadRef w = Some (fst c) /\ snd c <> [] /\ trim (snd c) = snd c.
Proof.
  destruct op as [picked settled|c1 c2 c3|text settled|r settled|cb]; cbn [perform].
  - exists []; rewrite app_nil_r; split; [apply connect_stream|contradiction].
  - exists []; rewrite app_nil_r; split; [|contradiction].
    unfold state_after; now rewrite disconnect_eq.
  - exists []; rewrite app_nil_r; split; [|contradiction].
    unfold state_after; rewrite send_eq.
    destruct (writerRef w); [destruct settled|]; reflexivity.
  - destruct (find_loop r (loops w)) as [l|] eqn:Hl; unfold state_after.
    + rewrite (readLoop_eq r settled w l Hl); cbn [fst].
      destruct settled as [[value|]|e].
      * exists (flat_map (dispatch (onTagReadRef w))
                  (complete_lines (fst (feed (readBuffer l) value)))).
        split; [destruct (abortRef w); reflexivity|].
        intros c Hin; apply in_flat_map in Hin; destruct Hin as (t & _ & Hin).
        exact (dispatch_trimmed _ _ _ Hin).
      * exists []; rewrite app_nil_r; split; [reflexivity|contradiction].
      * exists []; rewrite app_nil_r; split; [|contradiction].
        destruct (abortRef w); reflexivity.
    + rewrite (readLoop_none r settled w Hl).
      exists []; rewrite app_nil_r; split; [reflexivity|contradiction].
  - exists []; rewrite app_nil_r; split; [reflexivity|contradiction].
Qed.

(** The read loops that one operation leaves. *)
Lemma perform_loops (op : Op) (w : World) (l : ReadLoop) :
  In l (loops (state_after (perform op) w)) ->
  In l (loops w) \/ forallb (fun c => negb (c =? LF)) (readBuffer l) = true.
Proof.
  destruct op as [picked settled|c1 c2 c3|text settled|r settled|cb]; cbn [perform].
  - destruct (connect_stream w picked settled) as (_ & _ & [-> | ->]); [now left|].
    intros Hin; apply In_put_loop in Hin; destruct Hin as [-> | Hin]; auto.
  - unfold state_after; rewrite disconnect_eq; now left.
  - unfold state_after; rewrite send_eq.
    destruct (writerRef w); [destruct settled|]; now left.
  - destruct (find_loop r (loops w)) as [l0|] eqn:Hl; unfold state_after.
    + rewrite (readLoop_eq r settled w l0 Hl); cbn [fst].
      destruct settled as [[value|]|e].
      * destruct (abortRef w); cbn [loops set_loops set_readerRef set_host_calls set_calls];
          intros Hin; [left; exact (In_remove_loop _ _ _ Hin)|].
        apply In_put_loop in Hin; destruct Hin as [-> | Hin]; [right|now left].
        cbn [readBuffer feed snd]; apply last_split_lines_no_LF.
      * cbn; intros Hin; left; exact (In_remove_loop _ _ _ Hin).
      * destruct (abortRef w); cbn; intros Hin; left; exact (In_remove_loop _ _ _ Hin).
    + rewrite (readLoop_none r settled w Hl); now left.
  - now left.
Qed.

Lemma perform_delivered_trimmed (op : Op) (w : World) :
  delivered_trimmed w -> delivered_trimmed (state_after (perform op) w).
Proof.
  unfold delivered_trimmed; intros Hw.
  destruct (perform_calls op w) as (new & -> & Hnew).
  apply Forall_app; split; [exact Hw|].
  apply Forall_forall; intros c Hin; exact (proj2 (Hnew c Hin)).
Qed.

Lemma perform_buffers_open (op : Op) (w : World) :
  buffers_open w -> buffers_open (state_after (perform op) w).
Proof.
  unfold buffers_open; rewrite !Forall_forall; intros Hw l Hin.
  destruct (perform_loops op w l Hin) as [Hold|Hnew]; auto.
Qed.

Lemma run_delivered_trimmed (ops : list Op) (w : World) :
  delivered_trimmed w -> delivered_trimmed (run ops w).
Proof.
  revert w; induction ops as [|op ops IH]; intros w Hw; [exact Hw|].
  cbn [run]; apply IH, perform_delivered_trimmed, Hw.
Qed.

Lemma run_buffers_open (ops : list Op) (w : World) :
  buffers_open w -> buffers_open (run ops w).
Proof.
  revert w; induction ops as [|op ops IH]; intros w Hw; [exact Hw|].
  cbn [run]; apply IH, perform_buffers_open, Hw.
Qed.

(** What the mount effects leave, by cases on how they go. *)
Lemma mount_cases (listed : Completion (list SerialPort))
  (settled : Completion unit) (serial : bool) (doc : option CookieJar) :
  let w := initial_world serial doc in
  let w1 := set_isSupported serial w in
  let w0 := state_after (mount listed settled) w in
  w0 = w1
  \/ w0 = set_isReconnecting false (set_host_calls [CallGetPorts] w1)
  \/ (exists port,
        w0 = set_isReconnecting false
               (state_after clearSerialFilterCookie
                  (set_host_calls [CallGetPorts; CallOpen (handle port) BAUD] w1)))
  \/ (exists port,
        w0 = set_isReconnecting false
               (state_after (openPortAndRead port)
                  (set_abortRef false
                     (set_opened [(handle port, BAUD)]
                        (set_host_calls [CallGetPorts; CallOpen (handle port) BAUD]
                           (set_isReconnecting true w1)))))).
Proof.
  cbv zeta; unfold state_after; rewrite mount_eq.
  change (navigator_serial (initial_world serial doc)) with serial.
  set (w1 := set_isSupported serial (initial_world serial doc)).
  destruct serial eqn:Hserial;
    [|rewrite reconnect_idle by (left; reflexivity); left; reflexivity].
  destruct (persisted_returns w1) as [[f|] Hp];
    [|rewrite reconnect_idle by (right; exact Hp); left; reflexivity].
  destruct listed as [ports|e];
    [|rewrite (reconnect_no_port (Throw e) settled w1 f eq_refl Hp I);
      right; left; reflexivity].
  destruct (matching_port f ports) as [port|] eqn:Hm;
    [|rewrite (reconnect_no_port (Normal ports) settled w1 f eq_refl Hp Hm);
      right; left; reflexivity].
  destruct settled as [[]|e].
  - rewrite (reconnect_opens ports w1 f port eq_refl Hp Hm eq_refl).
    right; right; right; exists port; reflexivity.
  - rewrite (reconnect_open_fails ports (Throw e) w1 f port e eq_refl Hp Hm)
      by (left; split; reflexivity).
    right; right; left; exists port; reflexivity.
Qed.

(** The fields of the state after the mount effects that the invariants
    speak of. *)
Lemma mount_stream (listed : Completion (list SerialPort))
  (settled : Completion unit) (serial : bool) (doc : option CookieJar) :
  let w0 := state_after (mount listed settled) (initial_world serial doc) in
  calls w0 = []
  /\ (loops w0 = [] \/ loops w0 = [{| reader := 0%nat; readBuffer := [] |}])
  /\ isSupported w0 = serial
  /\ isReconnecting w0 = false
  /\ navigator_serial w0 = serial.
Proof.
  destruct (mount_cases listed settled serial doc)
    as [E|[E|[[port E]|[port E]]]]; cbv zeta in E |- *; rewrite E.
  - cbn; auto.
  - cbn; auto.
  - unfold state_after; rewrite clearSerialFilterCookie_eq; cbn [fst].
    destruct (document _); cbn; auto.
  - unfold state_after; rewrite openPortAndRead_eq by reflexivity; cbn [fst].
    destruct (identity port); unfold state_after;
      rewrite ?setSerialFilterCookie_eq; cbn [fst];
      try destruct (document _); cbn; auto.
Qed.

(** X2.  Along every history of the provider, from the state in which it
    mounts, every tag that a consumer has been called with is not empty and
    has no white space at either end: the test for an empty card that the
    consumers make on the tag they receive never succeeds for a tag that
    comes from the provider. *)
Theorem delivered_tags_are_trimmed (serial : bool) (doc : option CookieJar)
  (listed : Completion (list SerialPort)) (settled : Completion unit)
  (ops : list Op) :
  delivered_trimmed
    (run ops (state_after (mount listed settled) (initial_world serial doc))).
Proof.
  apply run_delivered_trimmed; unfold delivered_trimmed.
  destruct (mount_stream listed settled serial doc) as (-> & _); constructor.
Qed.

(** X3.  Along every history of the provider the buffer of every pending
    read loop holds no line feed: whatever has been read up to a line feed
    has been split off and handed to the extractor. *)
Theorem read_buffers_hold_no_line_feed (serial : bool) (doc : option CookieJar)
  (listed : Completion (list SerialPort)) (settled : Completion unit)
  (ops : list Op) :
  buffers_open
    (run ops (state_after (mount listed settled) (initial_world serial doc))).
Proof.
  apply run_buffers_open; unfold buffers_open.
  destruct (mount_stream listed settled serial doc) as (_ & [-> | ->] & _);
    repeat constructor.
Qed.

Lemma run_app (a b : list Op) (w : World) : run (a ++ b) w = run b (run a w).
Proof. revert w; induction a as [|op a IH]; intros w; [reflexivity|apply IH]. Qed.

(** A stream of chunks through the read loop of [r]: the loop is the framer
    and the extractor, run on the chunks in turn. *)
Lemma chunk_reads_eq (r : Reader) (chunks : list Uint8Array) (w : World)
  (l : ReadLoop) :
  abortRef w = false ->
  find_loop r (loops w) = Some l ->
  let w' := run (chunk_reads r chunks) w in
  calls w' = calls w ++ flat_map (dispatch (onTagReadRef w))
                           (fst (feed_all (readBuffer l) chunks))
  /\ find_loop r (loops w')
     = Some {| reader := r; readBuffer := snd (feed_all (readBuffer l) chunks) |}
  /\ abortRef w' = false
  /\ onTagReadRef w' = onTagReadRef w.
Proof.
  revert w l; induction chunks as [|value rest IH]; intros w l Ha Hl.
  - cbn; rewrite app_nil_r, Hl.
    pose proof (find_loop_reader r _ l Hl) as <-; destruct l; auto.
  - cbn [chunk_reads map run perform]; unfold state_after.
    rewrite (readLoop_eq r _ w l Hl), Ha; cbn [fst].
    match goal with |- context [run _ ?st] => set (w1 := st) end.
    specialize (IH w1 {| reader := r; readBuffer := snd (feed (readBuffer l) value) |}
                  Ha (find_loop_put _ _)).
    fold (chunk_reads r rest).
    destruct IH as (Hc & Hf & Hab & Hcb).
    cbn [feed_all].
    destruct (feed (readBuffer l) value) as [lines buffer]; cbn [fst snd readBuffer] in *.
    destruct (feed_all buffer rest) as [more final]; cbn [fst snd] in *.
    rewrite Hc, Hf, Hab, Hcb; subst w1; cbn.
    rewrite flat_map_app, app_assoc; auto.
Qed.

(** The state in which a successful [connect] leaves the read loop. *)
Lemma connect_opened_stream (w : World) (port : SerialPort) :
  navigator_serial w = true -> is_open (handle port) (opened w) = false ->
  let w1 := state_after (connect (Normal port) (Normal tt)) w in
  abortRef w1 = false
  /\ readerRef w1 = Some (next_reader w)
  /\ find_loop (next_reader w) (loops w1)
     = Some {| reader := next_reader w; readBuffer := [] |}
  /\ calls w1 = calls w
  /\ onTagReadRef w1 = onTagReadRef w.
Proof.
  intros Hs Hc; unfold state_after.
  rewrite (connect_opened w port Hs Hc), openPortAndRead_eq by reflexivity.
  cbn [fst].
  destruct (identity port); unfold state_after;
    rewrite ?setSerialFilterCookie_eq; cbn [fst];
    try destruct (document _);
    cbn [abortRef readerRef loops calls onTagReadRef set_loops set_document
         set_error set_isConnected set_readerRef set_next_reader set_writerRef
         set_portRef set_opened set_host_calls set_abortRef];
    (do 2 (split; [reflexivity|])); (split; [apply find_loop_put|]); auto.
Qed.

(** X4.  The read loop that a successful [connect] starts is the line
    framer and the tag extractor run on the stream: after the reads of the
    new reader have settled with the chunks of a stream, the consumer calls
    made are those of the complete lines of the stream, in order, and the
    loop holds the unfinished rest of the stream.  For ASCII chunks both are
    what one read of the whole stream gives: the events do not depend on how
    the stream is cut into chunks. *)
Theorem connected_reader_delivers_framed_stream (w : World) (port : SerialPort)
  (chunks : list Uint8Array) :
  navigator_serial w = true ->
  is_open (handle port) (opened w) = false ->
  let w1 := state_after (connect (Normal port) (Normal tt)) w in
  let r := next_reader w in
  let w' := run (chunk_reads r chunks) w1 in
  calls w' = calls w ++ flat_map (dispatch (onTagReadRef w)) (fst (feed_all [] chunks))
  /\ find_loop r (loops w')
     = Some {| reader := r; readBuffer := snd (feed_all [] chunks) |}
  /\ (Forall (Forall is_ascii) chunks ->
      calls w' = calls (run (chunk_reads r [List.concat chunks]) w1)
      /\ find_loop r (loops w')
         = find_loop r (loops (run (chunk_reads r [List.concat chunks]) w1))).
Proof.
  intros Hs Hc w1 r w'.
  destruct (connect_opened_stream w port Hs Hc) as (Ha & _ & Hl & Hcalls & Hcb).
  fold w1 r in Ha, Hl, Hcalls, Hcb.
  destruct (chunk_reads_eq r chunks w1 _ Ha Hl) as (E1 & E2 & _).
  destruct (chunk_reads_eq r [List.concat chunks] w1 _ Ha Hl) as (F1 & F2 & _).
  cbn [readBuffer] in *; fold w' in E1, E2.
  rewrite Hcalls, Hcb in E1.
  split; [exact E1|]; split; [exact E2|].
  intros Hascii; rewrite F1, F2, Hcalls, Hcb, E1, E2.
  now rewrite (feed_all_concat chunks [] Hascii eq_refl).
Qed.

(** X5.  Tag events are not kept for a consumer that registers later.  The
    lines that a read loop completes while no consumer is registered are
    consumed without a call; a consumer registered afterwards is called for
    the lines completed from then on only, the first of which may have
    begun before it registered. *)
Theorem events_without_consumer_are_dropped (r : Reader) (l : ReadLoop)
  (w : World) (k : Consumer) (before after : list Uint8Array) :
  abortRef w = false ->
  find_loop r (loops w) = Some l ->
  let w' := run (OpSetOnTagRead None :: chunk_reads r before
                 ++ OpSetOnTagRead (Some k) :: chunk_reads r after) w in
  calls w'
  = calls w ++ flat_map (dispatch (Some k))
                 (fst (feed_all (snd (feed_all (readBuffer l) before)) after)).
Proof.
  intros Ha Hl; cbn [run perform]; rewrite run_app; cbn [run perform].
  set (w0 := state_after (setOnTagRead None) w).
  destruct (chunk_reads_eq r before w0 l Ha Hl) as (E1 & E2 & E3 & E4).
  set (w1 := run (chunk_reads r before) w0) in *.
  set (w2 := state_after (setOnTagRead (Some k)) w1).
  destruct (chunk_reads_eq r after w2 _ E3 E2) as (F1 & _).
  cbn [readBuffer] in F1; rewrite F1.
  change (calls w2) with (calls w1); rewrite E1.
  change (onTagReadRef w0) with (@None Consumer).
  change (calls w0) with (calls w).
  rewrite dispatch_without_consumer, app_nil_r; reflexivity.
Qed.

(** ** The provider on a host without Web Serial, and its flags *)

(** On a host without Web Serial an operation writes the error field, the
    consumer reference and the abort flag, and nothing else. *)
Lemma run_unsupported (ops : list Op) (doc : option CookieJar)
  (e : option jsstring) (callback : option Consumer) (aborted : bool) :
  run ops (unsupported_world doc e callback aborted)
  = unsupported_run ops doc e callback aborted.
Proof.
  revert e callback aborted; induction ops as [|op ops IH]; intros e callback aborted;
    [reflexivity|].
  cbn [run]; destruct op as [picked settled|c1 c2 c3|text settled|r settled|c];
    cbn [perform unsupported_run]; rewrite <- IH; reflexivity.
Qed.

(** X12.  On a host without Web Serial the state of the provider along
    every history is this: no call reaches the host, no port is opened, no
    loop runs, nothing is written or delivered, no port, reader or writer is
    held, and the provider shows neither support nor a connection nor a
    reconnection; the document is as it was.  Three fields are written and
    no other: the error field, in which [connect] leaves its text and which
    [disconnect] empties; the consumer reference, which [setOnTagRead]
    sets; and the abort flag, which [disconnect] raises. *)
Theorem unsupported_host_is_never_touched (doc : option CookieJar)
  (listed : Completion (list SerialPort)) (settled : Completion unit)
  (ops : list Op) :
  let w := run ops (state_after (mount listed settled) (initial_world false doc)) in
  w = unsupported_run ops doc None None false
  /\ (exists e callback aborted, w = unsupported_world doc e callback aborted)
  /\ (error w = None
      \/ error w = Some (lit "Web Serial not supported. Use Chrome or Edge.")).
Proof.
  assert (Hshape : forall e callback aborted,
             (e = None
              \/ e = Some (lit "Web Serial not supported. Use Chrome or Edge.")) ->
             exists e' callback' aborted',
               unsupported_run ops doc e callback aborted
               = unsupported_world doc e' callback' aborted'
               /\ (e' = None
                   \/ e' = Some (lit "Web Serial not supported. Use Chrome or Edge."))).
  { induction ops as [|op ops IH]; intros e callback aborted He.
    - exists e, callback, aborted; split; [reflexivity|exact He].
    - destruct op; cbn [unsupported_run]; apply IH; auto. }
  cbv zeta.
  assert (Hm : state_after (mount listed settled) (initial_world false doc)
               = unsupported_world doc None None false).
  { unfold state_after; rewrite mount_eq, reconnect_idle by (left; reflexivity).
    reflexivity. }
  rewrite Hm, run_unsupported.
  destruct (Hshape None None false (or_introl eq_refl))
    as (e' & callback' & aborted' & -> & He').
  split; [reflexivity|split; [eauto|exact He']].
Qed.

(** The flags of the provider that no operation writes. *)
Lemma perform_flags (op : Op) (w : World) :
  let w' := state_after (perform op) w in
  isSupported w' = isSupported w
  /\ isReconnecting w' = isReconnecting w
  /\ navigator_serial w' = navigator_serial w.
Proof.
  destruct op as [picked settled|c1 c2 c3|text settled|r settled|cb];
    cbn [perform]; unfold state_after.
  - destruct (connect_cases w picked settled)
      as [Hs|[[Hs [e Hf]]|(Hs & port & -> & -> & Hc)]].
    + rewrite (connect_unsupported _ _ _ Hs); cbn; auto.
    + rewrite (connect_caught w picked settled e Hs Hf).
      unfold state_after; rewrite clearSerialFilterCookie_eq; cbn [fst].
      cbn [document set_abortRef set_error set_host_calls].
      destruct (document w); cbn; auto.
    + rewrite (connect_opened w port Hs Hc), openPortAndRead_eq by reflexivity.
      cbn [fst].
      destruct (identity port); unfold state_after;
        rewrite ?setSerialFilterCookie_eq; cbn [fst];
        try destruct (document _); cbn; auto.
  - rewrite disconnect_eq; cbn; auto.
  - rewrite send_eq; destruct (writerRef w); [destruct settled|]; cbn; auto.
  - destruct (find_loop r (loops w)) as [l|] eqn:Hl.
    + rewrite (readLoop_eq r settled w l Hl); cbn [fst].
      destruct settled as [[value|]|e]; try destruct (abortRef w); cbn; auto.
    + rewrite (readLoop_none r settled w Hl); cbn; auto.
  - cbn; auto.
Qed.

(** X13.  What the mount effects decide is final.  However the reconnection
    goes, once the mount effects have run the reconnecting flag is down, and
    no operation raises it again; the support flag shows whether the host
    has Web Serial, and no operation changes it. *)
Theorem mount_flags_are_final (serial : bool) (doc : option CookieJar)
  (listed : Completion (list SerialPort)) (settled : Completion unit)
  (ops : list Op) :
  let w := run ops (state_after (mount listed settled) (initial_world serial doc)) in
  isSupported w = serial /\ isReconnecting w = false /\ navigator_serial w = serial.
Proof.
  cbv zeta.
  destruct (mount_stream listed settled serial doc) as (_ & _ & H1 & H2 & H3).
  revert H1 H2 H3.
  generalize (state_after (mount listed settled) (initial_world serial doc)).
  induction ops as [|op ops IH]; intros w H1 H2 H3; [auto|].
  cbn [run]; destruct (perform_flags op w) as (F1 & F2 & F3).
  apply IH; congruence.
Qed.

(** X14.  The reconnect effect when the provider unmounts while it is under
    way.  If the cleanup runs before the list of ports arrives, the list is
    ignored: no port is opened and the store is left alone.  If it runs
    while the matching port is being opened, the effect still completes
    without raising, and starts no session: no reference is set, no loop
    starts, the provider shows what it showed.  But the port, if it opens,
    stays open at the host with nothing holding it; and if it does not open,
    the stored filter is removed all the same. *)
Theorem reconnect_after_unmount (w : World) (f : SerialPortFilter)
  (listed : Completion (list SerialPort)) (settled : Completion unit) :
  navigator_serial w = true ->
  persisted w = Normal (Some f) ->
  reconnect listed settled UnmountedBeforePorts w
  = (set_isReconnecting false (set_host_calls (host_calls w ++ [CallGetPorts]) w),
     Normal tt)
  /\ (forall ports port,
        listed = Normal ports -> matching_port f ports = Some port ->
        is_open (handle port) (opened w) = false ->
        let w' := state_after (reconnect listed settled UnmountedBeforeOpen) w in
        completion (reconnect listed settled UnmountedBeforeOpen) w = Normal tt
        /\ host_calls w' = host_calls w ++ [CallGetPorts; CallOpen (handle port) BAUD]
        /\ isReconnecting w' = false
        /\ isConnected w' = isConnected w
        /\ portRef w' = portRef w
        /\ readerRef w' = readerRef w
        /\ writerRef w' = writerRef w
        /\ loops w' = loops w
        /\ match settled with
           | Normal _ =>
               opened w' = (handle port, BAUD) :: opened w /\ document w' = document w
           | Throw _ =>
               opened w' = opened w /\ stored w' = None
           end).
Proof.
  intros Hs Hp; split.
  - unfold reconnect, reconnect_cleanup, host_call, bind, get, ret, modify, lift,
      try_catch.
    rewrite Hs; cbn [negb]; rewrite load_eq, Hp.
    destruct listed; reflexivity.
  - intros ports port -> Hm Hc; unfold state_after, completion.
    unfold reconnect, reconnect_cleanup, port_open, host_call, bind, get, ret,
      modify, lift, throw, try_catch, try_finally.
    rewrite Hs; cbn [negb]; rewrite load_eq, Hp, Hm.
    cbn [opened set_isReconnecting set_host_calls]; rewrite Hc.
    destruct settled as [[]|e]; cbn [fst snd].
    + cbn; rewrite <- app_assoc; auto 10.
    + rewrite clearSerialFilterCookie_eq; unfold stored; cbn [fst snd].
      cbn [document set_isReconnecting set_host_calls host_calls].
      destruct (document w) as [jar|] eqn:Hdoc; cbn; rewrite <- ?app_assoc;
        rewrite ?Hdoc, ?assoc_jar_remove; auto 10.
Qed.

(** X15.  A connection attempt that fails while a session is held releases
    nothing of it: the port, the reader and the writer stay held, the port
    stays open and its read loop stays pending, with the abort flag down.
    Yet the provider shows no connection from then on, and [send] still
    transmits to the held writer. *)
Theorem failed_connect_keeps_held_session (w : World)
  (picked : Completion SerialPort) (settled : Completion unit) (e : JsError)
  (text : jsstring) :
  navigator_serial w = true ->
  connect_fails w picked settled e ->
  let w' := state_after (connect picked settled) w in
  isConnected w' = false
  /\ abortRef w' = false
  /\ portRef w' = portRef w
  /\ readerRef w' = readerRef w
  /\ writerRef w' = writerRef w
  /\ opened w' = opened w
  /\ loops w' = loops w
  /\ (forall writer,
        writerRef w = Some writer ->
        written (state_after (send text (Normal tt)) w')
        = written w ++ [(writer, TextEncoder_encode (send_text text))]).
Proof.
  intros Hs Hf; unfold state_after.
  rewrite (connect_caught w picked settled e Hs Hf); cbn [fst].
  unfold state_after; rewrite clearSerialFilterCookie_eq; cbn [fst].
  cbn [document set_abortRef set_error set_host_calls].
  destruct (document w); cbn [isConnected abortRef portRef readerRef writerRef opened
    loops set_isConnected set_error set_document set_host_calls set_abortRef];
    (do 7 (split; [reflexivity|])); intros writer Hw; rewrite send_eq;
    cbn [writerRef set_isConnected set_error set_document set_host_calls set_abortRef];
    rewrite Hw; reflexivity.
Qed.

End Streams.

(** ** The cleanup of the hooks *)

Lemma useSerial_cleanup_eq (closed : Completion unit) (w : World) :
  useSerial_cleanup closed w =
  (match portRef w with
   | Some port =>
       set_opened match closed with
                  | Normal _ => close_port (handle port) (opened w)
                  | Throw _ => opened w
                  end
         (set_host_calls (host_calls w ++ [CallClosePort (handle port)])
            (set_abortRef true w))
   | None => set_abortRef true w
   end, Normal tt).
Proof.
  unfold useSerial_cleanup, port_close, host_call, bind, get, modify, ret, throw,
    try_catch.
  cbn [portRef set_abortRef].
  destruct (portRef w) as [port|]; [|reflexivity].
  destruct closed; reflexivity.
Qed.

(** X19.  The cleanup that the hooks run on unmount never raises, and it
    closes the port without releasing anything else: the only call it makes
    is [close()] on the held port, the reader is neither cancelled nor its
    reference cleared, the writer is neither closed nor its reference
    cleared, the port reference and the connection flag stay as they were,
    and the read loop stays pending.  With the abort flag up, a read that
    rejects afterwards ends the loop without touching the error field.  A
    later [disconnect] makes the same calls as it would have made before the
    cleanup. *)
Theorem hook_cleanup_releases_nothing (closed : Completion unit) (w : World) :
  let w' := state_after (useSerial_cleanup closed) w in
  completion (useSerial_cleanup closed) w = Normal tt
  /\ abortRef w' = true
  /\ portRef w' = portRef w
  /\ readerRef w' = readerRef w
  /\ writerRef w' = writerRef w
  /\ isConnected w' = isConnected w
  /\ loops w' = loops w
  /\ host_calls w'
     = host_calls w ++ match portRef w with
                       | Some port => [CallClosePort (handle port)]
                       | None => []
                       end
  /\ (forall r l e,
        find_loop r (loops w) = Some l ->
        error (state_after (readLoop r (Throw e)) w') = error w
        /\ find_loop r (loops (state_after (readLoop r (Throw e)) w')) = None)
  /\ disconnect_calls w' = disconnect_calls w.
Proof.
  unfold state_after, completion; rewrite useSerial_cleanup_eq; cbn [fst snd].
  destruct (portRef w) as [port|] eqn:Hp.
  - cbn -[readLoop]; rewrite Hp; do 8 (split; [reflexivity|]); split.
    + intros r l e Hl; rewrite (readLoop_eq r _ _ l) by exact Hl; cbn.
      split; [reflexivity|apply find_loop_remove].
    + unfold disconnect_calls; cbn; now rewrite Hp.
  - cbn -[readLoop]; rewrite Hp, app_nil_r; do 8 (split; [reflexivity|]); split.
    + intros r l e Hl; rewrite (readLoop_eq r _ _ l) by exact Hl; cbn.
      split; [reflexivity|apply find_loop_remove].
    + unfold disconnect_calls; cbn; now rewrite Hp.
Qed.

(** ** [DashboardReadModeReset] *)

Lemma DashboardReadModeReset_eq (provider : option SerialContextValue)
  (pathname : jsstring) (settled : Completion unit) (w : World) :
  DashboardReadModeReset provider pathname settled w =
  if jsstring_eqb pathname (lit "/dashboard") then
    match provider with
    | None => (w, Normal tt)
    | Some ctx => (fst (ctx_send ctx (lit "READ") settled w), Normal tt)
    end
  else (w, Normal tt).
Proof.
  unfold DashboardReadModeReset, useSerialContext, try_catch, ret.
  destruct provider as [ctx|]; destruct (jsstring_eqb pathname _); try reflexivity.
  destruct (ctx_send ctx _ settled w) as [w1 [[]|e]]; reflexivity.
Qed.

Section Callers.

Context `{Platform}.

(** X20.  The effect of [DashboardReadModeReset] never raises, whatever the
    context it finds and however the write settles.  On any path but the
    dashboard, and outside of a provider, it changes nothing.  On the
    dashboard, inside the provider, it changes nothing if no writer is held;
    if one is held it hands it the bytes of the command READ and a line
    feed, once, and a write that fails is dropped without a trace in
    the provider. *)
Theorem read_mode_reset_never_raises (provider : option SerialContextValue)
  (pathname : jsstring) (settled : Completion unit) (w : World) :
  let w' := state_after (DashboardReadModeReset provider pathname settled) w in
  completion (DashboardReadModeReset provider pathname settled) w = Normal tt
  /\ (pathname <> lit "/dashboard" -> w' = w)
  /\ (provider = None -> w' = w)
  /\ (forall w0,
        provider = Some (provider_value w0) -> pathname = lit "/dashboard" ->
        match writerRef w with
        | None => w' = w
        | Some writer =>
            host_calls w' = host_calls w ++ [CallWrite writer (lit "READ" ++ [LF])]
            /\ written w'
               = written w ++ match settled with
                              | Normal _ => [(writer, lit "READ" ++ [LF])]
                              | Throw _ => []
                              end
            /\ error w' = error w
            /\ writerRef w' = writerRef w
            /\ isConnected w' = isConnected w
        end).
Proof.
  unfold state_after, completion; rewrite DashboardReadModeReset_eq.
  split; [destruct (jsstring_eqb pathname _), provider; reflexivity|].
  split; [|split].
  - intros Hne; destruct (jsstring_eqb pathname _) eqn:E; [|reflexivity].
    now apply jsstring_eqb_eq in E.
  - intros ->; destruct (jsstring_eqb pathname _); reflexivity.
  - intros w0 -> ->; rewrite jsstring_eqb_refl; cbn [fst ctx_send provider_value].
    rewrite send_eq.
    destruct (writerRef w) as [writer|] eqn:Hw; [|reflexivity].
    destruct settled as [[]|e]; cbn; rewrite ?app_nil_r; auto 10.
Qed.

End Callers.

(** ** Generated identifiers *)

Lemma floor_times_lt (x : Fraction) (n : N) :
  unit_interval x -> 0 < n -> floor_times x n < n.
Proof.
  unfold unit_interval, floor_times; intros Hx Hn.
  apply N.Div0.div_lt_upper_bound; nia.
Qed.

Lemma append_char_in_range (id chars : jsstring) (i : N) :
  i < N.of_nat (List.length chars) ->
  exists c, append_char id chars i = id ++ [c] /\ In c chars.
Proof.
  intros Hi; unfold append_char.
  destruct (nth_error chars (N.to_nat i)) as [c|] eqn:E.
  - exists c; split; [reflexivity|exact (nth_error_In _ _ E)].
  - apply nth_error_None in E; lia.
Qed.

Lemma generate_loop_spec (count : nat) (random : nat -> Fraction) (i : nat)
  (id : jsstring) :
  (forall j, (i <= j < i + count)%nat -> unit_interval (random j)) ->
  exists suffix,
    generate_loop count random i id = id ++ suffix
    /\ List.length suffix = count
    /\ Forall (fun c => In c NFC_ID_CHARS) suffix.
Proof.
  revert i id; induction count as [|count IH]; intros i id Hr.
  - exists []; cbn; rewrite app_nil_r; auto.
  - cbn [generate_loop].
    destruct (append_char_in_range id NFC_ID_CHARS
                (floor_times (random i) (N.of_nat (List.length NFC_ID_CHARS))))
      as (c & -> & Hc); [apply floor_times_lt; [apply Hr; lia|reflexivity]|].
    destruct (IH (S i) (id ++ [c])) as (suffix & -> & Hlen & Hall);
      [intros j Hj; apply Hr; lia|].
    exists (c :: suffix); rewrite <- app_assoc; cbn [app List.length].
    split; [reflexivity|]; split; [now rewrite Hlen|now constructor].
Qed.

(** The shape of a generated identifier. *)
Lemma generated_id_spec (random : nat -> Fraction) :
  (forall i, (i < 8)%nat -> unit_interval (random i)) ->
  exists suffix,
    generateRandomNfcId random = lit "TI-" ++ suffix
    /\ List.length suffix = 8%nat
    /\ Forall (fun c => In c NFC_ID_CHARS) suffix.
Proof.
  intros Hr; unfold generateRandomNfcId.
  destruct (generate_loop_spec 8 random 0 (lit "TI-")) as (suffix & -> & Hlen & Hall);
    [intros j Hj; apply Hr; lia|].
  exists suffix; auto.
Qed.

Lemma generated_id_fixed_by_trim (random : nat -> Fraction) :
  (forall i, (i < 8)%nat -> unit_interval (random i)) ->
  trim (generateRandomNfcId random) = generateRandomNfcId random.
Proof.
  intros Hr; destruct (generated_id_spec random Hr) as (suffix & -> & Hlen & Hall).
  destruct (exists_last (l := suffix)) as (mid & z & ->);
    [intros ->; discriminate|].
  apply (trim_fixed _ 84 z (lit "I-" ++ mid)); [now rewrite <- app_assoc|reflexivity|].
  apply Forall_app in Hall; destruct Hall as [_ Hz]; inversion Hz as [|? ? Hin _]; subst.
  assert (Hchars : forallb (fun c => negb (isWhiteSpace c)) NFC_ID_CHARS = true)
    by reflexivity.
  rewrite forallb_forall in Hchars; specialize (Hchars z Hin).
  now apply negb_true_iff in Hchars.
Qed.

(** The characters of a generated identifier: ASCII, and none of those
    that end a capture or a line. *)
Lemma generated_id_plain (random : nat -> Fraction) :
  (forall i, (i < 8)%nat -> unit_interval (random i)) ->
  forallb (fun c => (c <? 128) && negb (c =? 58) && negb (c =? DQUOTE)
                    && negb (isLineTerminator c))
    (generateRandomNfcId random) = true.
Proof.
  intros Hr; destruct (generated_id_spec random Hr) as (suffix & -> & _ & Hall).
  rewrite forallb_app; apply andb_true_iff; split; [reflexivity|].
  apply forallb_forall; intros c Hin.
  rewrite Forall_forall in Hall; specialize (Hall c Hin).
  assert (Hchars :
            forallb (fun c => (c <? 128) && negb (c =? 58) && negb (c =? DQUOTE)
                              && negb (isLineTerminator c)) NFC_ID_CHARS = true)
    by reflexivity.
  rewrite forallb_forall in Hchars; exact (Hchars c Hall).
Qed.

Lemma forallb_weaken {A : Type} (f g : A -> bool) (l : list A) :
  (forall x, f x = true -> g x = true) -> forallb f l = true -> forallb g l = true.
Proof.
  intros Hfg Hf; apply forallb_forall; intros x Hin.
  apply Hfg; rewrite forallb_forall in Hf; auto.
Qed.

(** The pattern of menu mode needs a colon. *)
Lemma USER_ID_REGEX_needs_colon (s : jsstring) :
  forallb (fun c => negb (c =? 58)) s = true -> USER_ID_REGEX s = None.
Proof.
  induction s as [|c s IH]; intros Hs.
  - reflexivity.
  - rewrite USER_ID_REGEX_unfold.
    destruct (USER_ID_at (c :: s)) as [v|] eqn:E.
    + apply USER_ID_at_sound in E; destruct E as (ws & after & E & _).
      rewrite E in Hs; cbn in Hs; discriminate.
    + apply IH; cbn [forallb] in Hs; now apply andb_true_iff in Hs.
Qed.

(** X21.  As long as [Math.random()] keeps to its contract, a generated
    identifier is the prefix TI- and eight characters of the alphabet of the
    generator (no index ever falls outside of the alphabet, so the text
    undefined is never appended), eleven characters in all, and trimming
    leaves it as it is. *)
Theorem generated_id_shape (random : nat -> Fraction) :
  (forall i, (i < 8)%nat -> unit_interval (random i)) ->
  exists suffix,
    generateRandomNfcId random = lit "TI-" ++ suffix
    /\ List.length suffix = 8%nat
    /\ Forall (fun c => In c NFC_ID_CHARS) suffix
    /\ List.length (generateRandomNfcId random) = 11%nat
    /\ trim (generateRandomNfcId random) = generateRandomNfcId random.
Proof.
  intros Hr; pose proof (generated_id_fixed_by_trim random Hr) as Htrim.
  destruct (generated_id_spec random Hr) as (suffix & Hid & Hlen & Hall).
  exists suffix; do 3 (split; [assumption|]); split; [|exact Htrim].
  rewrite Hid, length_app, Hlen; reflexivity.
Qed.

(** X22.  A generated identifier survives the trip to a tag and back.  The
    command that writes it is transmitted byte for byte with one line feed
    after it; and a line on which the reader reports the identifier, in
    command mode or in menu mode, makes the provider call the consumer with
    exactly the identifier. *)
Theorem generated_id_round_trip (random : nat -> Fraction) (cb : Consumer) :
  (forall i, (i < 8)%nat -> unit_interval (random i)) ->
  let id := generateRandomNfcId random in
  TextEncoder_encode (send_text (lit "WRITE|" ++ id)) = lit "WRITE|" ++ id ++ [LF]
  /\ dispatch (Some cb) (lit "OK|READ|" ++ id) = [(cb, id)]
  /\ dispatch (Some cb) (lit "User ID: " ++ [DQUOTE] ++ id ++ [DQUOTE]) = [(cb, id)].
Proof.
  intros Hr id.
  pose proof (generated_id_plain random Hr) as Hplain; fold id in Hplain.
  pose proof (generated_id_fixed_by_trim random Hr) as Htrim; fold id in Htrim.
  destruct (generated_id_spec random Hr) as (suffix & Hid & Hlen & _).
  fold id in Hid.
  assert (Hne : nonempty (trim id) = true) by (rewrite Htrim, Hid; reflexivity).
  assert (Hascii : Forall is_ascii id).
  { apply Forall_forall; intros c Hin; rewrite forallb_forall in Hplain.
    specialize (Hplain c Hin); unfold is_ascii.
    repeat (apply andb_true_iff in Hplain; destruct Hplain as [Hplain ?]).
    now apply N.ltb_lt. }
  assert (Hterm : forallb (fun c => negb (isLineTerminator c)) id = true).
  { revert Hplain; apply forallb_weaken; intros c Hc.
    now apply andb_true_iff in Hc. }
  assert (Hcolon : forallb (fun c => negb (c =? 58)) id = true).
  { revert Hplain; apply forallb_weaken; intros c Hc.
    repeat (apply andb_true_iff in Hc; destruct Hc as [Hc ?]); assumption. }
  assert (Hquote : forallb (fun c => negb (c =? DQUOTE)) id = true).
  { revert Hplain; apply forallb_weaken; intros c Hc.
    apply andb_true_iff in Hc; destruct Hc as [Hc _].
    now apply andb_true_iff in Hc. }
  split; [|split].
  - rewrite send_text_appends, TextEncoder_encode_ascii.
    + now rewrite <- app_assoc.
    + apply Forall_app; split; [|repeat constructor].
      apply Forall_app; split; [|exact Hascii].
      repeat constructor.
    + rewrite forallb_app; apply andb_true_iff; split; [reflexivity|].
      revert Hterm; apply forallb_weaken; intros c Hc.
      unfold isLineTerminator in Hc; unfold LF.
      destruct (c =? 10); [discriminate|reflexivity].
  - rewrite (dispatch_command cb _ id), Hne, Htrim; [reflexivity| |].
    + apply USER_ID_REGEX_needs_colon; rewrite forallb_app, Hcolon; reflexivity.
    + apply OK_READ_REGEX_spec; split; [reflexivity|]; split; [|exact Hterm].
      rewrite Hid; discriminate.
  - rewrite (dispatch_menu cb _ id), Hne, Htrim; [reflexivity|].
    rewrite USER_ID_REGEX_unfold.
    change (lit "User ID: " ++ [DQUOTE] ++ id ++ [DQUOTE])
      with (lit "User ID:" ++ [32] ++ [DQUOTE] ++ id ++ [DQUOTE] ++ []).
    now rewrite USER_ID_at_complete.
Qed.

(** ** The tag handler of the edit page *)

Section EditPatientPageProperties.

Context `{Platform}.
Variables Patient Form : Type.
Variable patientToForm : Patient -> Form.
Variable emptyForm : jsstring -> Form.

(** The handler while a write is pending, a writer is held and both writes
    succeed. *)
Lemma handleTagRead_pending (w0 w : World) (random : nat -> Fraction)
  (getPatientByNfcId : jsstring -> option Patient) (tagId id : jsstring)
  (writer : Writer) (page : EditPage Patient Form) :
  pendingWriteNfcIdRef _ _ page = Some id ->
  writerRef w = Some writer ->
  handleTagRead Patient Form patientToForm emptyForm (provider_value w0) random
    getPatientByNfcId tagId (Normal tt) (Normal tt) page w
  = (mkEditPage _ _ (nfcIdInput _ _ page) (loadedPatient _ _ page) (form _ _ page)
       (loadError _ _ page) None true (Some id),
     set_written
       (written w ++ [(writer, TextEncoder_encode (send_text (lit "WRITE|" ++ id)));
                      (writer, lit "READ" ++ [LF])])
       (set_host_calls
          (host_calls w
           ++ [CallWrite writer (TextEncoder_encode (send_text (lit "WRITE|" ++ id)));
               CallWrite writer (lit "READ" ++ [LF])]) w),
     Normal tt).
Proof.
  intros Hp Hw; unfold handleTagRead; rewrite Hp; cbn [provider_value ctx_send].
  rewrite send_eq, Hw; cbv beta iota zeta.
  rewrite send_eq; cbn [writerRef set_written set_host_calls]; rewrite Hw;
    cbv beta iota zeta.
  unfold set_written, set_host_calls; cbn.
  now rewrite <- !app_assoc.
Qed.

(** X23.  While a write is pending and a writer is held, a tag event makes
    the edit page send the command that writes the pending identifier and
    then the command READ, in this order, and nothing else of the page
    changes but the two flags of the write: the pending identifier is
    cleared and the write is marked as done, both before anything is sent.
    If the first write rejects, the handler raises its error, the command
    READ is not sent, and the write is marked as done all the same.  The
    reference that the handler reads keeps the identifier until the effect
    that copies the state into it has run. *)
Theorem pending_write_sends_write_then_read (w0 w : World)
  (random : nat -> Fraction) (getPatientByNfcId : jsstring -> option Patient)
  (tagId id : jsstring) (writer : Writer) (write_settled read_settled : Completion unit)
  (page : EditPage Patient Form) :
  pendingWriteNfcIdRef _ _ page = Some id ->
  writerRef w = Some writer ->
  let data := TextEncoder_encode (send_text (lit "WRITE|" ++ id)) in
  let result := handleTagRead Patient Form patientToForm emptyForm
                  (provider_value w0) random getPatientByNfcId tagId
                  write_settled read_settled page w in
  let page' := fst (fst result) in
  let w' := snd (fst result) in
  pendingWriteNfcId _ _ page' = None
  /\ writeToTagDone _ _ page' = true
  /\ pendingWriteNfcIdRef _ _ page' = Some id
  /\ nfcIdInput _ _ page' = nfcIdInput _ _ page
  /\ loadedPatient _ _ page' = loadedPatient _ _ page
  /\ form _ _ page' = form _ _ page
  /\ loadError _ _ page' = loadError _ _ page
  /\ match write_settled with
     | Normal _ =>
         host_calls w'
         = host_calls w ++ [CallWrite writer data; CallWrite writer (lit "READ" ++ [LF])]
         /\ written w'
            = written w ++ (writer, data)
                :: match read_settled with
                   | Normal _ => [(writer, lit "READ" ++ [LF])]
                   | Throw _ => []
                   end
         /\ snd result = read_settled
     | Throw e =>
         host_calls w' = host_calls w ++ [CallWrite writer data]
         /\ written w' = written w
         /\ snd result = Throw e
     end.
Proof.
  intros Hp Hw data result page' w'; subst page' w' result.
  unfold handleTagRead; rewrite Hp; cbn [provider_value ctx_send].
  rewrite send_eq, Hw; cbv zeta.
  destruct write_settled as [[]|e]; cbn [fst snd].
  - rewrite send_eq; cbn [writerRef set_written set_host_calls]; rewrite Hw.
    destruct read_settled as [[]|e]; cbn; rewrite <- ?app_assoc; auto 10.
  - cbn; auto 10.
Qed.

(** X24.  The edit page marks a write as done that was never made.  While a
    write is pending, a tag event that arrives when the provider holds no
    writer, or when the page is outside of a provider, sends nothing, raises
    nothing, and yet clears the pending identifier and marks the write as
    done. *)
Theorem pending_write_without_writer_is_reported_done
  (provider : option SerialContextValue) (ctx : SerialContextValue) (w0 w : World)
  (random : nat -> Fraction) (getPatientByNfcId : jsstring -> option Patient)
  (tagId id : jsstring) (write_settled read_settled : Completion unit)
  (page : EditPage Patient Form) :
  useSerialContext provider = Normal ctx ->
  provider = None \/ (provider = Some (provider_value w0) /\ writerRef w = None) ->
  pendingWriteNfcIdRef _ _ page = Some id ->
  let result := handleTagRead Patient Form patientToForm emptyForm ctx random
                  getPatientByNfcId tagId write_settled read_settled page w in
  snd (fst result) = w
  /\ snd result = Normal tt
  /\ pendingWriteNfcId _ _ (fst (fst result)) = None
  /\ writeToTagDone _ _ (fst (fst result)) = true.
Proof.
  intros Hctx Hcase Hp result; subst result; unfold handleTagRead; rewrite Hp.
  destruct Hcase as [-> | [-> Hw]]; cbn in Hctx; inversion Hctx; subst ctx.
  - cbn; auto.
  - cbn [provider_value ctx_send]; rewrite send_eq, Hw, send_eq, Hw; cbn; auto.
Qed.

(** A caller that awaits [send]: the call and its resumption are [send]. *)
Lemma send_phases (text : jsstring) (settled : Completion unit) (w : World) :
  send text settled w
  = let (w1, c) := send_call text w in
    send_resumed match c with Normal write => write | Throw _ => None end settled w1.
Proof.
  rewrite send_eq; unfold send_call, send_resumed, send_settled, host_call, bind,
    get, modify, ret, throw.
  destruct (writerRef w); [destruct settled|]; reflexivity.
Qed.

(** One call of the handler with nothing between it and its settlements is
    the handler run in one step. *)
Lemma handleTagRead_phases (w0 : World) (random : nat -> Fraction)
  (getPatientByNfcId : jsstring -> option Patient) (tagId : jsstring)
  (write_settled read_settled : Completion unit) (page : EditPage Patient Form)
  (w : World) :
  handleTagRead Patient Form patientToForm emptyForm (provider_value w0) random
    getPatientByNfcId tagId write_settled read_settled page w
  = let first := handleTagRead_call Patient Form random tagId page w in
    match handleTagRead_resumed Patient Form patientToForm emptyForm
            getPatientByNfcId (snd first) write_settled (fst (fst first))
            (snd (fst first)) with
    | (page2, w2, Normal (Some k)) =>
        match handleTagRead_resumed Patient Form patientToForm emptyForm
                getPatientByNfcId k read_settled page2 w2 with
        | (page3, w3, Normal _) => (page3, w3, Normal tt)
        | (page3, w3, Throw e) => (page3, w3, Throw e)
        end
    | (page2, w2, Normal None) => (page2, w2, Normal tt)
    | (page2, w2, Throw e) => (page2, w2, Throw e)
    end.
Proof.
  unfold handleTagRead, handleTagRead_call, handleTagRead_resumed.
  destruct (pendingWriteNfcIdRef _ _ page) as [toWrite|]; cbn [provider_value ctx_send].
  - rewrite !send_phases.
    destruct (send_call (lit "WRITE|" ++ toWrite) w) as [w1 c1]; cbn [fst snd].
    destruct (send_resumed _ write_settled w1) as [w2 [[]|e]]; [|reflexivity].
    rewrite send_phases.
    destruct (send_call (lit "READ") w2) as [w3 c3]; cbn [fst snd].
    destruct (send_resumed _ read_settled w3) as [w4 [[]|e]]; reflexivity.
  - cbn [fst snd]; destruct (nonempty (trim tagId)); reflexivity.
Qed.

(** A call of the handler while a write is pending and a writer is held. *)
Lemma handleTagRead_call_pending (random : nat -> Fraction) (tagId id : jsstring)
  (writer : Writer) (page : EditPage Patient Form) (w : World) :
  pendingWriteNfcIdRef _ _ page = Some id ->
  writerRef w = Some writer ->
  handleTagRead_call Patient Form random tagId page w
  = (mkEditPage _ _ (nfcIdInput _ _ page) (loadedPatient _ _ page) (form _ _ page)
       (loadError _ _ page) None true (Some id),
     set_host_calls
       (host_calls w
        ++ [CallWrite writer (TextEncoder_encode (send_text (lit "WRITE|" ++ id)))]) w,
     AwaitWriteCommand
       (Some (AwaitWrite writer (TextEncoder_encode (send_text (lit "WRITE|" ++ id)))))).
Proof.
  intros Hp Hw; unfold handleTagRead_call, send_call, host_call, bind, get, modify,
    ret.
  now rewrite Hp, Hw.
Qed.

(** The handler goes on after its first write, a writer being held. *)
Lemma handleTagRead_resumed_write
  (getPatientByNfcId : jsstring -> option Patient) (data : Uint8Array)
  (writer writer' : Writer) (page : EditPage Patient Form) (w : World) :
  writerRef w = Some writer' ->
  handleTagRead_resumed Patient Form patientToForm emptyForm getPatientByNfcId
    (AwaitWriteCommand (Some (AwaitWrite writer data))) (Normal tt) page w
  = (page,
     set_host_calls (host_calls w ++ [CallWrite writer' (lit "READ" ++ [LF])])
       (set_written (written w ++ [(writer, data)]) w),
     Normal (Some (AwaitReadCommand (Some (AwaitWrite writer' (lit "READ" ++ [LF])))))).
Proof.
  intros Hw; unfold handleTagRead_resumed, send_resumed, send_settled, send_call,
    host_call, bind, get, modify, ret.
  cbn [writerRef set_written]; now rewrite Hw.
Qed.

(** X25.  The pending identifier is written once for every tag event that
    arrives before the page has copied its state into the reference that
    the handler reads, and the read loop does not await the handler: for
    two lines of one chunk the two calls of the handler run back to back up
    to their first [await], so that the host is asked twice to write the
    identifier before either command READ is sent.  The two commands READ
    follow when the writes have settled, whichever handler goes on first:
    WRITE, WRITE, READ, READ.  Once the effect has copied the cleared
    state, the next event sends nothing. *)
Theorem pending_write_repeats_until_synced (w : World)
  (random : nat -> Fraction) (getPatientByNfcId : jsstring -> option Patient)
  (tag1 tag2 tag3 id : jsstring) (writer : Writer) (page : EditPage Patient Form) :
  pendingWriteNfcIdRef _ _ page = Some id ->
  writerRef w = Some writer ->
  let data := TextEncoder_encode (send_text (lit "WRITE|" ++ id)) in
  let read := lit "READ" ++ [LF] in
  let resumed := handleTagRead_resumed Patient Form patientToForm emptyForm
                   getPatientByNfcId in
  let first := handleTagRead_call Patient Form random tag1 page w in
  let second := handleTagRead_call Patient Form random tag2
                  (fst (fst first)) (snd (fst first)) in
  let third := resumed (snd first) (Normal tt) (fst (fst second)) (snd (fst second)) in
  let fourth := resumed (snd second) (Normal tt) (fst (fst third)) (snd (fst third)) in
  let third' := resumed (snd second) (Normal tt) (fst (fst second)) (snd (fst second)) in
  let fourth' := resumed (snd first) (Normal tt) (fst (fst third')) (snd (fst third')) in
  let later := handleTagRead_call Patient Form random tag3
                 (sync_pendingWriteNfcIdRef _ _ (fst (fst fourth)))
                 (snd (fst fourth)) in
  snd first = AwaitWriteCommand (Some (AwaitWrite writer data))
  /\ snd second = AwaitWriteCommand (Some (AwaitWrite writer data))
  /\ host_calls (snd (fst second))
     = host_calls w ++ [CallWrite writer data; CallWrite writer data]
  /\ written (snd (fst second)) = written w
  /\ snd third = Normal (Some (AwaitReadCommand (Some (AwaitWrite writer read))))
  /\ snd fourth = Normal (Some (AwaitReadCommand (Some (AwaitWrite writer read))))
  /\ host_calls (snd (fst fourth))
     = host_calls w ++ [CallWrite writer data; CallWrite writer data;
                        CallWrite writer read; CallWrite writer read]
  /\ written (snd (fst fourth)) = written w ++ [(writer, data); (writer, data)]
  /\ host_calls (snd (fst fourth')) = host_calls (snd (fst fourth))
  /\ written (snd (fst fourth')) = written (snd (fst fourth))
  /\ snd (fst later) = snd (fst fourth)
  /\ exists idToUse isEmptyCard, snd later = AwaitPatient idToUse isEmptyCard.
Proof.
  intros Hp Hw data read resumed first second third fourth third' fourth' later.
  subst later fourth' third' fourth third second first resumed data read.
  rewrite (handleTagRead_call_pending random tag1 id writer page w Hp Hw).
  cbn [fst snd].
  erewrite (handleTagRead_call_pending random tag2 id writer);
    [|reflexivity|exact Hw].
  cbn [fst snd].
  erewrite !(handleTagRead_resumed_write getPatientByNfcId _ writer writer)
    by exact Hw.
  cbn [fst snd].
  unfold handleTagRead_call; cbn [sync_pendingWriteNfcIdRef pendingWriteNfcIdRef
                                  pendingWriteNfcId fst snd].
  cbn [host_calls written set_host_calls set_written].
  rewrite <- !app_assoc; cbn [app].
  repeat split; eauto.
Qed.


End EditPatientPageProperties.

(** ** The tag handler of the scan view *)

Section ScanViewProperties.

Context `{Platform}.
Variable Patient : Type.


End ScanViewProperties.

(** ** The further statements on concrete inputs *)

Section FurtherConcrete.

Import ReferenceHost.

(** A command-mode line with white space around the line and in front of
    the identifier. *)
Lemma command_capture_is_delivered_witness :
  USER_ID_REGEX (trim (lit "  OK|READ| AB12   ")) = None
  /\ OK_READ_REGEX (trim (lit "  OK|READ| AB12   ")) = Some (lit " AB12")
  /\ dispatch (Some 7%nat) (trim (lit "  OK|READ| AB12   ")) = [(7%nat, lit "AB12")].
Proof.
  split; [reflexivity|split; [reflexivity|]].
  exact (proj2 (command_capture_is_delivered 7%nat (lit "  OK|READ| AB12   ")
                  (lit " AB12") eq_refl eq_refl)).
Defined.

(** One line that arrives in two chunks on a new connection. *)
Lemma connected_reader_delivers_framed_stream_witness :
  calls
    (run (chunk_reads 0%nat [lit "OK|READ|AB"; lit "12" ++ [LF]])
       (state_after (connect (Normal reader_a) (Normal tt))
          (state_after (setOnTagRead (Some 7%nat)) startup)))
  = [(7%nat, lit "AB12")].
Proof.
  exact (proj1 (connected_reader_delivers_framed_stream (H := host)
                  (state_after (setOnTagRead (Some 7%nat)) startup) reader_a
                  [lit "OK|READ|AB"; lit "12" ++ [LF]] eq_refl eq_refl)).
Defined.

(** A tag read before a consumer registers, and one read after. *)
Lemma events_without_consumer_are_dropped_witness :
  calls
    (run (OpSetOnTagRead None
          :: chunk_reads 0%nat [lit "OK|READ|AB12" ++ [LF]]
          ++ OpSetOnTagRead (Some 9%nat)
          :: chunk_reads 0%nat [lit "OK|READ|CD34" ++ [LF]])
       (state_after (connect (Normal reader_a) (Normal tt)) startup))
  = [(9%nat, lit "CD34")].
Proof.
  exact (events_without_consumer_are_dropped (H := host) 0%nat
           {| reader := 0%nat; readBuffer := [] |}
           (state_after (connect (Normal reader_a) (Normal tt)) startup) 9%nat
           [lit "OK|READ|AB12" ++ [LF]] [lit "OK|READ|CD34" ++ [LF]]
           eq_refl eq_refl).
Defined.

(** The device is unplugged while reader a is connected. *)
Lemma read_loop_ends_on_failure_witness :
  error (state_after (readLoop 0%nat (Throw NetworkError))
           (state_after (connect (Normal reader_a) (Normal tt)) startup))
  = Some (lit "Failed to open serial port.")
  /\ isConnected (state_after (readLoop 0%nat (Throw NetworkError))
                    (state_after (connect (Normal reader_a) (Normal tt)) startup))
     = true.
Proof.
  assert (Hs : forall value, Throw NetworkError <> Normal (Chunk value))
    by (intros value E; discriminate E).
  destruct (read_loop_ends_on_failure 0%nat {| reader := 0%nat; readBuffer := [] |}
              (state_after (connect (Normal reader_a) (Normal tt)) startup)
              (Throw NetworkError) eq_refl Hs)
    as (_ & _ & _ & _ & _ & He & Hc & _).
  split; [exact He|exact Hc].
Defined.

(** A tag line that arrives after [disconnect] has returned. *)
Lemma chunk_after_disconnect_is_dispatched_witness :
  calls
    (state_after (readLoop 0%nat (Normal (Chunk (lit "OK|READ|AB12" ++ [LF]))))
       (state_after (disconnect (Normal tt) (Normal tt) (Normal tt))
          (state_after (connect (Normal reader_a) (Normal tt))
             (state_after (setOnTagRead (Some 7%nat)) startup))))
  = [(7%nat, lit "AB12")].
Proof.
  destruct (chunk_after_disconnect_is_dispatched 0%nat
              {| reader := 0%nat; readBuffer := [] |}
              (state_after (connect (Normal reader_a) (Normal tt))
                 (state_after (setOnTagRead (Some 7%nat)) startup))
              (Normal tt) (Normal tt) (Normal tt) (lit "OK|READ|AB12" ++ [LF]) eq_refl)
    as (_ & Hcalls & _).
  exact Hcalls.
Defined.

(** Reader a is disconnected and reader b connected before the loop of
    reader a has seen the end of its stream. *)
Lemma stale_loop_end_orphans_reader_witness :
  readerRef
    (run [OpConnect (Normal reader_a) (Normal tt);
          OpDisconnect (Normal tt) (Normal tt) (Normal tt);
          OpConnect (Normal reader_b) (Normal tt)] startup)
  = Some 1%nat
  /\ disconnect_calls
       (state_after (readLoop 0%nat (Normal Done))
          (run [OpConnect (Normal reader_a) (Normal tt);
                OpDisconnect (Normal tt) (Normal tt) (Normal tt);
                OpConnect (Normal reader_b) (Normal tt)] startup))
     = [CallCloseWriter 2%nat; CallClosePort 2%nat]
  /\ ~ In (CallCancel 1%nat)
         (disconnect_calls
            (state_after (readLoop 0%nat (Normal Done))
               (run [OpConnect (Normal reader_a) (Normal tt);
                     OpDisconnect (Normal tt) (Normal tt) (Normal tt);
                     OpConnect (Normal reader_b) (Normal tt)] startup))).
Proof.
  assert (Hs : forall value, Normal Done <> Normal (Chunk value))
    by (intros value E; discriminate E).
  assert (Hne : 0%nat <> 1%nat) by discriminate.
  destruct (stale_loop_end_orphans_reader 0%nat 1%nat
              {| reader := 0%nat; readBuffer := [] |}
              {| reader := 1%nat; readBuffer := [] |}
              (run (H := host) [OpConnect (Normal reader_a) (Normal tt);
                    OpDisconnect (Normal tt) (Normal tt) (Normal tt);
                    OpConnect (Normal reader_b) (Normal tt)] startup)
              (Normal Done) (Normal tt) (Normal tt) (Normal tt)
              Hne eq_refl eq_refl eq_refl Hs)
    as (_ & Hno & _).
  split; [reflexivity|split; [reflexivity|exact Hno]].
Defined.

(** The cookie of the page survives a save and a clear. *)
Lemma store_leaves_other_cookies_witness :
  cookie_named (lit "theme") (state_after (setSerialFilterCookie reader_filter) startup)
  = Some (lit "dark")
  /\ cookie_named (lit "theme")
       (state_after clearSerialFilterCookie (initial_world true (Some saved_jar)))
     = Some (lit "dark").
Proof.
  assert (Hne : lit "theme" <> SERIAL_FILTER_COOKIE) by discriminate.
  split.
  - exact (proj1 (store_leaves_other_cookies (H := host) (lit "theme") reader_filter
                    startup Hne)).
  - exact (proj2 (store_leaves_other_cookies (H := host) (lit "theme") reader_filter
                    (initial_world true (Some saved_jar)) Hne)).
Defined.

(** The same stored filter among other cookies, in another order. *)
Lemma load_reads_only_own_cookie_witness :
  persisted (initial_world true (Some saved_jar))
  = persisted
      (initial_world false
         (Some [(SERIAL_FILTER_COOKIE, encode (stringify (filter_object reader_filter)));
                (lit "theme", lit "light"); (lit "lang", lit "en")])).
Proof.
  exact (load_reads_only_own_cookie (H := host)
           (initial_world true (Some saved_jar))
           (initial_world false
              (Some [(SERIAL_FILTER_COOKIE,
                      encode (stringify (filter_object reader_filter)));
                     (lit "theme", lit "light"); (lit "lang", lit "en")]))
           _ _ eq_refl eq_refl eq_refl eq_refl eq_refl).
Defined.

(** The provider unmounts while the stored reader is being opened. *)
Lemma reconnect_after_unmount_witness :
  opened (state_after (reconnect (Normal [reader_b; reader_a]) (Normal tt)
                         UnmountedBeforeOpen)
            (initial_world true (Some saved_jar)))
  = [(2%nat, BAUD)]
  /\ portRef (state_after (reconnect (Normal [reader_b; reader_a]) (Normal tt)
                             UnmountedBeforeOpen)
                (initial_world true (Some saved_jar)))
     = None.
Proof.
  destruct (reconnect_after_unmount (H := host) (initial_world true (Some saved_jar))
              reader_filter (Normal [reader_b; reader_a]) (Normal tt)
              eq_refl eq_refl) as [_ Hopen].
  destruct (Hopen [reader_b; reader_a] reader_b eq_refl eq_refl eq_refl)
    as (_ & _ & _ & _ & Hp & _ & _ & _ & Ho & _).
  split; [exact Ho|exact Hp].
Defined.

(** The user dismisses the chooser while reader a is connected. *)
Lemma failed_connect_keeps_held_session_witness :
  isConnected
    (state_after (connect (Throw NotFoundError) (Normal tt))
       (state_after (connect (Normal reader_a) (Normal tt)) startup))
  = false
  /\ written
       (state_after (send (lit "READ") (Normal tt))
          (state_after (connect (Throw NotFoundError) (Normal tt))
             (state_after (connect (Normal reader_a) (Normal tt)) startup)))
     = [(1%nat, lit "READ" ++ [LF])].
Proof.
  destruct (failed_connect_keeps_held_session (H := host)
              (state_after (connect (Normal reader_a) (Normal tt)) startup)
              (Throw NotFoundError) (Normal tt) NotFoundError (lit "READ")
              eq_refl (or_introl eq_refl))
    as (Hc & _ & _ & _ & _ & _ & _ & Hsend).
  split; [exact Hc|exact (Hsend 1%nat eq_refl)].
Defined.

(** The command READ, sent and read back. *)
Lemma sent_line_frames_as_one_line_witness :
  feed [] (TextEncoder_encode (send_text (lit "READ"))) = ([lit "READ"], []).
Proof.
  apply sent_line_frames_as_one_line; [|reflexivity].
  repeat constructor.
Defined.

(** Eight calls of [Math.random()] that return 0, 1/8, ..., 7/8. *)
Lemma generated_id_shape_witness :
  generateRandomNfcId (fun i => {| mantissa := N.of_nat i; scale := 3 |})
  = lit "TI-AEJNSW26"
  /\ exists suffix,
       generateRandomNfcId (fun i => {| mantissa := N.of_nat i; scale := 3 |})
       = lit "TI-" ++ suffix
       /\ List.length suffix = 8%nat
       /\ Forall (fun c => In c NFC_ID_CHARS) suffix
       /\ List.length
            (generateRandomNfcId (fun i => {| mantissa := N.of_nat i; scale := 3 |}))
          = 11%nat
       /\ trim (generateRandomNfcId (fun i => {| mantissa := N.of_nat i; scale := 3 |}))
          = generateRandomNfcId (fun i => {| mantissa := N.of_nat i; scale := 3 |}).
Proof.
  split; [reflexivity|].
  apply generated_id_shape.
  intros i Hi; unfold unit_interval; cbn [mantissa scale].
  change (2 ^ 3) with 8; lia.
Defined.

Lemma generated_id_round_trip_witness :
  dispatch (Some 7%nat)
    (lit "OK|READ|"
     ++ generateRandomNfcId (fun i => {| mantissa := N.of_nat i; scale := 3 |}))
  = [(7%nat, lit "TI-AEJNSW26")].
Proof.
  assert (Hr : forall i, (i < 8)%nat ->
                         unit_interval {| mantissa := N.of_nat i; scale := 3 |}).
  { intros i Hi; unfold unit_interval; cbn [mantissa scale].
    change (2 ^ 3) with 8; lia. }
  destruct (generated_id_round_trip
              (fun i => {| mantissa := N.of_nat i; scale := 3 |}) 7%nat Hr)
    as (_ & Hcommand & _).
  exact Hcommand.
Defined.

(** A tag is scanned while an identifier waits to be written, and the write
    fails. *)
Lemma pending_write_sends_write_then_read_witness :
  writeToTagDone nat jsstring
    (fst (fst (handleTagRead nat jsstring (fun _ => []) (fun id => id)
                 (provider_value startup)
                 (fun _ => {| mantissa := 0; scale := 0 |}) (fun _ => None)
                 (lit "AB12") (Throw NetworkError) (Normal tt)
                 (mkEditPage nat jsstring [] None [] None
                    (Some (lit "TI-AEJNSW26")) false (Some (lit "TI-AEJNSW26")))
                 (state_after (connect (Normal reader_a) (Normal tt)) startup))))
  = true
  /\ snd (handleTagRead nat jsstring (fun _ => []) (fun id => id)
            (provider_value startup)
            (fun _ => {| mantissa := 0; scale := 0 |}) (fun _ => None)
            (lit "AB12") (Throw NetworkError) (Normal tt)
            (mkEditPage nat jsstring [] None [] None
               (Some (lit "TI-AEJNSW26")) false (Some (lit "TI-AEJNSW26")))
            (state_after (connect (Normal reader_a) (Normal tt)) startup))
     = Throw NetworkError.
Proof.
  destruct (pending_write_sends_write_then_read (H := host) nat jsstring
              (fun _ => []) (fun id => id) startup
              (state_after (connect (Normal reader_a) (Normal tt)) startup)
              (fun _ => {| mantissa := 0; scale := 0 |}) (fun _ => None)
              (lit "AB12") (lit "TI-AEJNSW26") 1%nat (Throw NetworkError) (Normal tt)
              (mkEditPage nat jsstring [] None [] None
                 (Some (lit "TI-AEJNSW26")) false (Some (lit "TI-AEJNSW26")))
              eq_refl eq_refl)
    as (_ & Hdone & _ & _ & _ & _ & _ & _ & _ & Hraise).
  split; [exact Hdone|exact Hraise].
Defined.

(** A tag is scanned while an identifier waits to be written and no reader
    is connected. *)
Lemma pending_write_without_writer_is_reported_done_witness :
  written
    (snd (fst (handleTagRead nat jsstring (fun _ => []) (fun id => id)
                 (provider_value startup)
                 (fun _ => {| mantissa := 0; scale := 0 |}) (fun _ => None)
                 (lit "AB12") (Normal tt) (Normal tt)
                 (mkEditPage nat jsstring [] None [] None
                    (Some (lit "TI-AEJNSW26")) false (Some (lit "TI-AEJNSW26")))
                 startup)))
  = []
  /\ writeToTagDone nat jsstring
       (fst (fst (handleTagRead nat jsstring (fun _ => []) (fun id => id)
                    (provider_value startup)
                    (fun _ => {| mantissa := 0; scale := 0 |}) (fun _ => None)
                    (lit "AB12") (Normal tt) (Normal tt)
                    (mkEditPage nat jsstring [] None [] None
                       (Some (lit "TI-AEJNSW26")) false (Some (lit "TI-AEJNSW26")))
                    startup)))
     = true.
Proof.
  destruct (pending_write_without_writer_is_reported_done (H := host) nat jsstring
              (fun _ => []) (fun id => id)
              (Some (provider_value startup)) (provider_value startup) startup startup
              (fun _ => {| mantissa := 0; scale := 0 |}) (fun _ => None)
              (lit "AB12") (lit "TI-AEJNSW26") (Normal tt) (Normal tt)
              (mkEditPage nat jsstring [] None [] None
                 (Some (lit "TI-AEJNSW26")) false (Some (lit "TI-AEJNSW26")))
              eq_refl (or_intror (conj eq_refl eq_refl)) eq_refl)
    as (Hw & _ & _ & Hdone).
  split; [now rewrite Hw|exact Hdone].
Defined.

(** Two lines of one chunk reach the edit page while a write is pending:
    both writes are asked of the host before anything else. *)
Lemma pending_write_repeats_until_synced_witness :
  host_calls
    (snd (fst (handleTagRead_call nat jsstring
                 (fun _ => {| mantissa := 0; scale := 0 |}) (lit "CD34")
                 (fst (fst (handleTagRead_call nat jsstring
                              (fun _ => {| mantissa := 0; scale := 0 |}) (lit "AB12")
                              (mkEditPage nat jsstring [] None [] None
                                 (Some (lit "TI-X")) false (Some (lit "TI-X")))
                              (state_after (connect (Normal reader_a) (Normal tt))
                                 startup))))
                 (snd (fst (handleTagRead_call nat jsstring
                              (fun _ => {| mantissa := 0; scale := 0 |}) (lit "AB12")
                              (mkEditPage nat jsstring [] None [] None
                                 (Some (lit "TI-X")) false (Some (lit "TI-X")))
                              (state_after (connect (Normal reader_a) (Normal tt))
                                 startup)))))))
  = [CallRequestPort None; CallOpen 1%nat BAUD;
     CallWrite 1%nat (lit "WRITE|TI-X" ++ [LF]);
     CallWrite 1%nat (lit "WRITE|TI-X" ++ [LF])].
Proof.
  destruct (pending_write_repeats_until_synced nat jsstring
              (fun _ => []) (fun id => id)
              (state_after (connect (Normal reader_a) (Normal tt)) startup)
              (fun _ => {| mantissa := 0; scale := 0 |}) (fun _ => None)
              (lit "AB12") (lit "CD34") (lit "EF56") (lit "TI-X") 1%nat
              (mkEditPage nat jsstring [] None [] None
                 (Some (lit "TI-X")) false (Some (lit "TI-X")))
              eq_refl eq_refl)
    as (_ & _ & Hcalls & _).
  exact Hcalls.
Defined.

(** The same two lines to the end: WRITE, WRITE, READ, READ. *)
Example two_lines_of_one_chunk_write_twice :
  map (fun c => match c with CallWrite _ data => data | _ => [] end)
    (host_calls
       (snd (fst
          (handleTagRead_resumed nat jsstring (fun _ => []) (fun id => id)
             (fun _ => None)
             (AwaitWriteCommand (Some (AwaitWrite 1%nat (lit "WRITE|TI-X" ++ [LF]))))
             (Normal tt)
             (mkEditPage nat jsstring [] None [] None None true (Some (lit "TI-X")))
             (snd (fst
                (handleTagRead_resumed nat jsstring (fun _ => []) (fun id => id)
                   (fun _ => None)
                   (AwaitWriteCommand
                      (Some (AwaitWrite 1%nat (lit "WRITE|TI-X" ++ [LF]))))
                   (Normal tt)
                   (mkEditPage nat jsstring [] None [] None None true
                      (Some (lit "TI-X")))
                   (snd (fst
                      (handleTagRead_call nat jsstring
                         (fun _ => {| mantissa := 0; scale := 0 |}) (lit "CD34")
                         (mkEditPage nat jsstring [] None [] None None true
                            (Some (lit "TI-X")))
                         (snd (fst
                            (handleTagRead_call nat jsstring
                               (fun _ => {| mantissa := 0; scale := 0 |})
                               (lit "AB12")
                               (mkEditPage nat jsstring [] None [] None
                                  (Some (lit "TI-X")) false (Some (lit "TI-X")))
                               (state_after
                                  (connect (Normal reader_a) (Normal tt))
                                  startup))))))))))))))
  = [[]; [];
     lit "WRITE|TI-X" ++ [LF]; lit "WRITE|TI-X" ++ [LF];
     lit "READ" ++ [LF]; lit "READ" ++ [LF]].
Proof. reflexivity. Qed.



End FurtherConcrete.
